(** * vscode-sops: the file transforms, the rule lookup and the session
      state machine of the extension, embedded and checked against its
      specification.

    Sources embedded here: [src/sopsHandler.ts] (the encrypted-content
    heuristic, decrypt-to-temp, encrypt-and-replace, the creation-rule
    lookup, the encryption of a plaintext file, the best-effort cleanup) and [src/SopsContext.ts] (the event
    handlers of the session and the encrypt-file command).

    JavaScript strings are modelled as lists of code units below 256
    (Latin-1): [list ascii].  Node's [path] module is modelled in its POSIX
    flavour. *)

From Stdlib Require Import Ascii String List ZArith Lia Bool.
From stdpp Require Import base option list gmap strings pretty.

Set Warnings "-register-all".

Abbreviation jstring := (list ascii).

(** A literal: [str "abc"] is the JavaScript string ['abc']. *)
Definition str (s : string) : jstring := list_ascii_of_string s.
Arguments str _%_string : simpl never.

(* ===================================================================== *)
(** * String primitives of the JavaScript runtime *)
(* ===================================================================== *)

Module JsString.

Definition code (c : ascii) : N := N_of_ascii c.

(** [String.prototype.toLowerCase] on one Latin-1 code unit: A-Z and the
    accented capitals U+00C0..U+00DE (without the multiplication sign
    U+00D7) move up by 32; every other code unit is kept. *)
Definition lower_char (c : ascii) : ascii :=
  let n := code c in
  if ((65 <=? n) && (n <=? 90))%N
     || ((192 <=? n) && (n <=? 222) && negb (n =? 215))%N
  then ascii_of_N (n + 32) else c.

Definition toLowerCase (s : jstring) : jstring := map lower_char s.

(** White space and line terminators of ECMAScript that fit in Latin-1:
    TAB, LF, VT, FF, CR, SPACE, NBSP.  Both [\s] and [trim] use this set. *)
Definition is_space (c : ascii) : bool :=
  let n := code c in
  ((n =? 9) || (n =? 10) || (n =? 11) || (n =? 12) || (n =? 13)
   || (n =? 32) || (n =? 160))%N.

Definition is_line_terminator (c : ascii) : bool :=
  let n := code c in ((n =? 10) || (n =? 13))%N.

Fixpoint trimStart (s : jstring) : jstring :=
  match s with
  | c :: s' => if is_space c then trimStart s' else s
  | [] => []
  end.

Definition trimEnd (s : jstring) : jstring := rev (trimStart (rev s)).

(** [String.prototype.trim]. *)
Definition trim (s : jstring) : jstring := trimEnd (trimStart s).

Fixpoint startsWith (s t : jstring) {struct t} : bool :=
  match t, s with
  | [], _ => true
  | c :: t', d :: s' => Ascii.eqb c d && startsWith s' t'
  | _ :: _, [] => false
  end.

(** [String.prototype.includes]: [t] occurs in [s] at some index. *)
Fixpoint includes (s t : jstring) : bool :=
  startsWith s t ||
  match s with
  | [] => false
  | _ :: s' => includes s' t
  end.

(** [s.substring(0, n)]. *)
Definition substring0 (n : nat) (s : jstring) : jstring := take n s.

End JsString.

Import JsString.

(** Declarative counterparts used in the statements. *)

(** [t] occurs in [s]. *)
Definition occurs_in (t s : jstring) : Prop :=
  ∃ pre post, s = pre ++ t ++ post.

(** [t] (given in lower case) occurs in [s] up to letter case. *)
Definition occurs_in_ci (t s : jstring) : Prop :=
  ∃ pre mid post, s = pre ++ mid ++ post ∧ toLowerCase mid = t.

(* ===================================================================== *)
(** * Regular expressions *)
(* ===================================================================== *)

(** The fragment of ECMAScript patterns the sources use, matched the way
    ECMA-262 defines pattern semantics: by backtracking matchers that take
    a continuation.  A matcher is given the input still to be read and the
    captures so far; the continuation is the rest of the pattern. *)

Module RegExp.

Inductive regex : Type :=
| Empty                          (* the empty pattern *)
| Chars (p : ascii → bool)       (* one code unit of a set: x, ., [..], \s *)
| Seq (r1 r2 : regex)            (* r1 r2 *)
| Alt (r1 r2 : regex)            (* r1|r2 *)
| Star (r : regex)               (* r*, greedy *)
| Group (i : nat) (r : regex)    (* the i-th capturing group *)
| Bol                            (* ^ without the m flag *)
| Eol.                           (* $ without the m flag *)

Definition Plus (r : regex) : regex := Seq r (Star r).
Definition Opt (r : regex) : regex := Alt r Empty.
Definition Chr (c : ascii) : regex := Chars (Ascii.eqb c).

(** A run of literal characters. *)
Definition lit (s : jstring) : regex :=
  foldr (λ c r, Seq (Chr c) r) Empty s.

(** Character sets. *)
Definition cs_space : ascii → bool := is_space.                 (* \s *)
Definition cs_dot (c : ascii) : bool := negb (is_line_terminator c). (* . *)
Definition cs_not_newline (c : ascii) : bool :=                 (* [^\n\r] *)
  negb (is_line_terminator c).

Definition captures := list (option jstring).
Definition result := option (jstring * captures).
Definition continuation := jstring → captures → result.

(** The greedy loop of [r*]: one more round of [mr] when it reads at least
    one code unit (an empty round is refused, as in ECMA-262), else the
    continuation.  [fuel] bounds the rounds by the length of the input. *)
Fixpoint repeat (mr : jstring → captures → continuation → result)
    (k : continuation) (fuel : nat) (s : jstring) (caps : captures) : result :=
  match fuel with
  | 0 => k s caps
  | S fuel' =>
      match mr s caps
              (λ s' caps',
                 if length s' <? length s
                 then repeat mr k fuel' s' caps' else None) with
      | Some x => Some x
      | None => k s caps
      end
  end.

Section Matcher.
(** Length of the whole input: [^] holds where nothing has been read. *)
Variable total : nat.

Fixpoint m (r : regex) (s : jstring) (caps : captures)
    (k : continuation) {struct r} : result :=
  match r with
  | Empty => k s caps
  | Chars p =>
      match s with
      | c :: s' => if p c then k s' caps else None
      | [] => None
      end
  | Seq r1 r2 => m r1 s caps (λ s' caps', m r2 s' caps' k)
  | Alt r1 r2 =>
      match m r1 s caps k with
      | Some x => Some x
      | None => m r2 s caps k
      end
  | Star r1 => repeat (m r1) k (length s) s caps
  | Group i r1 =>
      m r1 s caps
        (λ s' caps',
           k s' (<[i := Some (take (length s - length s') s)]> caps'))
  | Bol => if length s =? total then k s caps else None
  | Eol => match s with [] => k s caps | _ :: _ => None end
  end.
End Matcher.

Fixpoint ngroups (r : regex) : nat :=
  match r with
  | Empty | Chars _ | Bol | Eol => 0
  | Seq r1 r2 | Alt r1 r2 => ngroups r1 `max` ngroups r2
  | Star r1 => ngroups r1
  | Group i r1 => i `max` ngroups r1
  end.

(** One attempt at the current position: the matched text goes to
    capture 0. *)
Definition match_here (total : nat) (r : regex) (s : jstring) : option captures :=
  match m total r s (replicate (S (ngroups r)) None) (λ s' caps, Some (s', caps)) with
  | Some (s', caps) => Some (<[0 := Some (take (length s - length s') s)]> caps)
  | None => None
  end.

(** The search loop of [RegExp.prototype.exec] without the g and y flags:
    the first index, from 0 to the length of the input, where the pattern
    matches. *)
Fixpoint search (total : nat) (r : regex) (s : jstring) : option captures :=
  match match_here total r s with
  | Some caps => Some caps
  | None =>
      match s with
      | [] => None
      | _ :: s' => search total r s'
      end
  end.

(** [r.exec(s)] and [s.match(r)] for a pattern without flags. *)
Definition exec (r : regex) (s : jstring) : option captures :=
  search (length s) r s.

(** [r.test(s)]. *)
Definition test (r : regex) (s : jstring) : bool :=
  match exec r s with Some _ => true | None => false end.

(** [match[i]]: the text of group [i], or [undefined]. *)
Definition group (caps : captures) (i : nat) : option jstring :=
  caps !! i ≫= id.

(** The language of a pattern without anchors. *)
Inductive lang : regex → jstring → Prop :=
| lang_Empty : lang Empty []
| lang_Chars p c : p c = true → lang (Chars p) [c]
| lang_Seq r1 r2 s1 s2 : lang r1 s1 → lang r2 s2 → lang (Seq r1 r2) (s1 ++ s2)
| lang_Alt_l r1 r2 s : lang r1 s → lang (Alt r1 r2) s
| lang_Alt_r r1 r2 s : lang r2 s → lang (Alt r1 r2) s
| lang_Star_nil r : lang (Star r) []
| lang_Star_cons r s1 s2 : lang r s1 → lang (Star r) s2 → lang (Star r) (s1 ++ s2)
| lang_Group i r s : lang r s → lang (Group i r) s.

Fixpoint anchor_free (r : regex) : bool :=
  match r with
  | Empty | Chars _ => true
  | Seq r1 r2 | Alt r1 r2 => anchor_free r1 && anchor_free r2
  | Star r1 | Group _ r1 => anchor_free r1
  | Bol | Eol => false
  end.

End RegExp.

Import RegExp.

(* ===================================================================== *)
(** * sopsHandler.ts: the encrypted-content heuristic *)
(* ===================================================================== *)

Definition LF : ascii := "010"%char.      (* \n *)
Definition CR : ascii := "013"%char.      (* \r *)
Definition DQUOTE : ascii := "034"%char.  (* the double quote *)

(** The pattern literals of [isSopsEncrypted]. *)

(** ["enc":] between slashes: a quoted key enc and a colon. *)
Definition re_enc_key : regex :=
  lit (DQUOTE :: str "enc" ++ DQUOTE :: str ":").

(** [/sops:\n/] *)
Definition re_sops_block : regex := lit (str "sops:" ++ [LF]).

(** A quoted key sops, a colon, [\s*] and an opening brace. *)
Definition re_sops_json : regex :=
  Seq (lit (DQUOTE :: str "sops" ++ DQUOTE :: str ":"))
      (Seq (Star (Chars cs_space)) (Chr "{"%char)).

(** [isSopsEncrypted(content)].  The function is [async] but awaits
    nothing: its promise resolves to the value computed here. *)
Definition isSopsEncrypted (content : jstring) : bool :=
  let lower := toLowerCase content in
  if negb (includes lower (str "sops")) then false
  else
    let hasEncryptedValues :=
      includes lower (str "enc[") || test re_enc_key lower in
    let hasSopsMetadata :=
      test re_sops_block lower || test re_sops_json lower in
    hasEncryptedValues || hasSopsMetadata.


(** [/sops_unencrypted_suffix\s*=\s*([^\n\r]+)/], the directive pattern of
    [decryptToTempFile]. *)
Definition re_suffix_directive : regex :=
  Seq (lit (str "sops_unencrypted_suffix"))
      (Seq (Star (Chars cs_space))
           (Seq (Chr "="%char)
                (Seq (Star (Chars cs_space))
                     (Group 1 (Plus (Chars cs_not_newline)))))).

(* ===================================================================== *)
(** * Node's [path] module (POSIX flavour) *)
(* ===================================================================== *)

Module Path.

Definition SLASH : ascii := "/"%char.
Definition DOT : ascii := "."%char.

Definition is_sep (c : ascii) : bool := Ascii.eqb c SLASH.
Definition is_dot (c : ascii) : bool := Ascii.eqb c DOT.

Fixpoint take_while (p : ascii → bool) (s : jstring) : jstring :=
  match s with
  | c :: s' => if p c then c :: take_while p s' else []
  | [] => []
  end.

Fixpoint drop_while (p : ascii → bool) (s : jstring) : jstring :=
  match s with
  | c :: s' => if p c then drop_while p s' else s
  | [] => []
  end.

(** The separators at the end of a path. *)
Definition trailing_seps (path : jstring) : jstring :=
  take_while is_sep (rev path).

(** The last component of a path, the separators after it left out. *)
Definition last_component (path : jstring) : jstring :=
  rev (take_while (λ c, negb (is_sep c)) (drop_while is_sep (rev path))).

Definition endsWith (s t : jstring) : bool := startsWith (rev s) (rev t).

(** [basename(path)]. *)
Definition basename (path : jstring) : jstring := last_component path.

(** [basename(path, suffix)]: the last component without [suffix], when the
    component ends with it and is longer.  When the component is only the
    tail of [suffix], Node returns the component with the separators that
    follow it. *)
Definition basename_ext (path suffix : jstring) : jstring :=
  if (0 <? length suffix) && (length suffix <=? length path) then
    if bool_decide (suffix = path) then []
    else
      let comp := last_component path in
      if endsWith comp suffix then
        if length comp =? length suffix then comp
        else take (length comp - length suffix) comp
      else if endsWith suffix comp then comp ++ trailing_seps path
      else comp
  else last_component path.

(** [extname(path)]: from the last dot of the last component to its end;
    empty when there is no dot, when the only dot opens the component, and
    for the component [..]. *)
Definition extname (path : jstring) : jstring :=
  let comp := last_component path in
  let after := take_while (λ c, negb (is_dot c)) (rev comp) in
  if length after =? length comp then []
  else
    let i := length comp - length after - 1 in
    if i =? 0 then []
    else if bool_decide (comp = [DOT; DOT]) then []
    else drop i comp.

(** [dirname(path)]. *)
Definition dirname (path : jstring) : jstring :=
  match path with
  | [] => [DOT]
  | c0 :: rest =>
      let hasRoot := is_sep c0 in
      match drop_while (λ c, negb (is_sep c)) (drop_while is_sep (rev rest)) with
      | [] => if hasRoot then [SLASH] else [DOT]
      | _ :: before =>
          if hasRoot && (length before =? 0) then [SLASH; SLASH]
          else c0 :: rev before
      end
  end.

Fixpoint split (s : jstring) : list jstring :=
  match s with
  | [] => [[]]
  | c :: s' =>
      if is_sep c then [] :: split s'
      else match split s' with
           | seg :: segs => (c :: seg) :: segs
           | [] => [[c]]
           end
  end.

Fixpoint unsplit (segs : list jstring) : jstring :=
  match segs with
  | [] => []
  | [seg] => seg
  | seg :: segs' => seg ++ SLASH :: unsplit segs'
  end.

(** One segment of [normalizeString]; [res] holds the segments kept so
    far, the last one first. *)
Definition normalize_step (allowAboveRoot : bool) (res : list jstring)
    (seg : jstring) : list jstring :=
  if bool_decide (seg = []) || bool_decide (seg = [DOT]) then res
  else if bool_decide (seg = [DOT; DOT]) then
    match res with
    | last :: res' =>
        if bool_decide (last = [DOT; DOT])
        then (if allowAboveRoot then [DOT; DOT] :: res else res)
        else res'
    | [] => if allowAboveRoot then [[DOT; DOT]] else []
    end
  else seg :: res.

Definition normalizeString (path : jstring) (allowAboveRoot : bool) : jstring :=
  unsplit (rev (foldl (normalize_step allowAboveRoot) [] (split path))).

(** [normalize(path)]. *)
Definition normalize (path : jstring) : jstring :=
  match path with
  | [] => [DOT]
  | c0 :: _ =>
      let isAbsolute := is_sep c0 in
      let trailingSeparator :=
        match rev path with c :: _ => is_sep c | [] => false end in
      let p := normalizeString path (negb isAbsolute) in
      match p with
      | [] => if isAbsolute then [SLASH]
              else if trailingSeparator then [DOT; SLASH] else [DOT]
      | _ :: _ =>
          (if isAbsolute then [SLASH] else [])
            ++ p ++ (if trailingSeparator then [SLASH] else [])
      end
  end.

(** [join(a, b)]: the non-empty arguments joined by a separator, then
    normalised. *)
Definition join (a b : jstring) : jstring :=
  match filter (λ x, x ≠ []) [a; b] with
  | [] => [DOT]
  | parts => normalize (unsplit parts)
  end.

End Path.

Arguments Path.join : simpl never.
Arguments Path.dirname : simpl never.
Arguments Path.basename : simpl never.
Arguments Path.basename_ext : simpl never.
Arguments Path.extname : simpl never.
Arguments Path.normalize : simpl never.

(* ===================================================================== *)
(** * Errors, the file system and the world the handlers run in *)
(* ===================================================================== *)

(** Exceptions.  A system error is what [fs/promises] rejects with (it has
    a [code] and a [syscall]); [JsError name message] is an error object
    made by [new Error(message)] ([name] is [Error]) or thrown by the
    runtime ([TypeError], [SyntaxError]). *)
Inductive js_error : Type :=
| SystemError (code : jstring) (syscall : jstring) (path : jstring) (dest : option jstring)
| JsError (name : jstring) (message : jstring).

Definition quoted (p : jstring) : jstring := str "'" ++ p ++ str "'".

(** [error.message].  The only system error this file system raises is
    ENOENT, whose text is spelled out. *)
Definition message (e : js_error) : jstring :=
  match e with
  | SystemError code syscall path dest =>
      code ++ str ": no such file or directory, " ++ syscall ++ str " "
        ++ quoted path
        ++ match dest with Some d => str " -> " ++ quoted d | None => [] end
  | JsError _ msg => msg
  end.

(** [String(error)], what a template literal prints. *)
Definition error_toString (e : js_error) : jstring :=
  match e with
  | SystemError _ _ _ _ => str "Error: " ++ message e
  | JsError name msg => name ++ str ": " ++ msg
  end.

Definition new_Error (msg : jstring) : js_error := JsError (str "Error") msg.

Definition ENOENT (syscall path : jstring) (dest : option jstring) : js_error :=
  SystemError (str "ENOENT") syscall path dest.

(** What the callback of [child_process.exec] receives. *)
Inductive exec_outcome : Type :=
| ExecOk (stdout : jstring)
| ExecFailed (err_message : jstring) (stderr : jstring).

(** What the handlers do to their surroundings, in the order it happens. *)
Inductive effect : Type :=
| Exec (cmd cwd : jstring)
| ConsoleError (text : jstring)
| ShowInformationMessage (text : jstring)
| ShowErrorMessage (text : jstring)
| ShowTextDocument (fileName : jstring)
| CloseEditor (fileName : jstring).

Record StatusBarItem : Type := {
  text : jstring;
  tooltip : jstring;
  shown : bool
}.

(** The fields of a [SopsContext] object. *)
Record SopsContext : Type := {
  statusBarItem : StatusBarItem;
  originalToTempMap : gmap jstring jstring;
  tempToOriginalMap : gmap jstring jstring;
  isCleaningUp : bool;
  cleanupTimeout : option nat
}.

(** The world: the files (a flat store from paths to contents; an
    operation fails only when the file it reads is not there), the editor
    window, the pending timers, and the session object.  An editor is
    identified with the file name of the document it shows. *)
Record World : Type := {
  files : gmap jstring jstring;
  workspaceFolders : option (list jstring);
  visibleTextEditors : list jstring;
  activeTextEditor : option jstring;
  timers : gset nat;
  nextTimer : nat;
  nextUUID : nat;
  this : SopsContext;
  log : list effect
}.

Definition set_files (f : gmap jstring jstring → gmap jstring jstring) (w : World) : World :=
  {| files := f (files w); workspaceFolders := workspaceFolders w;
     visibleTextEditors := visibleTextEditors w;
     activeTextEditor := activeTextEditor w; timers := timers w;
     nextTimer := nextTimer w; nextUUID := nextUUID w; this := this w;
     log := log w |}.

Definition set_this (f : SopsContext → SopsContext) (w : World) : World :=
  {| files := files w; workspaceFolders := workspaceFolders w;
     visibleTextEditors := visibleTextEditors w;
     activeTextEditor := activeTextEditor w; timers := timers w;
     nextTimer := nextTimer w; nextUUID := nextUUID w; this := f (this w);
     log := log w |}.

Definition add_log (e : effect) (w : World) : World :=
  {| files := files w; workspaceFolders := workspaceFolders w;
     visibleTextEditors := visibleTextEditors w;
     activeTextEditor := activeTextEditor w; timers := timers w;
     nextTimer := nextTimer w; nextUUID := nextUUID w; this := this w;
     log := log w ++ [e] |}.

(** ** The monad of the handlers: a state of type [World], and exceptions.
    An exception keeps the world as it was when it was thrown. *)

Inductive outcome (A : Type) : Type :=
| Returned (a : A)
| Thrown (e : js_error).
Arguments Returned {A} a.
Arguments Thrown {A} e.

Definition M (A : Type) : Type := World → World * outcome A.

Definition ret {A} (a : A) : M A := λ w, (w, Returned a).
Definition throw {A} (e : js_error) : M A := λ w, (w, Thrown e).

Definition bind {A B} (c : M A) (f : A → M B) : M B :=
  λ w, match c w with
       | (w', Returned a) => f a w'
       | (w', Thrown e) => (w', Thrown e)
       end.

(** [try { c } catch (e) { h e }]. *)
Definition try_catch {A} (c : M A) (h : js_error → M A) : M A :=
  λ w, match c w with
       | (w', Returned a) => (w', Returned a)
       | (w', Thrown e) => h e w'
       end.

(** [try { c } finally { f }]. *)
Definition try_finally {A} (c : M A) (f : M unit) : M A :=
  λ w, match c w with
       | (w', r) =>
           match f w' with
           | (w'', Returned _) => (w'', r)
           | (w'', Thrown e) => (w'', Thrown e)
           end
       end.

Definition get : M World := λ w, (w, Returned w).
Definition modify (f : World → World) : M unit := λ w, (f w, Returned tt).

#[global] Instance M_ret : MRet M := @ret.
#[global] Instance M_bind : MBind M := λ A B f c, bind c f.

(** ** [fs/promises] *)

Definition copyFile (src dst : jstring) : M unit :=
  λ w, match files w !! src with
       | Some c => (set_files (λ fs, <[dst := c]> fs) w, Returned tt)
       | None => (w, Thrown (ENOENT (str "copyfile") src (Some dst)))
       end.

Definition writeFile (path content : jstring) : M unit :=
  modify (set_files (λ fs, <[path := content]> fs)).

Definition rename (src dst : jstring) : M unit :=
  λ w, match files w !! src with
       | Some c => (set_files (λ fs, <[dst := c]> (delete src fs)) w, Returned tt)
       | None => (w, Thrown (ENOENT (str "rename") src (Some dst)))
       end.

Definition unlink (path : jstring) : M unit :=
  λ w, match files w !! path with
       | Some _ => (set_files (λ fs, delete path fs) w, Returned tt)
       | None => (w, Thrown (ENOENT (str "unlink") path None))
       end.

Definition readFile (path : jstring) : M jstring :=
  λ w, match files w !! path with
       | Some c => (w, Returned c)
       | None => (w, Thrown (ENOENT (str "open") path None))
       end.

Definition console_error (text : jstring) : M unit :=
  modify (add_log (ConsoleError text)).

(* ===================================================================== *)
(** * Values read from YAML, as JavaScript sees them *)
(* ===================================================================== *)

Inductive value : Type :=
| VUndefined
| VNull
| VBool (b : bool)
| VNumber (n : Z)                          (* integers only *)
| VString (s : jstring)
| VArray (items : list value)
| VObject (props : list (jstring * value)).  (* own properties, in order *)

(** [!!v] *)
Definition truthy (v : value) : bool :=
  match v with
  | VUndefined | VNull => false
  | VBool b => b
  | VNumber n => negb (n =? 0)%Z
  | VString s => negb (bool_decide (s = []))
  | VArray _ | VObject _ => true
  end.

Fixpoint assoc (key : jstring) (props : list (jstring * value)) : option value :=
  match props with
  | [] => None
  | (k, v) :: props' => if bool_decide (k = key) then Some v else assoc key props'
  end.

Definition TypeError (msg : jstring) : js_error := JsError (str "TypeError") msg.
Definition SyntaxError (msg : jstring) : js_error := JsError (str "SyntaxError") msg.

(** [v.key] for a key that no array, string, number or boolean has. *)
Definition get_prop (v : value) (key : jstring) : outcome value :=
  match v with
  | VUndefined | VNull =>
      Thrown (TypeError (str "Cannot read properties of undefined (reading '"
                           ++ key ++ str "')"))
  | VObject props => Returned (default VUndefined (assoc key props))
  | VBool _ | VNumber _ | VString _ | VArray _ => Returned VUndefined
  end.

(** What [for (const x of v)] runs over. *)
Definition iterate (v : value) : outcome (list value) :=
  match v with
  | VArray items => Returned items
  | VString s => Returned (map (λ c, VString [c]) s)
  | _ => Thrown (TypeError (str "value is not iterable"))
  end.

Fixpoint join_with (sep : jstring) (parts : list jstring) : jstring :=
  match parts with
  | [] => []
  | [x] => x
  | x :: parts' => x ++ sep ++ join_with sep parts'
  end.

(** [array.map(f)] for an [f] that may throw. *)
Definition map_outcome {A B} (f : A → outcome B) : list A → outcome (list B) :=
  fix go (l : list A) : outcome (list B) :=
    match l with
    | [] => Returned []
    | x :: l' =>
        match f x with
        | Thrown e => Thrown e
        | Returned y =>
            match go l' with
            | Thrown e => Thrown e
            | Returned ys => Returned (y :: ys)
            end
        end
    end.

(** [String(v)], which is also what a template literal, [Array.join] and
    [new RegExp] do to a value.  A mapping is printed by the [toString] it
    inherits; a mapping with a key [toString] of its own has no function
    there (no value read from YAML is one), [valueOf] gives the mapping
    back, and the conversion throws.  An array joins the texts of its
    elements, and throws when one of them does.  A number is printed with
    all its digits, as JavaScript prints the integers up to 2^53. *)
Fixpoint toString (v : value) : outcome jstring :=
  match v with
  | VUndefined => Returned (str "undefined")
  | VNull => Returned (str "null")
  | VBool true => Returned (str "true")
  | VBool false => Returned (str "false")
  | VNumber n => Returned (list_ascii_of_string (pretty n))
  | VString s => Returned s
  | VArray items =>
      match map_outcome (λ x, match x with
                              | VUndefined | VNull => Returned []
                              | _ => toString x
                              end) items with
      | Thrown e => Thrown e
      | Returned parts => Returned (join_with (str ",") parts)
      end
  | VObject props =>
      if bool_decide (str "toString" ∈ props.*1)
      then Thrown (TypeError (str "Cannot convert object to primitive value"))
      else Returned (str "[object Object]")
  end.

(* ===================================================================== *)
(** * What the program takes from its runtime *)
(* ===================================================================== *)

(** The shell that runs a command line in a directory (it may change the
    files), the source of [randomUUID], [yaml.load], the [RegExp]
    constructor on a pattern given at run time ([None]: it throws a
    [SyntaxError]), and the order in which a [Map] lists its entries. *)
Class Runtime : Type := {
  shell : jstring → jstring → gmap jstring jstring → gmap jstring jstring * exec_outcome;
  uuid_source : nat → jstring;
  yaml_load : jstring → outcome value;
  RegExp : Type;
  RegExp_new : jstring → option RegExp;
  RegExp_test : RegExp → jstring → bool;
  Map_entries : gmap jstring jstring → list (jstring * jstring)
}.

(** What is assumed of a runtime: a [Map] lists exactly its entries, and
    the empty pattern is valid and matches every string. *)
Record Runtime_ok (R : Runtime) : Prop := {
  Map_entries_perm : ∀ mp, Map_entries mp ≡ₚ map_to_list mp;
  RegExp_empty : ∃ re, RegExp_new [] = Some re ∧ ∀ s, RegExp_test re s = true
}.

Definition lift {A} (o : outcome A) : M A := λ w, (w, o).

(** [a || b] on strings. *)
Definition or_else (a b : jstring) : jstring :=
  match a with [] => b | _ :: _ => a end.

(* ===================================================================== *)
(** * sopsHandler.ts *)
(* ===================================================================== *)

(** The command line of the decryption. *)
Definition decrypt_command (originalPath : jstring) : jstring :=
  str "sops -d " ++ DQUOTE :: originalPath ++ [DQUOTE].

Section SopsHandler.
Context {R : Runtime}.

(** [exec(cmd, { cwd }, callback)], awaited. *)
Definition child_process_exec (cmd cwd : jstring) : M exec_outcome :=
  λ w, let '(fs', out) := shell cmd cwd (files w) in
       (add_log (Exec cmd cwd) (set_files (λ _, fs') w), Returned out).

Definition randomUUID : M jstring :=
  λ w, ({| files := files w; workspaceFolders := workspaceFolders w;
           visibleTextEditors := visibleTextEditors w;
           activeTextEditor := activeTextEditor w; timers := timers w;
           nextTimer := nextTimer w; nextUUID := S (nextUUID w);
           this := this w; log := log w |},
        Returned (uuid_source (nextUUID w))).

Definition decryptToTempFile (originalPath : jstring) : M jstring :=
  let fileDir := Path.dirname originalPath in
  out ← child_process_exec (decrypt_command originalPath) fileDir;
  decryptedContent ←
    match out with
    | ExecFailed err_message stderr => throw (new_Error (or_else stderr err_message))
    | ExecOk stdout => mret stdout
    end;
  let suffix :=
    match exec re_suffix_directive decryptedContent with
    | Some match_ => trim (default [] (group match_ 1))
    | None => str "_decrypted"
    end in
  let ext := Path.extname originalPath in
  let base := Path.basename_ext originalPath ext in
  let tempPath :=
    Path.join
      (substring0 (length originalPath - length (Path.basename originalPath)) originalPath)
      (base ++ suffix ++ ext) in
  writeFile tempPath decryptedContent;;
  mret tempPath.

Definition critical_message (originalPath : jstring) (restoreError : js_error) : jstring :=
  str "Encryption failed AND backup restoration also failed. The file "
    ++ originalPath ++ str " might be corrupted or in plaintext. Restore error: "
    ++ error_toString restoreError.

(** The command line of the in-place encryption. *)
Definition encrypt_command (originalPath : jstring) : jstring :=
  str "sops --encrypt --in-place " ++ DQUOTE :: originalPath ++ [DQUOTE].

Definition backup_path (originalPath uuid : jstring) : jstring :=
  originalPath ++ str ".sops-backup." ++ uuid.

Definition encryptAndReplaceOriginal (content originalPath : jstring) : M unit :=
  uuid ← randomUUID;
  let tempBackupPath := backup_path originalPath uuid in
  try_catch
    (copyFile originalPath tempBackupPath;;
     writeFile originalPath content;;
     let fileDir := Path.dirname originalPath in
     let cmd := encrypt_command originalPath in
     out ← child_process_exec cmd fileDir;
     match out with
     | ExecFailed err_message stderr =>
         console_error (str "[SOPS ERROR] Re-encryption failed. Stderr: " ++ stderr);;
         throw (new_Error (or_else stderr err_message))
     | ExecOk _ => mret tt
     end;;
     unlink tempBackupPath)
    (λ error,
       console_error (str "[SOPS ERROR] Encryption failed, restoring backup. Error: "
                        ++ error_toString error);;
       try_catch
         (rename tempBackupPath originalPath)
         (λ restoreError,
            let criticalErrorMsg := critical_message originalPath restoreError in
            console_error (str "[SOPS CRITICAL] " ++ criticalErrorMsg);;
            throw (new_Error criticalErrorMsg));;
       throw error).

(** The loop of [getApplicableCreationRules] over [config.creation_rules]. *)
Fixpoint for_each_rule (filePath : jstring) (rules applicableRules : list value)
    : outcome (list value) :=
  match rules with
  | [] => Returned applicableRules
  | rule :: rest =>
      match get_prop rule (str "path_regex") with
      | Thrown e => Thrown e
      | Returned path_regex =>
          if negb (truthy path_regex)
          then for_each_rule filePath rest (applicableRules ++ [rule])
          else
            match toString path_regex with
            | Thrown e => Thrown e
            | Returned pattern =>
                match RegExp_new pattern with
                | None => Thrown (SyntaxError (str "Invalid regular expression"))
                | Some re =>
                    if RegExp_test re filePath
                    then for_each_rule filePath rest (applicableRules ++ [rule])
                    else for_each_rule filePath rest applicableRules
                end
            end
      end
  end.

(** [vscode.workspace.workspaceFolders?.[0].uri.fsPath || ''] *)
Definition first_workspace_folder : M jstring :=
  w ← get;
  match workspaceFolders w with
  | None => mret []
  | Some [] => throw (TypeError (str "Cannot read properties of undefined (reading 'uri')"))
  | Some (folder :: _) => mret folder
  end.

Definition getApplicableCreationRules (filePath : jstring) : M (list value) :=
  try_catch
    (folder ← first_workspace_folder;
     let configPath := Path.join folder (str ".sops.yaml") in
     configFile ← readFile configPath;
     config ← lift (yaml_load configFile);
     creation_rules ← lift (get_prop config (str "creation_rules"));
     if negb (truthy creation_rules) then mret []
     else
       rules ← lift (iterate creation_rules);
       lift (for_each_rule filePath rules []))
    (λ error,
       console_error (str "[SOPS ERROR] Could not read or parse .sops.yaml: "
                        ++ error_toString error);;
       mret []).

Definition cleanupTempFile (tempPath : jstring) : M unit :=
  try_catch (unlink tempPath) (λ _, mret tt).

End SopsHandler.

(* ===================================================================== *)
(** * SopsContext.ts *)
(* ===================================================================== *)

Record TextDocument : Type := {
  fileName : jstring;
  uri_scheme : jstring;
  isClosed : bool;
  getText : jstring
}.

Definition set_statusBarItem (sb : StatusBarItem) (c : SopsContext) : SopsContext :=
  {| statusBarItem := sb; originalToTempMap := originalToTempMap c;
     tempToOriginalMap := tempToOriginalMap c; isCleaningUp := isCleaningUp c;
     cleanupTimeout := cleanupTimeout c |}.

Definition set_originalToTempMap (f : gmap jstring jstring → gmap jstring jstring)
    (c : SopsContext) : SopsContext :=
  {| statusBarItem := statusBarItem c; originalToTempMap := f (originalToTempMap c);
     tempToOriginalMap := tempToOriginalMap c; isCleaningUp := isCleaningUp c;
     cleanupTimeout := cleanupTimeout c |}.

Definition set_tempToOriginalMap (f : gmap jstring jstring → gmap jstring jstring)
    (c : SopsContext) : SopsContext :=
  {| statusBarItem := statusBarItem c; originalToTempMap := originalToTempMap c;
     tempToOriginalMap := f (tempToOriginalMap c); isCleaningUp := isCleaningUp c;
     cleanupTimeout := cleanupTimeout c |}.

Definition set_isCleaningUp (b : bool) (c : SopsContext) : SopsContext :=
  {| statusBarItem := statusBarItem c; originalToTempMap := originalToTempMap c;
     tempToOriginalMap := tempToOriginalMap c; isCleaningUp := b;
     cleanupTimeout := cleanupTimeout c |}.

Definition set_cleanupTimeout (t : option nat) (c : SopsContext) : SopsContext :=
  {| statusBarItem := statusBarItem c; originalToTempMap := originalToTempMap c;
     tempToOriginalMap := tempToOriginalMap c; isCleaningUp := isCleaningUp c;
     cleanupTimeout := t |}.

Definition set_window (visible : list jstring) (active : option jstring) (w : World) : World :=
  {| files := files w; workspaceFolders := workspaceFolders w;
     visibleTextEditors := visible; activeTextEditor := active;
     timers := timers w; nextTimer := nextTimer w; nextUUID := nextUUID w;
     this := this w; log := log w |}.

Definition set_timers (ts : gset nat) (next : nat) (w : World) : World :=
  {| files := files w; workspaceFolders := workspaceFolders w;
     visibleTextEditors := visibleTextEditors w;
     activeTextEditor := activeTextEditor w;
     timers := ts; nextTimer := next; nextUUID := nextUUID w;
     this := this w; log := log w |}.

(** The object made by the constructor. *)
Definition new_SopsContext : SopsContext :=
  {| statusBarItem := {| text := str "$(lock) SOPS";
                         tooltip := str "SOPS encrypted file"; shown := false |};
     originalToTempMap := ∅; tempToOriginalMap := ∅;
     isCleaningUp := false; cleanupTimeout := None |}.

Definition showInformationMessage (msg : jstring) : M unit :=
  modify (add_log (ShowInformationMessage msg)).

Definition showErrorMessage (msg : jstring) : M unit :=
  modify (add_log (ShowErrorMessage msg)).

Section Session.
Context {R : Runtime}.

Definition onDidSaveTextDocument (document : TextDocument) : M unit :=
  w ← get;
  let tempPath := fileName document in
  match tempToOriginalMap (this w) !! tempPath with
  | Some originalPath =>
      try_catch
        (encryptAndReplaceOriginal (getText document) originalPath;;
         showInformationMessage (str "Successfully re-encrypted " ++ originalPath))
        (λ error,
           showErrorMessage (str "Failed to re-encrypt " ++ originalPath
                               ++ str ": " ++ message error))
  | None => mret tt
  end.

Definition updateStatusBar (editor : option jstring) : M unit :=
  w ← get;
  let sb := statusBarItem (this w) in
  let hide := {| text := text sb; tooltip := tooltip sb; shown := false |} in
  let sb' :=
    match editor with
    | Some activePath =>
        if negb (bool_decide (activePath = [])) then
          match tempToOriginalMap (this w) !! activePath with
          | Some original =>
              {| text := str "$(unlock) SOPS (Decrypted)";
                 tooltip := str "Decrypted file. Original: " ++ original;
                 shown := true |}
          | None =>
              match originalToTempMap (this w) !! activePath with
              | Some _ =>
                  {| text := str "$(lock) SOPS";
                     tooltip := str "Encrypted file. Decrypted version is already open.";
                     shown := true |}
              | None => hide
              end
          end
        else hide
    | None => hide
    end in
  modify (set_this (set_statusBarItem sb')).

(** [clearTimeout] and [setTimeout]. *)
Definition clearTimeout (id : nat) : M unit :=
  modify (λ w, set_timers (timers w ∖ {[id]}) (nextTimer w) w).

Definition setTimeout : M nat :=
  w ← get;
  modify (set_timers (timers w ∪ {[nextTimer w]}) (S (nextTimer w)));;
  mret (nextTimer w).

(** [onDidChangeActiveTextEditor]: the part that runs when the event is
    delivered.  The callback it hands to [setTimeout] is
    [cleanup_callback] below; it runs when the timer fires. *)
Definition onDidChangeActiveTextEditor (editor : option jstring) : M unit :=
  w ← get;
  match cleanupTimeout (this w) with
  | Some id => clearTimeout id
  | None => mret tt
  end;;
  updateStatusBar editor;;
  id ← setTimeout;
  modify (set_this (set_cleanupTimeout (Some id))).

(** ** The editor window, as far as the handlers rely on it.

    Modelled from the comments of the handlers (closing the editor of a
    document closes the document, which delivers the close event) and from
    the documented behaviour of the calls: a change of the active editor is
    delivered to [onDidChangeActiveTextEditor]. *)

(** Give the focus to a visible editor. *)
Definition focus_editor (editor : jstring) : M unit :=
  w ← get;
  modify (set_window (visibleTextEditors w) (Some editor));;
  modify (add_log (ShowTextDocument editor));;
  onDidChangeActiveTextEditor (Some editor).

Fixpoint remove_first (x : jstring) (l : list jstring) : list jstring :=
  match l with
  | [] => []
  | y :: l' => if bool_decide (x = y) then l' else y :: remove_first x l'
  end.

(** [workbench.action.closeActiveEditor]: the active editor leaves the
    window, the focus moves to the first editor still visible, and the
    document of the closed editor is closed: [on_close] stands for the
    delivery of that event. *)
Definition closeActiveEditor (on_close : jstring → M unit) : M unit :=
  w ← get;
  match activeTextEditor w with
  | None => mret tt
  | Some editor =>
      let visible := remove_first editor (visibleTextEditors w) in
      modify (set_window visible (head visible));;
      modify (add_log (CloseEditor editor));;
      onDidChangeActiveTextEditor (head visible);;
      on_close editor
  end.

(** [closeEditor(editor)] *)
Definition closeEditor (on_close : jstring → M unit) (editor : jstring) : M unit :=
  w ← get;
  if bool_decide (editor ∈ visibleTextEditors w) then
    focus_editor editor;;
    closeActiveEditor on_close
  else mret tt.

(** [visibleTextEditors.find(e => e.document.fileName === tempPath)] *)
Definition find_editor (tempPath : jstring) (w : World) : option jstring :=
  if bool_decide (tempPath ∈ visibleTextEditors w) then Some tempPath else None.

(** [onDidCloseTextDocument], given the name of the closed document.
    Closing the editor of the working copy delivers a close event in turn;
    [fuel] bounds that cascade, and every level closes one visible editor. *)
Fixpoint onDidCloseTextDocument_ (fuel : nat) (closedPath : jstring) : M unit :=
  w ← get;
  match tempToOriginalMap (this w) !! closedPath with
  | Some originalPath =>
      cleanupTempFile closedPath;;
      modify (set_this (set_tempToOriginalMap (delete closedPath)));;
      modify (set_this (set_originalToTempMap (delete originalPath)))
  | None =>
      match originalToTempMap (this w) !! closedPath with
      | Some tempPath =>
          match find_editor tempPath w with
          | Some tempEditor =>
              match fuel with
              | 0 => mret tt
              | S fuel' => closeEditor (onDidCloseTextDocument_ fuel') tempEditor
              end
          | None => mret tt
          end
      | None => mret tt
      end
  end.

Definition close_fuel (w : World) : nat := length (visibleTextEditors w).

Definition onDidCloseTextDocument (document : TextDocument) : M unit :=
  w ← get;
  onDidCloseTextDocument_ (close_fuel w) (fileName document).

(** The delivery of a close event from inside another handler. *)
Definition deliver_close (closedPath : jstring) : M unit :=
  w ← get;
  onDidCloseTextDocument_ (close_fuel w) closedPath.

(** The entries the cleanup keeps in [contextsToClean]. *)
Definition unrelated (currentActivePath : option jstring) (entry : jstring * jstring) : bool :=
  let '(tempPath, originalPath) := entry in
  negb (bool_decide (currentActivePath = Some tempPath))
  && negb (bool_decide (currentActivePath = Some originalPath)).

Fixpoint cleanup_loop (contextsToClean : list (jstring * jstring)) : M unit :=
  match contextsToClean with
  | [] => mret tt
  | (tempPath, originalPath) :: rest =>
      w ← get;
      match find_editor tempPath w with
      | Some tempEditor => closeEditor deliver_close tempEditor
      | None =>
          cleanupTempFile tempPath;;
          modify (set_this (set_tempToOriginalMap (delete tempPath)));;
          modify (set_this (set_originalToTempMap (delete originalPath)))
      end;;
      cleanup_loop rest
  end.

(** The callback of the timer armed by [onDidChangeActiveTextEditor]. *)
Definition cleanup_callback : M unit :=
  w ← get;
  if isCleaningUp (this w) then mret tt
  else
    modify (set_this (set_isCleaningUp true));;
    try_finally
      (w ← get;
       let currentActivePath := activeTextEditor w in
       let contextsToClean :=
         filter (λ e, unrelated currentActivePath e)
                (Map_entries (tempToOriginalMap (this w))) in
       cleanup_loop contextsToClean)
      (modify (set_this (set_isCleaningUp false))).

(** A timer fires: only a pending one does, once. *)
Definition timer_fired (id : nat) : M unit :=
  w ← get;
  if bool_decide (id ∈ timers w) then
    clearTimeout id;;
    cleanup_callback
  else mret tt.

(** [showTextDocument(doc, { preview: false, viewColumn: Active })]: the
    document takes the place of the active editor and gets the focus. *)
Definition showTextDocument (path : jstring) : M unit :=
  w ← get;
  let visible :=
    path :: match activeTextEditor w with
            | Some old => remove_first old (visibleTextEditors w)
            | None => visibleTextEditors w
            end in
  modify (set_window visible (Some path));;
  modify (add_log (ShowTextDocument path));;
  onDidChangeActiveTextEditor (Some path).

(** [openTextDocument(path)]: the file is read and the open event of the
    new document is delivered to [on_open]. *)
Definition openTextDocument (on_open : TextDocument → M unit) (path : jstring)
    : M TextDocument :=
  content ← readFile path;
  let doc := {| fileName := path; uri_scheme := str "file";
                isClosed := false; getText := content |} in
  on_open doc;;
  mret doc.

(** [onDidOpenTextDocument]; [on_open] receives the open event of the
    working copy. *)
Definition onDidOpenTextDocument_ (on_open : TextDocument → M unit)
    (document : TextDocument) : M unit :=
  w ← get;
  if isCleaningUp (this w) then mret tt
  else
    let docPath := fileName document in
    if negb (bool_decide (uri_scheme document = str "file")) then mret tt
    else if bool_decide (is_Some (originalToTempMap (this w) !! docPath))
            || bool_decide (is_Some (tempToOriginalMap (this w) !! docPath))
            || isClosed document
    then mret tt
    else
      let isEncrypted := isSopsEncrypted (getText document) in
      if isEncrypted then
        try_catch
          (newTempPath ← decryptToTempFile docPath;
           modify (set_this (set_tempToOriginalMap (<[newTempPath := docPath]>)));;
           modify (set_this (set_originalToTempMap (<[docPath := newTempPath]>)));;
           tempDoc ← openTextDocument on_open newTempPath;
           showTextDocument (fileName tempDoc))
          (λ error,
             showErrorMessage (str "SOPS decryption failed: " ++ message error))
      else mret tt.

(** The open event of the working copy reaches the same handler; that
    call returns at its guards (the path has just been registered), so it
    opens nothing more. *)
Definition onDidOpenTextDocument (document : TextDocument) : M unit :=
  onDidOpenTextDocument_ (onDidOpenTextDocument_ (λ _, mret tt)) document.

(** The events of a session. *)
Inductive event : Type :=
| Open (document : TextDocument)
| Save (document : TextDocument)
| Close (document : TextDocument)
| FocusChange (editor : option jstring)
| TimerFired (id : nat).

Definition handle (ev : event) : M unit :=
  match ev with
  | Open d => onDidOpenTextDocument d
  | Save d => onDidSaveTextDocument d
  | Close d => onDidCloseTextDocument d
  | FocusChange e => onDidChangeActiveTextEditor e
  | TimerFired id => timer_fired id
  end.

(** The world after an event has been handled (an exception that leaves a
    handler is dropped by the event emitter). *)
Definition step (w : World) (ev : event) : World := fst (handle ev w).

Definition run (w : World) (evs : list event) : World := foldl step w evs.

End Session.

(** A world in which the extension has just been activated. *)
Definition initial_world (fs : gmap jstring jstring) (folders : option (list jstring))
    (visible : list jstring) (active : option jstring) : World :=
  {| files := fs; workspaceFolders := folders; visibleTextEditors := visible;
     activeTextEditor := active; timers := ∅; nextTimer := 0; nextUUID := 0;
     this := new_SopsContext; log := [] |}.

(** The invariant of the two mappings: each is the inverse of the other. *)
Definition mutual_inverses (c : SopsContext) : Prop :=
  ∀ o t, originalToTempMap c !! o = Some t ↔ tempToOriginalMap c !! t = Some o.

(** A tracked pair: registered from both sides. *)
Definition tracked (c : SopsContext) (o t : jstring) : Prop :=
  originalToTempMap c !! o = Some t ∧ tempToOriginalMap c !! t = Some o.

(* ===================================================================== *)
(** * A [RegExp] constructor for patterns given as text *)
(* ===================================================================== *)

(** The pattern syntax of ECMAScript restricted to the fragment of
    [RegExp.regex]: literals, [.], escapes, classes, groups, [|], the
    greedy quantifiers [*], [+], [?] and the anchors.  A malformed pattern
    has no parse (the constructor throws); a pattern outside the fragment
    (counted or lazy quantifiers, look-around, back references) has none
    either, and is not used below. *)

Module Pattern.

Definition is_digit (c : ascii) : bool :=
  let n := code c in ((48 <=? n) && (n <=? 57))%N.

Definition is_word (c : ascii) : bool :=
  let n := code c in
  (((48 <=? n) && (n <=? 57)) || ((65 <=? n) && (n <=? 90))
   || ((97 <=? n) && (n <=? 122)) || (n =? 95))%N.

Definition is_char (x : string) (c : ascii) : bool :=
  match x with
  | String d EmptyString => Ascii.eqb c d
  | _ => false
  end.

(** A backslash and [e]. *)
Definition escape (e : ascii) : option (ascii → bool) :=
  if is_char "s" e then Some is_space
  else if is_char "S" e then Some (λ c, negb (is_space c))
  else if is_char "d" e then Some is_digit
  else if is_char "D" e then Some (λ c, negb (is_digit c))
  else if is_char "w" e then Some is_word
  else if is_char "W" e then Some (λ c, negb (is_word c))
  else if is_char "n" e then Some (Ascii.eqb LF)
  else if is_char "r" e then Some (Ascii.eqb CR)
  else if is_char "t" e then Some (Ascii.eqb "009"%char)
  else if is_word e then None
  else Some (Ascii.eqb e).

Definition in_range (a b c : ascii) : bool :=
  ((code a <=? code c) && (code c <=? code b))%N.

(** The items of a class, up to the closing bracket. *)
Fixpoint class_items (s : jstring) (acc : ascii → bool) : option ((ascii → bool) * jstring) :=
  match s with
  | [] => None
  | c :: s1 =>
      if is_char "]" c then Some (acc, s1)
      else if is_char "\" c then
        match s1 with
        | e :: s2 =>
            match escape e with
            | Some p => class_items s2 (λ x, acc x || p x)
            | None => None
            end
        | [] => None
        end
      else
        match s1 with
        | d :: s2 =>
            if is_char "-" d then
              match s2 with
              | b :: s3 =>
                  if is_char "]" b then class_items s2 (λ x, acc x || Ascii.eqb c x || Ascii.eqb d x)
                  else if is_char "\" b then None
                  else if (code c <=? code b)%N
                  then class_items s3 (λ x, acc x || in_range c b x)
                  else None
              | [] => None
              end
            else class_items s1 (λ x, acc x || Ascii.eqb c x)
        | [] => None
        end
  end.

Definition is_quantifier (c : ascii) : bool :=
  is_char "*" c || is_char "+" c || is_char "?" c || is_char "{" c.

(** The quantifier after an atom, if any. *)
Definition quantified (anchor : bool) (a : regex) (s : jstring) : option (regex * jstring) :=
  match s with
  | q :: s1 =>
      if is_quantifier q then
        if anchor || is_char "{" q then None
        else
          match s1 with
          | q2 :: _ => if is_quantifier q2 then None
                       else Some ((if is_char "*" q then Star a
                                   else if is_char "+" q then Plus a else Opt a), s1)
          | [] => Some ((if is_char "*" q then Star a
                         else if is_char "+" q then Plus a else Opt a), s1)
          end
      else Some (a, s)
  | [] => Some (a, s)
  end.

(** [disjunction], [alternative] and [atom] return the pattern read, the
    rest of the text and the number of capturing groups opened so far. *)
Fixpoint disjunction (fuel : nat) (s : jstring) (n : nat) {struct fuel}
    : option (regex * jstring * nat) :=
  match fuel with
  | 0 => None
  | S f =>
      match alternative f s n with
      | Some (r1, c :: s1, n1) =>
          if is_char "|" c then
            match disjunction f s1 n1 with
            | Some (r2, s2, n2) => Some (Alt r1 r2, s2, n2)
            | None => None
            end
          else Some (r1, c :: s1, n1)
      | other => other
      end
  end
with alternative (fuel : nat) (s : jstring) (n : nat) {struct fuel}
    : option (regex * jstring * nat) :=
  match fuel with
  | 0 => None
  | S f =>
      match s with
      | [] => Some (Empty, [], n)
      | c :: _ =>
          if is_char "|" c || is_char ")" c then Some (Empty, s, n)
          else
            match atom f s n with
            | Some (anchor, a, s1, n1) =>
                match quantified anchor a s1 with
                | Some (t, s2) =>
                    match alternative f s2 n1 with
                    | Some (r, s3, n3) => Some (Seq t r, s3, n3)
                    | None => None
                    end
                | None => None
                end
            | None => None
            end
      end
  end
with atom (fuel : nat) (s : jstring) (n : nat) {struct fuel}
    : option (bool * regex * jstring * nat) :=
  match fuel with
  | 0 => None
  | S f =>
      match s with
      | [] => None
      | c :: s1 =>
          if is_char "^" c then Some (true, Bol, s1, n)
          else if is_char "$" c then Some (true, Eol, s1, n)
          else if is_char "." c then Some (false, Chars cs_dot, s1, n)
          else if is_quantifier c then None
          else if is_char "\" c then
            match s1 with
            | e :: s2 =>
                match escape e with
                | Some p => Some (false, Chars p, s2, n)
                | None => None
                end
            | [] => None
            end
          else if is_char "[" c then
            match s1 with
            | x :: s2 =>
                if is_char "^" x then
                  match class_items s2 (λ _, false) with
                  | Some (p, s3) => Some (false, Chars (λ y, negb (p y)), s3, n)
                  | None => None
                  end
                else
                  match class_items s1 (λ _, false) with
                  | Some (p, s3) => Some (false, Chars p, s3, n)
                  | None => None
                  end
            | [] => None
            end
          else if is_char "(" c then
            match s1 with
            | x :: y :: s3 =>
                if is_char "?" x then
                  if is_char ":" y then
                    match disjunction f s3 n with
                    | Some (r, z :: s4, n1) =>
                        if is_char ")" z then Some (false, r, s4, n1) else None
                    | _ => None
                    end
                  else None
                else
                  match disjunction f s1 (S n) with
                  | Some (r, z :: s4, n1) =>
                      if is_char ")" z then Some (false, Group (S n) r, s4, n1) else None
                  | _ => None
                  end
            | _ =>
                match disjunction f s1 (S n) with
                | Some (r, z :: s4, n1) =>
                    if is_char ")" z then Some (false, Group (S n) r, s4, n1) else None
                | _ => None
                end
            end
          else if is_char ")" c then None
          else Some (false, Chr c, s1, n)
      end
  end.

(** [new RegExp(pattern)] on the fragment. *)
Definition parse (pattern : jstring) : option regex :=
  match disjunction (4 * length pattern + 4) pattern 0 with
  | Some (r, [], _) => Some r
  | _ => None
  end.

End Pattern.

(** A runtime for the examples: the fragment for [RegExp], no shell
    command succeeds, and a [Map] lists its entries as [map_to_list] does. *)
Definition no_sops : jstring → jstring → gmap jstring jstring
    → gmap jstring jstring * exec_outcome :=
  λ cmd _ fs, (fs, ExecFailed (str "Command failed: " ++ cmd)
                              (str "/bin/sh: 1: sops: not found")).

Definition fragment_runtime
    (sh : jstring → jstring → gmap jstring jstring → gmap jstring jstring * exec_outcome)
    (uuids : nat → jstring) (yaml : jstring → outcome value) : Runtime :=
  {| shell := sh; uuid_source := uuids; yaml_load := yaml;
     RegExp := regex; RegExp_new := Pattern.parse; RegExp_test := test;
     Map_entries := map_to_list |}.

(** Worlds for the examples. *)
Definition example_uuid : nat → jstring :=
  λ _, str "1b9d6bcd-bbfd-4b2d-9b5d-ab8dfbbd4bed".

Definition no_yaml : jstring → outcome value :=
  λ _, Thrown (JsError (str "YAMLException") (str "bad indentation")).

(** A runtime without the tool installed. *)
Definition runtime_without_sops : Runtime :=
  fragment_runtime no_sops example_uuid no_yaml.

Definition secret_yaml : jstring := str "/w/secret.yaml".

Definition one_secret : World :=
  initial_world {[ secret_yaml := str "k: ENC[AES256_GCM,data:Zm9v]" ]}
    (Some [str "/w"]) [] None.

Definition empty_world : World := initial_world ∅ (Some [str "/w"]) [] None.

(** ** Rule lookup, in the words of the specification *)

(** Where the configuration file is looked for. *)
Definition config_path (w : World) : option jstring :=
  match workspaceFolders w with
  | None => Some (Path.join [] (str ".sops.yaml"))
  | Some [] => None
  | Some (folder :: _) => Some (Path.join folder (str ".sops.yaml"))
  end.

(** The configuration file is there and parses to [config]. *)
Definition config_loaded {R : Runtime} (w : World) (config : value) : Prop :=
  ∃ p configFile,
    config_path w = Some p ∧ files w !! p = Some configFile
    ∧ yaml_load configFile = Returned config.

(** The pattern of a rule: the string under [path_regex], if there is one. *)
Definition rule_pattern (rule : value) : option jstring :=
  match rule with
  | VObject props =>
      match assoc (str "path_regex") props with
      | Some (VString s) => Some s
      | _ => None
      end
  | _ => None
  end.

(** A rule applies to a path when it has no pattern (a fallback rule) or
    when its pattern is found in the path. *)
Definition rule_applies {R : Runtime} (filePath : jstring) (rule : value) : bool :=
  match rule_pattern rule with
  | None => true
  | Some s =>
      match RegExp_new s with
      | Some re => RegExp_test re filePath
      | None => false
      end
  end.

(** A rule the lookup can read: a mapping whose [path_regex], when
    present, is a string that is a valid pattern. *)
Definition rule_readable {R : Runtime} (rule : value) : Prop :=
  ∃ props, rule = VObject props
    ∧ (assoc (str "path_regex") props = None
       ∨ ∃ s, assoc (str "path_regex") props = Some (VString s)
              ∧ is_Some (RegExp_new s)).

(** A rule whose [path_regex] is not a valid regular expression. *)
Definition rule_invalid {R : Runtime} (rule : value) : Prop :=
  ∃ props s, rule = VObject props
    ∧ assoc (str "path_regex") props = Some (VString s)
    ∧ RegExp_new s = None.

(** Two rules: one for YAML files, and a fallback. *)
Definition yaml_rule : value :=
  VObject [(str "path_regex", VString (str ".*\.yaml$"));
           (str "pgp", VString (str "FBC7B9E2A4F9289AC0C1D4843D16CEE4A27381B4"))].

Definition fallback_rule : value :=
  VObject [(str "age", VString (str "age1yt3tfqlfrwdwx0z0ynwplcr6qxcxfaqycuprpmy89nr83ltx74tqdpszlw"))].

(** A rule with an unterminated group as its pattern. *)
Definition broken_rule : value :=
  VObject [(str "path_regex", VString (str "(secrets"));
           (str "pgp", VString (str "FBC7B9E2A4F9289AC0C1D4843D16CEE4A27381B4"))].

Definition config_of (rules : list value) : value :=
  VObject [(str "creation_rules", VArray rules)].

(** A runtime whose [yaml.load] yields the given configuration. *)
Definition runtime_with_config (config : value) : Runtime :=
  fragment_runtime no_sops example_uuid (λ _, Returned config).

Definition configured_world : World :=
  initial_world {[ str "/w/.sops.yaml" := str "creation_rules: ..." ]}
    (Some [str "/w"]) [] None.

(** A rule whose pattern is a plain word. *)
Definition secrets_rule : value :=
  VObject [(str "path_regex", VString (str "secrets"));
           (str "age", VString (str "age1yt3tfqlfrwdwx0z0ynwplcr6qxcxfaqycuprpmy89nr83ltx74tqdpszlw"))].

(** ** Decrypt-to-temp, in the words of the specification *)

Definition directive_key : jstring := str "sops_unencrypted_suffix".

(** A match of [r] starts at the beginning of [s]. *)
Definition matches_at (r : regex) (s : jstring) : Prop :=
  ∃ mid post, s = mid ++ post ∧ lang r mid.

(** No match of [r] starts inside [pre], when [rest] follows it. *)
Definition no_match_inside (r : regex) (pre rest : jstring) : Prop :=
  ∀ p1 p2, pre = p1 ++ p2 → p2 ≠ [] → ¬ matches_at r (p2 ++ rest).

Definition ends_line (post : jstring) : Prop :=
  post = [] ∨ ∃ c post', post = c :: post' ∧ is_line_terminator c = true.

(** The suffix the specification asks for: the trimmed value of the first
    directive (the key, white space, the assignment operator, white space,
    and the rest of the line), or the default when no directive is there. *)
Inductive directive_suffix (plaintext : jstring) : jstring → Prop :=
| suffix_of_directive pre ws1 ws2 v val post :
    plaintext = pre ++ directive_key ++ ws1 ++ str "=" ++ ws2 ++ (v :: val) ++ post →
    no_match_inside re_suffix_directive pre
      (directive_key ++ ws1 ++ str "=" ++ ws2 ++ (v :: val) ++ post) →
    Forall (λ c, is_space c = true) ws1 →
    Forall (λ c, is_space c = true) ws2 →
    is_space v = false →
    Forall (λ c, is_line_terminator c = false) (v :: val) →
    ends_line post →
    directive_suffix plaintext (trim (v :: val))
| suffix_of_blank_directive pre ws1 ws2 c ends :
    (* nothing but white space up to the end of the text: the value is
       the last white-space character that is not a line terminator *)
    plaintext = pre ++ directive_key ++ ws1 ++ str "=" ++ ws2 ++ c :: ends →
    no_match_inside re_suffix_directive pre
      (directive_key ++ ws1 ++ str "=" ++ ws2 ++ c :: ends) →
    Forall (λ c, is_space c = true) ws1 →
    Forall (λ c, is_space c = true) ws2 →
    is_space c = true →
    is_line_terminator c = false →
    Forall (λ c, is_line_terminator c = true) ends →
    directive_suffix plaintext (trim [c])
| suffix_default :
    (∀ pre rest, plaintext = pre ++ rest → ¬ matches_at re_suffix_directive rest) →
    directive_suffix plaintext (str "_decrypted").

(** A path segment that [normalize] keeps as it is. *)
Definition segment_ok (seg : jstring) : Prop :=
  seg ≠ [] ∧ (Path.SLASH ∉ seg) ∧ seg ≠ [Path.DOT] ∧ seg ≠ [Path.DOT; Path.DOT].

#[global] Instance segment_ok_dec seg : Decision (segment_ok seg) :=
  ltac:(unfold segment_ok; apply _).

(** The directory part of a path, written with the separator that ends it:
    nothing, or a root, and then segments each followed by a separator. *)
Definition directory (absolute : bool) (segs : list jstring) : jstring :=
  (if absolute then [Path.SLASH] else [])
    ++ concat (map (λ seg, seg ++ [Path.SLASH]) segs).

(** A file name split into what comes before its extension and the
    extension: the last dot and what follows it, when that dot is not the
    first character. *)
Inductive name_parts : jstring → jstring → jstring → Prop :=
| name_with_ext stem e :
    stem ≠ [] → Path.SLASH ∉ stem → Path.SLASH ∉ e → Path.DOT ∉ e →
    ¬ (stem = [Path.DOT] ∧ e = []) →
    name_parts (stem ++ Path.DOT :: e) stem (Path.DOT :: e)
| name_without_ext c rest :
    c ≠ Path.SLASH → Path.SLASH ∉ rest → Path.DOT ∉ rest →
    name_parts (c :: rest) (c :: rest) [].

(** A shell in which the tool prints the given text. *)
Definition sops_prints (plaintext : jstring)
    : jstring → jstring → gmap jstring jstring → gmap jstring jstring * exec_outcome :=
  λ _ _ fs, (fs, ExecOk plaintext).

Definition runtime_decrypting_to (plaintext : jstring) : Runtime :=
  fragment_runtime (sops_prints plaintext) example_uuid no_yaml.

(** A check that no match starts inside [pre]. *)
Fixpoint no_match_before (total : nat) (r : regex) (pre rest : jstring) : bool :=
  match pre with
  | [] => true
  | _ :: pre' =>
      match match_here total r (pre ++ rest) with
      | Some _ => false
      | None => no_match_before total r pre' rest
      end
  end.

(** A decrypted file with a directive on a line of its own. *)
Definition plaintext_with_directive : jstring :=
  str "a: 1" ++ LF :: str "sops_unencrypted_suffix = _clear" ++ LF :: str "b: 2".

(** A decrypted file whose directive gives a value with path separators. *)
Definition plaintext_climbing : jstring := str "sops_unencrypted_suffix = /../../x".

(** ** The session, in the words of the specification *)

(** What the lookups and the files of a world are: the part of the world
    the session invariants speak about. *)
Definition session (w : World)
    : gmap jstring jstring * gmap jstring jstring * bool * gmap jstring jstring :=
  (originalToTempMap (this w), tempToOriginalMap (this w),
   isCleaningUp (this w), files w).

(** The editors of the window. *)
Definition window (w : World) : list jstring * option jstring :=
  (visibleTextEditors w, activeTextEditor w).

(** Every working path registered is registered from the side of its
    original too. *)
Definition half_inverse (c : SopsContext) : Prop :=
  ∀ t o, tempToOriginalMap c !! t = Some o → originalToTempMap c !! o = Some t.

(** The worlds a session can be in: the extension is activated, events are
    handled, and between events the user and other programs change
    anything but the session object. *)
Inductive reachable {R : Runtime} : World → Prop :=
| reachable_initial fs folders visible active :
    reachable (initial_world fs folders visible active)
| reachable_event w ev : reachable w → reachable (step w ev)
| reachable_environment w w' : reachable w → this w' = this w → reachable w'.

(** A computation that leaves a part of the world as it was. *)
Definition keeps {A B} (proj : World → B) (c : M A) : Prop :=
  ∀ w, proj (c w).1 = proj w.

(** A computation that never throws. *)
Definition returns {A} (c : M A) : Prop :=
  ∀ w, ∃ a, (c w).2 = Returned a.

(** The world in which the close event of [editor] is delivered. *)
Definition closing_world {R : Runtime} (editor : jstring) (w : World) : World :=
  (closeEditor (λ _, mret tt) editor w).1.

(** A session view without the pair of the working path [t] and the
    original [o], and without the working file. *)
Definition without_pair (t o : jstring)
    (s : gmap jstring jstring * gmap jstring jstring * bool * gmap jstring jstring)
    : gmap jstring jstring * gmap jstring jstring * bool * gmap jstring jstring :=
  let '(o2t, t2o, cleaning, fs) := s in
  (delete o o2t, delete t t2o, cleaning, delete t fs).

(** A map without the keys of a list. *)
Definition remove_keys (ks : list jstring) (mp : gmap jstring jstring) : gmap jstring jstring :=
  foldl (λ acc k, delete k acc) mp ks.

(** A session in which two originals are given the same working path:
    x.yaml with the default suffix, and x_dec.yaml whose plaintext asks
    for the suffix "rypted". *)
Definition x_yaml : jstring := str "/w/x.yaml".
Definition x_dec_yaml : jstring := str "/w/x_dec.yaml".
Definition x_decrypted_yaml : jstring := str "/w/x_decrypted.yaml".

Definition encrypted_text : jstring :=
  str "k: ENC[AES256_GCM,data:Zm9v]" ++ LF :: str "sops:" ++ LF :: str "    version: 3.8.1".

Definition sops_for_two_files
    : jstring → jstring → gmap jstring jstring → gmap jstring jstring * exec_outcome :=
  λ cmd _ fs,
    if includes cmd (str "-d") then
      if includes cmd x_dec_yaml
      then (fs, ExecOk (str "sops_unencrypted_suffix = rypted" ++ LF :: str "k: v2"))
      else (fs, ExecOk (str "k: v1"))
    else (fs, ExecFailed (str "Command failed") (str "no key"))
.

Definition runtime_for_two_files : Runtime :=
  fragment_runtime sops_for_two_files example_uuid no_yaml.

Definition document (path content : jstring) : TextDocument :=
  {| fileName := path; uri_scheme := str "file"; isClosed := false; getText := content |}.

Definition two_secrets : World :=
  initial_world {[ x_yaml := encrypted_text; x_dec_yaml := encrypted_text ]}
    (Some [str "/w"]) [] None.

Definition colliding_opens : list event :=
  [Open (document x_yaml encrypted_text); Open (document x_dec_yaml encrypted_text)].

(** A world in the middle of a cleanup. *)
Definition cleaning_world : World :=
  set_this (set_isCleaningUp true) one_secret.

(** A computation that keeps [half_inverse]. *)
Definition preserves {A} (c : M A) : Prop :=
  ∀ w, half_inverse (this w) → half_inverse (this (c w).1).

(** A session with one working copy open, and the same session after
    the user has moved to a file that is not part of it. *)
Definition secret_decrypted_yaml : jstring := str "/w/secret_decrypted.yaml".

Definition after_open : World :=
  run (R := runtime_decrypting_to (str "k: v")) one_secret
    [Open (document secret_yaml encrypted_text)].

Definition focus_elsewhere : World :=
  set_window [str "/w/notes.txt"] (Some (str "/w/notes.txt")) after_open.

(** What it means for a matcher to decide [L] in front of any
    continuation that decides [K]. *)
Definition decides (mr : jstring → captures → continuation → result)
    (L : jstring → Prop) : Prop :=
  ∀ s caps k (K : jstring → Prop),
    (∀ s' c, is_Some (k s' c) ↔ K s') →
    (is_Some (mr s caps k) ↔ ∃ s1 s2, s = s1 ++ s2 ∧ L s1 ∧ K s2).

(** [dir] is a directory part and [name] a plain file name. *)
Definition dir_and_name (dir name : jstring) : Prop :=
  (dir = [] ∨ ∃ d, dir = d ++ [Path.SLASH]) ∧ name ≠ [] ∧ (Path.SLASH ∉ name).

(** A text whose only block marker is not at the start of a line. *)
Definition not_at_line_start : jstring := str "xsops:" ++ [LF].

(** ** The markers the heuristic looks for, stated on the lowered text *)

Definition quoted_sops_key : jstring := DQUOTE :: str "sops" ++ DQUOTE :: str ":".
Definition quoted_enc_key : jstring := DQUOTE :: str "enc" ++ DQUOTE :: str ":".
Definition sops_block : jstring := str "sops:" ++ [LF].

(** The quoted-format metadata marker: the quoted key, white space, and an
    opening brace. *)
Definition quoted_metadata_marker (s : jstring) : Prop :=
  ∃ pre ws post,
    s = pre ++ quoted_sops_key ++ ws ++ str "{" ++ post
    ∧ Forall (λ c, is_space c = true) ws.

(** The unquoted metadata marker at the beginning of a line. *)
Definition line_start_marker (s : jstring) : Prop :=
  ∃ pre post,
    s = pre ++ sops_block ++ post ∧ (pre = [] ∨ ∃ pre', pre = pre' ++ [LF]).

(* ===================================================================== *)
(** * sopsHandler.ts: the encryption of a plaintext file *)
(* ===================================================================== *)

(** The end of every encryption command line. *)
Definition in_place (filePath : jstring) : jstring :=
  str " --in-place " ++ DQUOTE :: filePath ++ [DQUOTE].

Section EncryptFile.
Context {R : Runtime}.

(** [if (v) { cmd += ` --option ${v}`; }] *)
Definition add_option (cmd flag : jstring) (v : value) : outcome jstring :=
  if truthy v
  then match toString v with
       | Thrown e => Thrown e
       | Returned text => Returned (cmd ++ flag ++ text)
       end
  else Returned cmd.

(** [encryptFile(filePath, rule)].  A key of the rule is read twice, for
    the test and for the template; both reads give the same value. *)
Definition encryptFile (filePath : jstring) (rule : value) : M unit :=
  let fileDir := Path.dirname filePath in
  let cmd := str "sops --encrypt" in
  pgp ← lift (get_prop rule (str "pgp"));
  cmd ← lift (add_option cmd (str " --pgp ") pgp);
  age ← lift (get_prop rule (str "age"));
  cmd ← lift (add_option cmd (str " --age ") age);
  let cmd := cmd ++ in_place filePath in
  out ← child_process_exec cmd fileDir;
  match out with
  | ExecFailed err_message stderr =>
      console_error (str "[SOPS ERROR] Encryption failed. Stderr: " ++ stderr);;
      throw (new_Error (or_else stderr err_message))
  | ExecOk _ => mret tt
  end.

End EncryptFile.

(* ===================================================================== *)
(** * SopsContext.ts: the encrypt-file command *)
(* ===================================================================== *)

(** The own enumerable properties of a value that is neither [undefined]
    nor [null], in the order [Object.keys] lists them: the properties of
    an object, the indices of an array or of a string, none for a number
    or a boolean. *)
Definition index_key (i : nat) : jstring := list_ascii_of_string (pretty i).

Definition own_properties (v : value) : list (jstring * value) :=
  match v with
  | VObject props => props
  | VArray items => imap (λ i x, (index_key i, x)) items
  | VString s => imap (λ i c, (index_key i, VString [c])) s
  | VUndefined | VNull | VBool _ | VNumber _ => []
  end.

(** [Object.keys(v)] *)
Definition Object_keys (v : value) : outcome (list jstring) :=
  match v with
  | VUndefined | VNull =>
      Thrown (TypeError (str "Cannot convert undefined or null to object"))
  | _ => Returned (own_properties v).*1
  end.

(** [v[k]] for an own key [k]. *)
Definition get_own (v : value) (k : jstring) : value :=
  default VUndefined (assoc k (own_properties v)).

(** An entry of the quick pick. *)
Record QuickPickItem : Type := {
  label : jstring;
  description : jstring;
  rule : value
}.

(** [`${k}: ${rule[k]}`] *)
Definition key_and_value (creation_rule : value) (k : jstring) : outcome jstring :=
  match toString (get_own creation_rule k) with
  | Thrown e => Thrown e
  | Returned text => Returned (k ++ str ": " ++ text)
  end.

(** The entry made for one creation rule. *)
Definition quick_pick_item (creation_rule : value) : outcome QuickPickItem :=
  match Object_keys creation_rule with
  | Thrown e => Thrown e
  | Returned keys =>
      let shown_keys := filter (λ k, k ≠ str "path_regex") keys in
      match map_outcome (key_and_value creation_rule) shown_keys with
      | Thrown e => Thrown e
      | Returned parts =>
          let label_ := join_with (str ", ") parts in
          match get_prop creation_rule (str "path_regex") with
          | Thrown e => Thrown e
          | Returned path_regex =>
              if truthy path_regex
              then match toString path_regex with
                   | Thrown e => Thrown e
                   | Returned text =>
                       Returned {| label := label_;
                                   description := str "(path_regex: " ++ text ++ str ")";
                                   rule := creation_rule |}
                   end
              else Returned {| label := label_;
                               description := str "(Fallback rule)";
                               rule := creation_rule |}
          end
      end
  end.

(** [vscode.workspace.fs.readFile(uri)]: the bytes of the file; the promise
    is rejected with a [FileSystemError] when the file is not there (the
    text of its message plays no role below). *)
Definition workspace_fs_readFile (path : jstring) : M jstring :=
  λ w, match files w !! path with
       | Some c => (w, Returned c)
       | None => (w, Thrown (JsError (str "EntryNotFound (FileSystemError)")
                               (str "Unable to read file " ++ quoted path)))
       end.

Section EncryptCommand.
Context {R : Runtime}.

(** What [content.toString()] gives for the bytes read: their text, on a
    host that hands the bytes over as a [Buffer]. *)
Variable bytes_toString : jstring → jstring.

(** The [try] statement at the end of [onEncryptFile]. *)
Definition encrypt_selected (filePath : jstring) (selectedRule : value) : M unit :=
  try_catch
    (encryptFile filePath selectedRule;;
     showInformationMessage (str "Successfully encrypted " ++ filePath))
    (λ error,
       showErrorMessage (str "Failed to encrypt " ++ filePath ++ str ": "
                           ++ message error)).

(** [onEncryptFile(uri)].  [pick] is the answer of the user to the quick
    pick, when one is shown: the index of the entry taken, or [None] when
    the user leaves the list. *)
Definition onEncryptFile (uri : option jstring) (pick : option nat) : M unit :=
  w ← get;
  let fileUri :=
    match uri with
    | Some u => Some u
    | None => activeTextEditor w
    end in
  match fileUri with
  | None => showErrorMessage (str "No file selected or active editor.")
  | Some filePath =>
      content ← workspace_fs_readFile filePath;
      let isEncrypted := isSopsEncrypted (bytes_toString content) in
      if isEncrypted
      then showInformationMessage (str "File is already encrypted with SOPS.")
      else
        creationRules ← getApplicableCreationRules filePath;
        if length creationRules =? 0
        then showErrorMessage (str "No SOPS creation rule found for " ++ filePath ++ str ".")
        else if 1 <? length creationRules then
          items ← lift (map_outcome quick_pick_item creationRules);
          match pick ≫= (items !!.) with
          | None => mret tt
          | Some picked => encrypt_selected filePath (rule picked)
          end
        else encrypt_selected filePath (default VUndefined (head creationRules))
  end.

End EncryptCommand.

(** ** What the statements below speak about *)

(** The command lines run, in order, with their working directories. *)
Definition commands (l : list effect) : list (jstring * jstring) :=
  omap (λ e, match e with Exec cmd cwd => Some (cmd, cwd) | _ => None end) l.

(** A property of the world that a computation keeps. *)
Definition invariant {A} (I : World → Prop) (c : M A) : Prop :=
  ∀ w, I w → I (c w).1.

(** The flag of the cleanup is at [b]. *)
Definition cleaning (b : bool) (w : World) : Prop := isCleaningUp (this w) = b.

(** Every pending timer is the one the session remembers. *)
Definition one_timer (w : World) : Prop :=
  ∀ id, id ∈ timers w → cleanupTimeout (this w) = Some id.

(** A property of the world that looks at the session object and the
    timers only, and not at the two mappings. *)
Record stable (I : World → Prop) : Prop := {
  stable_frame : ∀ w w', this w' = this w → timers w' = timers w → I w → I w';
  stable_originalToTempMap : ∀ f w, I w → I (set_this (set_originalToTempMap f) w);
  stable_tempToOriginalMap : ∀ f w, I w → I (set_this (set_tempToOriginalMap f) w)
}.

(** The session object, the window and the timers. *)
Definition session_frame (w : World)
    : SopsContext * (list jstring * option jstring) * gset nat :=
  (this w, window w, timers w).

(** A value that is neither [undefined] nor [null]. *)
Definition defined (v : value) : Prop := v ≠ VUndefined ∧ v ≠ VNull.

(** A value that [String] prints: neither the value nor an element of the
    arrays it is made of is a mapping with a key [toString] of its own. *)
Fixpoint printable (v : value) : bool :=
  match v with
  | VArray items => forallb printable items
  | VObject props => negb (bool_decide (str "toString" ∈ props.*1))
  | _ => true
  end.

(** A rule from which the command line of the encryption can be made: the
    values of its keys pgp and age can be printed. *)
Definition keys_printable (rule : value) : Prop :=
  ∀ key v, key = str "pgp" ∨ key = str "age" →
           get_prop rule key = Returned v → printable v = true.

(** A rule for which an entry of the quick pick can be made: the values
    shown in the entry can be printed. *)
Definition printable_rule (rule : value) : Prop :=
  (∀ k, k ∈ (own_properties rule).*1 → k ≠ str "path_regex" →
        printable (get_own rule k) = true)
  ∧ (∀ path_regex, get_prop rule (str "path_regex") = Returned path_regex →
                   printable path_regex = true).

(** A decrypted file whose directive has nothing but a space after the
    assignment operator. *)
Definition plaintext_blank : jstring :=
  str "k: v" ++ LF :: str "sops_unencrypted_suffix = ".

(** A tool that fails and leaves no file behind. *)
Definition sops_wiping
    : jstring → jstring → gmap jstring jstring → gmap jstring jstring * exec_outcome :=
  λ cmd _ _, (∅, ExecFailed (str "Command failed: " ++ cmd) (str "sops: interrupted")).

Definition runtime_wiping : Runtime := fragment_runtime sops_wiping example_uuid no_yaml.

(** A rule with both kinds of keys, and a rule with a key of another kind. *)
Definition pgp_age_rule : value :=
  VObject [(str "pgp", VString (str "FBC7B9E2A4F9289AC0C1D4843D16CEE4A27381B4"));
           (str "age", VString (str "age1yt3tfqlfrwdwx0z0ynwplcr6qxcxfaqycuprpmy89nr83ltx74tqdpszlw"))].

Definition kms_rule : value :=
  VObject [(str "kms", VString (str "arn:aws:kms:us-east-1:656532927350:key/920aff2e"))].

(** A rule whose PGP key is a mapping with a key [toString]. *)
Definition unprintable_rule : value :=
  VObject [(str "pgp", VObject [(str "toString", VNumber 1)])].

(** A workspace with a configuration and a file still in plaintext. *)
Definition db_yaml : jstring := str "/w/secrets/db.yaml".

Definition plain_world : World :=
  initial_world {[ str "/w/.sops.yaml" := str "creation_rules: ...";
                   db_yaml := str "password: hunter2" ]}
    (Some [str "/w"]) [] None.

(** The working copy of the examples, as a document, and its original. *)
Definition working_copy : TextDocument := document secret_decrypted_yaml (str "k: v2").
Definition original_copy : TextDocument := document secret_yaml encrypted_text.

(* ===================================================================== *)
(** * Properties *)
(* ===================================================================== *)

Example parse_ex1 :
  (r ← Pattern.parse (str ".*\.yaml$"); Some (test r (str "foo.yaml"), test r (str "foo.json"), test r (str "foo.yaml.bak")))
  = Some (true, false, false).
Proof. vm_compute. reflexivity. Qed.

Example parse_ex2 :
  (Pattern.parse (str "("), Pattern.parse (str "a)"), Pattern.parse (str "*a"), Pattern.parse (str "[a-"))
  = (None, None, None, None).
Proof. vm_compute. reflexivity. Qed.

Example parse_ex3 :
  (r ← Pattern.parse (str "^(secrets|conf)/[a-z0-9_]+\.(ya?ml|json)$");
   Some (test r (str "secrets/db_1.yml"), test r (str "conf/x.json"), test r (str "a/secrets/db.yml"), test r (str "conf/X.yaml")))
  = Some (true, true, false, false).
Proof. vm_compute. reflexivity. Qed.

Example parse_ex4 :
  (r ← Pattern.parse (str "yaml"); Some (test r (str "foo.yaml.bak")), 
   r ← Pattern.parse []; Some (test r (str "foo")))
  = (Some true, Some true).
Proof. vm_compute. reflexivity. Qed.

(** ** Strings *)

Lemma startsWith_spec (s t : jstring) :
  startsWith s t = true ↔ ∃ post, s = t ++ post.
Proof.
  revert s. induction t as [|c t IH]; intros s; simpl.
  - split; [intros _; by exists s | done].
  - destruct s as [|d s]; simpl.
    + split; [done | intros [post H]; discriminate].
    + rewrite andb_true_iff, IH. split.
      * intros [Hc [post ->]]. apply Ascii.eqb_eq in Hc as ->. by exists post.
      * intros [post [= -> ->]]. split; [apply Ascii.eqb_refl | by exists post].
Qed.

Lemma includes_spec (s t : jstring) :
  includes s t = true ↔ occurs_in t s.
Proof.
  unfold occurs_in. induction s as [|d s IH].
  - simpl. rewrite orb_false_r, startsWith_spec. split.
    + intros [post H]. by exists [], post.
    + intros [pre [post H]]. destruct pre; [by exists post | discriminate].
  - cbn [includes]. rewrite orb_true_iff, startsWith_spec, IH. split.
    + intros [[post H] | [pre [post H]]].
      * by exists [], post.
      * exists (d :: pre), post. by rewrite H.
    + intros [[|c pre] [post H]].
      * left. by exists post.
      * right. injection H as -> ->. by exists pre, post.
Qed.

Lemma occurs_in_ci_lower (s t : jstring) :
  occurs_in_ci t s ↔ occurs_in t (toLowerCase s).
Proof.
  unfold occurs_in_ci, occurs_in, toLowerCase. split.
  - intros (pre & mid & post & -> & <-).
    exists (map lower_char pre), (map lower_char post).
    by rewrite !map_app.
  - intros (pre & post & H).
    apply map_eq_app in H as (pre' & rest & -> & <- & H).
    apply map_eq_app in H as (mid & post' & -> & <- & <-).
    by exists pre', mid, post'.
Qed.

(** ** The matcher decides the language of a pattern *)

Lemma lang_Star_inv r s :
  lang (Star r) s →
  s = [] ∨ ∃ a b, s = a ++ b ∧ a ≠ [] ∧ lang r a ∧ lang (Star r) b.
Proof.
  intros H. remember (Star r) as r' eqn:Hr.
  induction H as [| | | | | |r0 s1 s2 H1 _ H2 IH2|]; try discriminate.
  - by left.
  - injection Hr as ->. destruct s1 as [|c s1].
    + simpl. by apply IH2.
    + right. exists (c :: s1), s2. by repeat split.
Qed.

Section MatcherSpec.
Variable total : nat.

Lemma repeat_decides r :
  decides (m total r) (lang r) →
  ∀ fuel s caps k (K : jstring → Prop),
    (∀ s' c, is_Some (k s' c) ↔ K s') →
    length s ≤ fuel →
    (is_Some (repeat (m total r) k fuel s caps)
     ↔ ∃ s1 s2, s = s1 ++ s2 ∧ lang (Star r) s1 ∧ K s2).
Proof.
  intros Hr fuel. induction fuel as [|fuel IH]; intros s caps k K Hk Hlen.
  - destruct s; [|simpl in Hlen; lia]. simpl. rewrite Hk. split.
    + intros HK. exists [], []. repeat split; [constructor | done].
    + intros (s1 & s2 & H & _ & HK). symmetry in H.
      apply app_eq_nil in H as [_ ->]. done.
  - cbn [repeat].
    set (k' := λ (s' : jstring) (caps' : captures),
                 if length s' <? length s
                 then repeat (m total r) k fuel s' caps' else None).
    set (K' := λ s' : jstring,
                 length s' < length s
                 ∧ ∃ a b, s' = a ++ b ∧ lang (Star r) a ∧ K b).
    assert (Hk' : ∀ s' c, is_Some (k' s' c) ↔ K' s').
    { intros s' c. unfold k', K'. destruct (Nat.ltb_spec (length s') (length s)) as [Hlt|Hge].
      - rewrite (IH s' c k K Hk) by lia. split; [done | by intros [_ ?]].
      - split; [intros [? ?]; discriminate | intros [? _]; lia]. }
    pose proof (Hr s caps k' K' Hk') as Hm.
    split.
    + intros Hsome. destruct (m total r s caps k') as [x|] eqn:E.
      * destruct Hm as [Hm _]. destruct (Hm (mk_is_Some _ _ eq_refl))
          as (s1 & s2 & -> & H1 & _ & a & b & -> & Ha & Hb).
        exists (s1 ++ a), b. rewrite <- app_assoc. repeat split; [|done].
        by constructor.
      * apply Hk in Hsome. exists [], s. repeat split; [constructor | done].
    + intros (s1 & s2 & -> & H1 & H2).
      apply lang_Star_inv in H1 as [-> | (a & b & -> & Hne & Ha & Hb)].
      * simpl. destruct (m total r s2 caps k'); [done | by apply Hk].
      * assert (is_Some (m total r ((a ++ b) ++ s2) caps k')) as [x ->]; [|done].
        apply Hm. exists a, (b ++ s2). rewrite <- app_assoc. repeat split; [done| |].
        -- rewrite !length_app. destruct a; [done | simpl; lia].
        -- by exists b, s2.
Qed.

Lemma m_decides r : anchor_free r = true → decides (m total r) (lang r).
Proof.
  induction r as [|p|r1 IH1 r2 IH2|r1 IH1 r2 IH2|r IH|i r IH| |];
    simpl; intros Haf; try discriminate.
  - intros s caps k K Hk. simpl. rewrite Hk. split.
    + intros HK. exists [], s. repeat split; [constructor | done].
    + intros (s1 & s2 & -> & H1 & H2). by inversion H1.
  - intros s caps k K Hk. simpl. destruct s as [|c s].
    + split; [intros [? ?]; discriminate |].
      intros (s1 & s2 & H & H1 & _). inversion H1; subst. discriminate.
    + destruct (p c) eqn:Hp.
      * rewrite Hk. split.
        -- intros HK. exists [c], s. repeat split; [by constructor | done].
        -- intros (s1 & s2 & H & H1 & H2). inversion H1; subst.
           by injection H as _ ->.
      * split; [intros [? ?]; discriminate |].
        intros (s1 & s2 & H & H1 & _). inversion H1; subst.
        injection H as -> _. congruence.
  - apply andb_true_iff in Haf as [Ha1 Ha2].
    intros s caps k K Hk. simpl.
    rewrite (IH1 Ha1 s caps _ (λ s', ∃ a b, s' = a ++ b ∧ lang r2 a ∧ K b)).
    + split.
      * intros (s1 & s2 & -> & H1 & a & b & -> & Ha & Hb).
        exists (s1 ++ a), b. rewrite <- app_assoc. repeat split; [|done].
        by constructor.
      * intros (s1 & s2 & -> & H1 & H2). inversion H1; subst.
        eexists _, _. rewrite <- app_assoc. repeat split; [done|].
        by eexists _, _.
    + intros s' c. by apply IH2.
  - apply andb_true_iff in Haf as [Ha1 Ha2].
    intros s caps k K Hk. simpl.
    pose proof (IH1 Ha1 s caps k K Hk) as H1.
    pose proof (IH2 Ha2 s caps k K Hk) as H2.
    split.
    + intros Hsome. destruct (m total r1 s caps k) eqn:E.
      * destruct H1 as [H1 _]. destruct (H1 (mk_is_Some _ _ eq_refl))
          as (s1 & s2 & -> & Hl & HK).
        exists s1, s2. repeat split; [|done]. by constructor.
      * apply H2 in Hsome as (s1 & s2 & -> & Hl & HK).
        exists s1, s2. repeat split; [|done]. by apply lang_Alt_r.
    + intros (s1 & s2 & -> & Hl & HK). inversion Hl; subst.
      * assert (is_Some (m total r1 (s1 ++ s2) caps k)) as [x ->]; [|done].
        apply H1. by exists s1, s2.
      * destruct (m total r1 (s1 ++ s2) caps k); [done|].
        apply H2. by exists s1, s2.
  - intros s caps k K Hk. simpl. apply repeat_decides; [by apply IH | done | done].
  - intros s caps k K Hk. simpl.
    rewrite (IH Haf s caps _ K).
    + split; intros (s1 & s2 & -> & Hl & HK); exists s1, s2; repeat split; try done.
      * by constructor.
      * by inversion Hl.
    + intros s' c. apply Hk.
Qed.

End MatcherSpec.

(** [test] is an unanchored search: it holds when some part of the input
    is in the language of the pattern. *)
Lemma search_spec total r s :
  anchor_free r = true →
  (is_Some (search total r s) ↔ ∃ pre mid post, s = pre ++ mid ++ post ∧ lang r mid).
Proof.
  intros Haf.
  assert (Hhere : ∀ s, is_Some (match_here total r s) ↔ ∃ mid post, s = mid ++ post ∧ lang r mid).
  { intros s0. unfold match_here.
    assert (H : is_Some (m total r s0 (replicate (S (ngroups r)) None)
                           (λ s' caps, Some (s', caps)))
                ↔ ∃ s1 s2, s0 = s1 ++ s2 ∧ lang r s1 ∧ True).
    { by apply (m_decides total r Haf). }
    destruct (m total r s0 _ _) as [[s' caps]|].
    - split; [intros _ | done].
      destruct H as [H _]. destruct (H (mk_is_Some _ _ eq_refl)) as (a & b & ? & ? & _).
      by exists a, b.
    - split; [intros [? ?]; discriminate |].
      intros (a & b & ? & ?). exfalso.
      destruct (proj2 H) as [? ?]; [by exists a, b | discriminate]. }
  induction s as [|c s IH]; cbn [search].
  - specialize (Hhere []). destruct (match_here total r []).
    + split; [intros _ | done]. destruct Hhere as [Hh _].
      destruct (Hh (mk_is_Some _ _ eq_refl)) as (mid & post & ? & ?). by exists [], mid, post.
    + split; [intros [? ?]; discriminate |].
      intros ([|? pre] & mid & post & H & Hl); [|discriminate].
      apply Hhere. by exists mid, post.
  - specialize (Hhere (c :: s)). destruct (match_here total r (c :: s)).
    + split; [intros _ | done]. destruct Hhere as [Hh _].
      destruct (Hh (mk_is_Some _ _ eq_refl)) as (mid & post & ? & ?). by exists [], mid, post.
    + rewrite IH. split.
      * intros (pre & mid & post & -> & Hl). by exists (c :: pre), mid, post.
      * intros ([|? pre] & mid & post & H & Hl).
        -- exfalso. destruct Hhere as [_ Hh]. destruct Hh as [? ?]; [|discriminate].
           by exists mid, post.
        -- injection H as -> ->. by exists pre, mid, post.
Qed.

Lemma test_spec r s :
  anchor_free r = true →
  (test r s = true ↔ ∃ pre mid post, s = pre ++ mid ++ post ∧ lang r mid).
Proof.
  intros Haf. rewrite <- (search_spec (length s) r s Haf).
  unfold test, exec. destruct (search _ _ _); split; try done.
Qed.

Lemma lang_lit (l s : jstring) : lang (lit l) s ↔ s = l.
Proof.
  revert s. induction l as [|c l IH]; intros s; simpl.
  - split; [by inversion 1 | intros ->; constructor].
  - split.
    + inversion 1 as [| |? ? s1 s2 H1 H2| | | | |]; subst.
      inversion H1 as [|? ? Hc| | | | | |]; subst.
      apply Ascii.eqb_eq in Hc as ->. apply IH in H2 as ->. done.
    + intros ->. change (c :: l) with ([c] ++ l). constructor; [|by apply IH].
      constructor. apply Ascii.eqb_refl.
Qed.

Lemma anchor_free_lit l : anchor_free (lit l) = true.
Proof. induction l; simpl; auto. Qed.

Lemma test_lit (l s : jstring) : test (lit l) s = true ↔ occurs_in l s.
Proof.
  rewrite test_spec by apply anchor_free_lit. unfold occurs_in. split.
  - intros (pre & mid & post & -> & ->%lang_lit). by exists pre, post.
  - intros (pre & post & ->). exists pre, l, post. by rewrite lang_lit.
Qed.

Lemma lang_Star_Chars p s : lang (Star (Chars p)) s ↔ Forall (λ c, p c = true) s.
Proof.
  split.
  - intros H. remember (Star (Chars p)) as r eqn:Hr.
    induction H as [| | | | | |r0 s1 s2 H1 _ H2 IH2|]; try discriminate.
    + constructor.
    + injection Hr as ->. inversion H1; subst. constructor; [done | by apply IH2].
  - induction 1 as [|c s Hc _ IH]; [constructor|].
    change (c :: s) with ([c] ++ s). constructor; [by constructor | done].
Qed.

Lemma lang_re_sops_json mid :
  lang re_sops_json mid
  ↔ ∃ ws, mid = quoted_sops_key ++ ws ++ str "{" ∧ Forall (λ c, is_space c = true) ws.
Proof.
  unfold re_sops_json. split.
  - inversion 1 as [| |? ? s1 s2 H1 H2| | | | |]; subst.
    apply (proj1 (lang_lit quoted_sops_key _)) in H1 as ->.
    inversion H2 as [| |? ? s3 s4 H3 H4| | | | |]; subst.
    apply lang_Star_Chars in H3.
    inversion H4 as [|? c Hc| | | | | |]; subst.
    apply Ascii.eqb_eq in Hc as <-. by exists s3.
  - intros (ws & -> & Hws). constructor; [by apply lang_lit|].
    constructor; [by apply lang_Star_Chars|].
    constructor. reflexivity.
Qed.

Lemma test_re_sops_json s : test re_sops_json s = true ↔ quoted_metadata_marker s.
Proof.
  rewrite test_spec by reflexivity. unfold quoted_metadata_marker. split.
  - intros (pre & mid & post & -> & (ws & -> & Hws)%lang_re_sops_json).
    exists pre, ws, post. by rewrite <- !app_assoc.
  - intros (pre & ws & post & -> & Hws).
    exists pre, (quoted_sops_key ++ ws ++ str "{"), post. split.
    + by rewrite <- !app_assoc.
    + apply lang_re_sops_json. by exists ws.
Qed.

(** The heuristic, read off the lowered text. *)
Lemma isSopsEncrypted_spec content :
  isSopsEncrypted content = true
  ↔ occurs_in_ci (str "sops") content
    ∧ (occurs_in_ci (str "enc[") content
       ∨ occurs_in_ci quoted_enc_key content
       ∨ occurs_in_ci sops_block content
       ∨ quoted_metadata_marker (toLowerCase content)).
Proof.
  unfold isSopsEncrypted. rewrite !occurs_in_ci_lower.
  rewrite <- !includes_spec, <- test_re_sops_json.
  destruct (includes (toLowerCase content) (str "sops")); simpl.
  - rewrite !orb_true_iff.
    change re_enc_key with (lit quoted_enc_key).
    change re_sops_block with (lit sops_block).
    rewrite !test_lit, <- !includes_spec. tauto.
  - split; [done | by intros [? _]].
Qed.

Lemma occurs_in_weaken (t1 t2 t3 s : jstring) :
  occurs_in (t1 ++ t2 ++ t3) s → occurs_in t2 s.
Proof.
  intros (pre & post & ->). exists (pre ++ t1), (t3 ++ post).
  by rewrite <- !app_assoc.
Qed.

(** C3.  The heuristic is false on a text without "sops" in any letter
    case; true on a text with both "sops" and the marker "enc[" ; and true
    on a text with the block marker "sops:" followed by a line feed, whether
    or not "enc[" occurs. *)
Theorem isSopsEncrypted_heuristic (content : jstring) :
  (¬ occurs_in_ci (str "sops") content → isSopsEncrypted content = false)
  ∧ (occurs_in_ci (str "sops") content → occurs_in_ci (str "enc[") content
     → isSopsEncrypted content = true)
  ∧ (occurs_in_ci sops_block content → isSopsEncrypted content = true).
Proof.
  repeat split.
  - intros Hno. destruct (isSopsEncrypted content) eqn:E; [|done].
    apply isSopsEncrypted_spec in E as [H _]. contradiction.
  - intros Hs He. apply isSopsEncrypted_spec. auto.
  - intros Hb. apply isSopsEncrypted_spec. split; [|auto].
    apply occurs_in_ci_lower. apply occurs_in_ci_lower in Hb.
    by apply (occurs_in_weaken [] (str "sops") (str ":" ++ [LF])).
Qed.

Lemma isSopsEncrypted_heuristic_witness :
  isSopsEncrypted (str "key: value") = false
  ∧ isSopsEncrypted (str "k: ENC[AES256_GCM,data:Zm9v]" ++ LF :: str "SOPS_VERSION: 3") = true
  ∧ isSopsEncrypted (str "Sops:" ++ LF :: str "  version: 3.8.1") = true.
Proof.
  split; [|split].
  - apply (proj1 (isSopsEncrypted_heuristic _)).
    rewrite occurs_in_ci_lower, <- includes_spec. by vm_compute.
  - apply (proj1 (proj2 (isSopsEncrypted_heuristic _)));
      rewrite occurs_in_ci_lower, <- includes_spec; by vm_compute.
  - apply (proj2 (proj2 (isSopsEncrypted_heuristic _))).
    rewrite occurs_in_ci_lower, <- includes_spec. by vm_compute.
Defined.

(** C4, as the code has it.  On a text with "sops" but no encrypted-value
    marker and no quoted-format metadata marker, the heuristic is true
    exactly when "sops:" followed by a line feed occurs somewhere in the
    lowered text, at the start of a line or not. *)
Theorem isSopsEncrypted_block_marker_anywhere (content : jstring) :
  occurs_in_ci (str "sops") content →
  ¬ occurs_in_ci (str "enc[") content →
  ¬ occurs_in_ci quoted_enc_key content →
  ¬ quoted_metadata_marker (toLowerCase content) →
  (isSopsEncrypted content = true ↔ occurs_in_ci sops_block content).
Proof.
  intros Hs H1 H2 H3. rewrite isSopsEncrypted_spec. tauto.
Qed.

Lemma isSopsEncrypted_block_marker_anywhere_witness :
  isSopsEncrypted not_at_line_start = true
  ↔ occurs_in_ci sops_block not_at_line_start.
Proof.
  apply isSopsEncrypted_block_marker_anywhere.
  - rewrite occurs_in_ci_lower, <- includes_spec. by vm_compute.
  - rewrite occurs_in_ci_lower, <- includes_spec. by vm_compute.
  - rewrite occurs_in_ci_lower, <- includes_spec. by vm_compute.
  - rewrite <- test_re_sops_json. by vm_compute.
Defined.

(** C4 as stated fails: this text has "sops", no encrypted-value marker
    and no quoted-format marker; its only "sops:" followed by a line feed
    is not at the start of a line; yet the heuristic is true. *)
Lemma isSopsEncrypted_line_start_counterexample :
  occurs_in_ci (str "sops") not_at_line_start
  ∧ ¬ occurs_in_ci (str "enc[") not_at_line_start
  ∧ ¬ occurs_in_ci quoted_enc_key not_at_line_start
  ∧ ¬ quoted_metadata_marker (toLowerCase not_at_line_start)
  ∧ ¬ line_start_marker (toLowerCase not_at_line_start)
  ∧ isSopsEncrypted not_at_line_start = true.
Proof.
  repeat split.
  - rewrite occurs_in_ci_lower, <- includes_spec. by vm_compute.
  - rewrite occurs_in_ci_lower, <- includes_spec. by vm_compute.
  - rewrite occurs_in_ci_lower, <- includes_spec. by vm_compute.
  - rewrite <- test_re_sops_json. by vm_compute.
  - intros (pre & post & H & Hpre).
    assert (Hlen : length pre + length post = 1).
    { apply (f_equal length) in H. rewrite !length_app in H.
      change (length (toLowerCase not_at_line_start)) with 7 in H.
      change (length sops_block) with 6 in H. lia. }
    destruct pre as [|c [|? ?]]; [| |simpl in Hlen; lia].
    + vm_compute in H. discriminate.
    + vm_compute in H. injection H as <- _.
      destruct Hpre as [Hp | [pre' Hp]]; [discriminate|].
      destruct pre' as [|? [|? ?]]; discriminate.
Qed.

(** ** The file operations *)

Lemma copyFile_returns src dst w :
  (copyFile src dst w).2 = Returned tt ↔ is_Some (files w !! src).
Proof.
  unfold copyFile. destruct (files w !! src); simpl; split; done.
Qed.

Lemma rename_returns src dst w :
  (rename src dst w).2 = Returned tt ↔ is_Some (files w !! src).
Proof.
  unfold rename. destruct (files w !! src); simpl; split; done.
Qed.

Lemma backup_path_ne originalPath uuid : backup_path originalPath uuid ≠ originalPath.
Proof.
  unfold backup_path. intros H. apply (f_equal length) in H.
  rewrite !length_app in H. simpl in H. lia.
Qed.

(** A decidable statement about given strings, settled by evaluation. *)
Ltac by_computation := apply (bool_decide_unpack _); vm_compute; reflexivity.

(** Unfolding the monad. *)
Ltac run_monad :=
  unfold mbind, mret, M_bind, M_ret, bind, ret, throw, try_catch, try_finally,
    get, modify, lift, console_error, showErrorMessage, showInformationMessage,
    writeFile; simpl.

Section EncryptAndReplace.
Context {R : Runtime}.

(** C1.  When the backup copy succeeds, the in-place encryption fails
    (leaving the backup as it found it) and the restoration from the backup
    succeeds, the original file holds what it held before, no backup file
    remains, and the error thrown is the one of the encryption. *)
Theorem encryptAndReplaceOriginal_restores
    (w : World) (content originalPath : jstring)
    (fs' : gmap jstring jstring) (err_message stderr : jstring) :
  let backup := backup_path originalPath (uuid_source (nextUUID w)) in
  let copied := copyFile originalPath backup w in
  let written := <[originalPath := content]> (files copied.1) in
  copied.2 = Returned tt →
  shell (encrypt_command originalPath) (Path.dirname originalPath) written
    = (fs', ExecFailed err_message stderr) →
  fs' !! backup = written !! backup →
  (rename backup originalPath (set_files (λ _, fs') w)).2 = Returned tt →
  ∃ w', encryptAndReplaceOriginal content originalPath w
          = (w', Thrown (new_Error (or_else stderr err_message)))
        ∧ files w' !! originalPath = files w !! originalPath
        ∧ files w' !! backup = None.
Proof.
  intros backup copied written Hcopy Hexec Hframe Hrestore.
  apply copyFile_returns in Hcopy as [c0 Hc0].
  assert (Hne : backup ≠ originalPath) by apply backup_path_ne.
  assert (Hwritten : written = <[originalPath := content]> (<[backup := c0]> (files w))).
  { unfold written, copied, copyFile. by rewrite Hc0. }
  assert (Hb : fs' !! backup = Some c0).
  { rewrite Hframe, Hwritten. rewrite lookup_insert_ne by done.
    apply lookup_insert_eq. }
  unfold encryptAndReplaceOriginal, randomUUID, child_process_exec, copyFile, rename.
  run_monad. fold backup. rewrite Hc0. simpl.
  rewrite <- Hwritten, Hexec. simpl. rewrite Hb. simpl.
  eexists. split; [reflexivity|]. simpl. split.
  - by rewrite lookup_insert_eq.
  - rewrite lookup_insert_ne by done. apply lookup_delete_eq.
Qed.

(** C8.  When the backup copy itself fails, with no file under the fresh
    backup name, the files are left as they were, and the error thrown is
    the critical one, made from the failure of the rename, not the error of
    the copy. *)
Theorem encryptAndReplaceOriginal_copy_fails
    (w : World) (content originalPath : jstring) (copy_error : js_error) :
  let backup := backup_path originalPath (uuid_source (nextUUID w)) in
  (copyFile originalPath backup w).2 = Thrown copy_error →
  files w !! backup = None →
  ∃ w' thrown,
    encryptAndReplaceOriginal content originalPath w = (w', Thrown thrown)
    ∧ thrown = new_Error (critical_message originalPath
                            (ENOENT (str "rename") backup (Some originalPath)))
    ∧ thrown ≠ copy_error
    ∧ files w' = files w.
Proof.
  intros backup Hcopy Hfresh.
  assert (Hc : files w !! originalPath = None ∧
               copy_error = ENOENT (str "copyfile") originalPath (Some backup)).
  { unfold copyFile in Hcopy. destruct (files w !! originalPath); simpl in Hcopy.
    - discriminate.
    - by injection Hcopy as <-. }
  destruct Hc as [Hnone ->].
  unfold encryptAndReplaceOriginal, randomUUID, child_process_exec, copyFile, rename.
  run_monad. fold backup. rewrite Hnone. simpl. rewrite Hfresh. simpl.
  eexists _, _. split; [reflexivity|]. repeat split. discriminate.
Qed.

End EncryptAndReplace.

Lemma encryptAndReplaceOriginal_restores_witness :
  let backup := backup_path secret_yaml (example_uuid 0) in
  ∃ w', encryptAndReplaceOriginal (R := runtime_without_sops) (str "k: v") secret_yaml one_secret
          = (w', Thrown (new_Error (str "/bin/sh: 1: sops: not found")))
        ∧ files w' !! secret_yaml = files one_secret !! secret_yaml
        ∧ files w' !! backup = None.
Proof.
  apply (encryptAndReplaceOriginal_restores (R := runtime_without_sops)
           one_secret (str "k: v") secret_yaml
           (<[secret_yaml := str "k: v"]>
              (<[backup_path secret_yaml (example_uuid 0) := str "k: ENC[AES256_GCM,data:Zm9v]"]>
                 (files one_secret)))
           (str "Command failed: " ++ encrypt_command secret_yaml)
           (str "/bin/sh: 1: sops: not found")).
  - vm_compute. reflexivity.
  - reflexivity.
  - reflexivity.
  - vm_compute. reflexivity.
Defined.

Lemma encryptAndReplaceOriginal_copy_fails_witness :
  let backup := backup_path secret_yaml (example_uuid 0) in
  ∃ w' thrown,
    encryptAndReplaceOriginal (R := runtime_without_sops) (str "k: v") secret_yaml empty_world
      = (w', Thrown thrown)
    ∧ thrown = new_Error (critical_message secret_yaml
                            (ENOENT (str "rename") backup (Some secret_yaml)))
    ∧ thrown ≠ ENOENT (str "copyfile") secret_yaml (Some backup)
    ∧ files w' = files empty_world.
Proof.
  apply (encryptAndReplaceOriginal_copy_fails (R := runtime_without_sops)
           empty_world (str "k: v") secret_yaml).
  - reflexivity.
  - reflexivity.
Defined.

(** ** Rule lookup *)

Section RuleLookup.
Context {R : Runtime} (HR : Runtime_ok R).

Lemma RegExp_new_nil_valid : RegExp_new [] ≠ None.
Proof. destruct (RegExp_empty R HR) as (re & -> & _). done. Qed.

Lemma getApplicableCreationRules_loaded w config filePath :
  config_loaded w config →
  getApplicableCreationRules filePath w
  = match
      match get_prop config (str "creation_rules") with
      | Thrown e => Thrown e
      | Returned creation_rules =>
          if negb (truthy creation_rules) then Returned []
          else match iterate creation_rules with
               | Thrown e => Thrown e
               | Returned rules => for_each_rule filePath rules []
               end
      end
    with
    | Returned l => (w, Returned l)
    | Thrown e =>
        (add_log (ConsoleError (str "[SOPS ERROR] Could not read or parse .sops.yaml: "
                                  ++ error_toString e)) w, Returned [])
    end.
Proof.
  intros (p & configFile & Hp & Hfile & Hyaml).
  unfold getApplicableCreationRules, first_workspace_folder, readFile, config_path in *.
  run_monad. destruct (workspaceFolders w) as [[|folder ?]|]; simplify_eq; simpl;
    rewrite Hfile; simpl; rewrite Hyaml; simpl;
    (destruct (get_prop config _) as [cr|e]; simpl; [|done]);
    (destruct (truthy cr); simpl; [|done]);
    (destruct (iterate cr) as [rules|e]; simpl; [|done]);
    by destruct (for_each_rule filePath rules []).
Qed.

(** On readable rules the loop is a filter that keeps the order. *)
Lemma for_each_rule_readable filePath rules acc :
  Forall rule_readable rules →
  for_each_rule filePath rules acc
  = Returned (acc ++ filter (λ r, rule_applies filePath r = true) rules).
Proof.
  intros Hall. revert acc. induction Hall as [|rule rules Hrule _ IH]; intros acc.
  - simpl. by rewrite app_nil_r.
  - destruct Hrule as (props & -> & Hpat). cbn [for_each_rule get_prop].
    destruct Hpat as [Hp | (s & Hp & [re Hre])].
    + assert (Ha : rule_applies filePath (VObject props) = true).
      { unfold rule_applies, rule_pattern. by rewrite Hp. }
      rewrite Hp. simpl. rewrite IH, filter_cons_True by done.
      by rewrite <- app_assoc.
    + rewrite Hp. simpl. destruct s as [|c s].
      * destruct (RegExp_empty R HR) as (re0 & Hre0 & Hall0).
        assert (Ha : rule_applies filePath (VObject props) = true).
        { unfold rule_applies, rule_pattern. by rewrite Hp, Hre0, Hall0. }
        simpl. rewrite IH, filter_cons_True by done.
        by rewrite <- app_assoc.
      * assert (Ha : rule_applies filePath (VObject props) = RegExp_test re filePath).
        { unfold rule_applies, rule_pattern. by rewrite Hp, Hre. }
        rewrite bool_decide_eq_false_2 by done. simpl. rewrite Hre.
        destruct (RegExp_test re filePath); rewrite IH.
        -- rewrite filter_cons_True by done. by rewrite <- app_assoc.
        -- rewrite filter_cons_False; [done|]. by rewrite Ha.
Qed.

(** One invalid pattern makes the loop throw, whatever was kept so far. *)
Lemma for_each_rule_invalid filePath rules acc :
  Exists rule_invalid rules →
  ∃ e, for_each_rule filePath rules acc = Thrown e.
Proof.
  intros Hex. revert acc. induction Hex as [rule rules Hinv | rule rules _ IH]; intros acc.
  - destruct Hinv as (props & s & -> & Hprop & Hnew). cbn [for_each_rule get_prop].
    rewrite Hprop. simpl.
    assert (s ≠ []) by (intros ->; by apply RegExp_new_nil_valid).
    rewrite bool_decide_eq_false_2 by done. simpl. rewrite Hnew. by eexists.
  - cbn [for_each_rule]. destruct (get_prop rule _) as [pr|e]; [|by eexists].
    destruct (negb (truthy pr)); [apply IH|].
    destruct (toString pr) as [pattern|e]; [|by eexists].
    destruct (RegExp_new _) as [re|]; [|by eexists].
    destruct (RegExp_test re filePath); apply IH.
Qed.

Lemma getApplicableCreationRules_readable w config rules filePath :
  config_loaded w config →
  get_prop config (str "creation_rules") = Returned (VArray rules) →
  Forall rule_readable rules →
  getApplicableCreationRules filePath w
  = (w, Returned (filter (λ r, rule_applies filePath r = true) rules)).
Proof.
  intros Hload Hcr Hall.
  rewrite (getApplicableCreationRules_loaded w config filePath Hload), Hcr. simpl.
  by rewrite for_each_rule_readable.
Qed.

(** C9.  If some rule of the parsed [creation_rules] sequence has a
    [path_regex] that is not a valid regular expression, the lookup
    returns the empty list for every candidate path: the exception of the
    constructor reaches the handler around the whole lookup, and the rules
    kept before it are dropped with it. *)
Theorem getApplicableCreationRules_invalid_regex
    (w : World) (config : value) (rules : list value) :
  config_loaded w config →
  get_prop config (str "creation_rules") = Returned (VArray rules) →
  Exists rule_invalid rules →
  ∀ filePath, (getApplicableCreationRules filePath w).2 = Returned [].
Proof.
  intros Hload Hcr Hinv filePath.
  rewrite (getApplicableCreationRules_loaded w config filePath Hload), Hcr. simpl.
  destruct (for_each_rule_invalid filePath rules [] Hinv) as [e ->]. done.
Qed.

End RuleLookup.

Lemma fragment_runtime_ok sh uuids yaml : Runtime_ok (fragment_runtime sh uuids yaml).
Proof.
  split.
  - intros mp. done.
  - exists Empty. split; [done|]. intros s. simpl.
    unfold test, exec. by destruct s.
Qed.

(** C6, as the code has it.  When every rule of the parsed
    [creation_rules] sequence can be read (it is a mapping, and its
    [path_regex], when present, is a valid pattern), the lookup returns, in
    the order of the file, exactly the rules without a [path_regex] and
    the rules whose [path_regex] is found in the path by an unanchored
    search.  With the pattern [.*\.yaml$] the rule applies to foo.yaml and
    not to foo.json; a fallback rule applies to both; a pattern needs to
    match only a part of the path. *)
Theorem getApplicableCreationRules_filter :
  (∀ (R : Runtime), Runtime_ok R →
   ∀ (w : World) (config : value) (rules : list value) (filePath : jstring),
     config_loaded w config →
     get_prop config (str "creation_rules") = Returned (VArray rules) →
     Forall rule_readable rules →
     getApplicableCreationRules filePath w
     = (w, Returned (filter (λ r, rule_applies filePath r = true) rules)))
  ∧ (getApplicableCreationRules
       (R := runtime_with_config (config_of [yaml_rule; fallback_rule]))
       (str "foo.yaml") configured_world).2
    = Returned [yaml_rule; fallback_rule]
  ∧ (getApplicableCreationRules
       (R := runtime_with_config (config_of [yaml_rule; fallback_rule]))
       (str "foo.json") configured_world).2
    = Returned [fallback_rule]
  ∧ (getApplicableCreationRules
       (R := runtime_with_config (config_of [secrets_rule; yaml_rule]))
       (str "/w/secrets/db.json") configured_world).2
    = Returned [secrets_rule].
Proof.
  split; [|repeat split; vm_compute; reflexivity].
  intros R HR w config rules filePath Hload Hcr Hall.
  by apply (getApplicableCreationRules_readable HR w config).
Qed.

Lemma getApplicableCreationRules_filter_witness :
  getApplicableCreationRules
    (R := runtime_with_config (config_of [yaml_rule; fallback_rule]))
    (str "/w/foo.json") configured_world
  = (configured_world,
     Returned (filter (λ r, rule_applies
                              (R := runtime_with_config (config_of [yaml_rule; fallback_rule]))
                              (str "/w/foo.json") r = true)
                 [yaml_rule; fallback_rule])).
Proof.
  apply (proj1 getApplicableCreationRules_filter
           (runtime_with_config (config_of [yaml_rule; fallback_rule]))
           (fragment_runtime_ok _ _ _)
           configured_world (config_of [yaml_rule; fallback_rule])).
  - exists (str "/w/.sops.yaml"), (str "creation_rules: ...").
    repeat split; vm_compute; reflexivity.
  - reflexivity.
  - repeat constructor.
    + eexists. split; [reflexivity|]. right. eexists. split; [reflexivity|].
      vm_compute. by eexists.
    + eexists. split; [reflexivity|]. by left.
Defined.

(** C6 as stated fails: with a fallback rule and, after it, a rule whose
    pattern is malformed, the lookup returns no rule at all, although the
    fallback rule has no [path_regex]. *)
Lemma getApplicableCreationRules_filter_counterexample :
  let R := runtime_with_config (config_of [fallback_rule; broken_rule]) in
  config_loaded configured_world (config_of [fallback_rule; broken_rule])
  ∧ rule_pattern fallback_rule = None
  ∧ (getApplicableCreationRules (str "foo.yaml") configured_world).2 = Returned [].
Proof.
  split; [|split].
  - exists (str "/w/.sops.yaml"), (str "creation_rules: ...").
    repeat split; vm_compute; reflexivity.
  - reflexivity.
  - vm_compute. reflexivity.
Qed.

Lemma getApplicableCreationRules_invalid_regex_witness :
  (getApplicableCreationRules
     (R := runtime_with_config (config_of [fallback_rule; broken_rule]))
     (str "foo.yaml") configured_world).2 = Returned [].
Proof.
  apply (getApplicableCreationRules_invalid_regex
           (R := runtime_with_config (config_of [fallback_rule; broken_rule]))
           (fragment_runtime_ok _ _ _)
           configured_world (config_of [fallback_rule; broken_rule])
           [fallback_rule; broken_rule]).
  - exists (str "/w/.sops.yaml"), (str "creation_rules: ...").
    repeat split; vm_compute; reflexivity.
  - reflexivity.
  - apply Exists_cons_tl, Exists_cons_hd.
    eexists _, _. repeat split; vm_compute; reflexivity.
Defined.

(** ** The directive pattern *)

Section DirectiveMatch.
Variable total : nat.

Lemma m_lit l s caps k : m total (lit l) (l ++ s) caps k = k s caps.
Proof.
  induction l as [|c l IH]; simpl; [done|].
  rewrite Ascii.eqb_refl. apply IH.
Qed.

(** A star over a character set reads the whole run when the continuation
    accepts what follows the run. *)
Lemma repeat_greedy p ws s caps k fuel :
  Forall (λ c, p c = true) ws →
  (∀ c s', s = c :: s' → p c = false) →
  is_Some (k s caps) →
  length (ws ++ s) ≤ fuel →
  repeat (m total (Chars p)) k fuel (ws ++ s) caps = k s caps.
Proof.
  intros Hws Hs [x Hk]. revert fuel.
  induction Hws as [|c ws Hc _ IH]; intros fuel Hfuel.
  - simpl. destruct fuel as [|fuel]; [done|]. simpl.
    destruct s as [|c s']; [done|]. by rewrite (Hs c s' eq_refl).
  - destruct fuel as [|fuel]; [simpl in Hfuel; lia|].
    cbn [repeat app m]. rewrite Hc.
    rewrite (proj2 (Nat.ltb_lt _ _)) by (simpl; lia).
    rewrite IH by (simpl in Hfuel; lia). by rewrite Hk.
Qed.

Lemma m_star_greedy p ws s caps k :
  Forall (λ c, p c = true) ws →
  (∀ c s', s = c :: s' → p c = false) →
  is_Some (k s caps) →
  m total (Star (Chars p)) (ws ++ s) caps k = k s caps.
Proof. intros. simpl. by apply repeat_greedy. Qed.

Lemma m_Seq r1 r2 s caps k :
  m total (Seq r1 r2) s caps k = m total r1 s caps (λ s' caps', m total r2 s' caps' k).
Proof. done. Qed.

Lemma m_Chars_cons p c s caps k :
  m total (Chars p) (c :: s) caps k = if p c then k s caps else None.
Proof. done. Qed.

Lemma m_Group i r s caps k :
  m total (Group i r) s caps k
  = m total r s caps
      (λ s' caps', k s' (<[i := Some (take (length s - length s') s)]> caps')).
Proof. done. Qed.

Lemma directive_match_here ws1 ws2 v val post :
  Forall (λ c, is_space c = true) ws1 →
  Forall (λ c, is_space c = true) ws2 →
  is_space v = false →
  Forall (λ c, is_line_terminator c = false) (v :: val) →
  ends_line post →
  match_here total re_suffix_directive
    (directive_key ++ ws1 ++ str "=" ++ ws2 ++ (v :: val) ++ post)
  = Some [Some (directive_key ++ ws1 ++ str "=" ++ ws2 ++ (v :: val)); Some (v :: val)].
Proof.
  intros H1 H2 Hv Hval Hpost.
  apply Forall_cons in Hval as [Hv' Hval].
  unfold match_here.
  set (k0 := λ (s' : jstring) (caps : captures), Some (s', caps)).
  change (replicate _ None) with [@None jstring; None].
  set (caps0 := [@None jstring; None]).
  set (whole := directive_key ++ ws1 ++ str "=" ++ ws2 ++ (v :: val) ++ post).
  unfold re_suffix_directive. rewrite m_Seq. unfold whole at 1. rewrite m_lit.
  (* the value, then the white space before it, then the rest *)
  assert (Htake : take (length ((v :: val) ++ post) - length post) ((v :: val) ++ post)
                  = v :: val).
  { rewrite length_app.
    replace (length (v :: val) + length post - length post) with (length (v :: val)) by lia.
    by rewrite take_app_length. }
  assert (Hgroup : ∀ k,
    is_Some (k post (<[1 := Some (v :: val)]> caps0)) →
    m total (Group 1 (Plus (Chars cs_not_newline))) ((v :: val) ++ post) caps0 k
    = k post (<[1 := Some (v :: val)]> caps0)).
  { intros k Hk. unfold Plus. rewrite m_Group, m_Seq.
    change ((v :: val) ++ post) with (v :: val ++ post) at 1.
    rewrite m_Chars_cons. unfold cs_not_newline at 1.
    rewrite Hv'. cbn [negb].
    rewrite m_star_greedy.
    - by rewrite Htake.
    - eapply Forall_impl; [exact Hval|]. intros c Hc. unfold cs_not_newline. by rewrite Hc.
    - intros c s' ->. destruct Hpost as [? | (c' & ? & [= <- <-] & Hc)]; [done|].
      unfold cs_not_newline. by rewrite Hc.
    - by rewrite Htake. }
  assert (Heq : ∀ k,
    is_Some (k post (<[1 := Some (v :: val)]> caps0)) →
    m total (Seq (Chr "="%char)
               (Seq (Star (Chars cs_space)) (Group 1 (Plus (Chars cs_not_newline)))))
      (str "=" ++ ws2 ++ (v :: val) ++ post) caps0 k
    = k post (<[1 := Some (v :: val)]> caps0)).
  { intros k Hk. rewrite m_Seq.
    change (str "=" ++ ?s) with ("="%char :: s). unfold Chr. rewrite m_Chars_cons.
    rewrite Ascii.eqb_refl, m_Seq.
    rewrite m_star_greedy; [| done | by intros c s' [= <- <-] | ]; by rewrite Hgroup. }
  rewrite m_Seq.
  rewrite m_star_greedy; [| done | by intros c s' [= <- <-] | by rewrite Heq].
  rewrite Heq by done.
  unfold k0. f_equal. cbn [insert list_insert].
  f_equal. f_equal.
  assert (Hwhole : whole = (directive_key ++ ws1 ++ str "=" ++ ws2 ++ (v :: val)) ++ post).
  { unfold whole. by rewrite <- !app_assoc. }
  rewrite Hwhole, length_app.
  replace (length (directive_key ++ ws1 ++ str "=" ++ ws2 ++ v :: val) + length post
             - length post)
    with (length (directive_key ++ ws1 ++ str "=" ++ ws2 ++ v :: val)) by lia.
  by rewrite take_app_length.
Qed.

(** A star over a character set gives back what it has read, one
    character at a time, until the continuation accepts. *)
Lemma repeat_all_fail p ws caps k :
  (∀ a b, ws = a ++ b → a ≠ [] → k b caps = None) →
  ∀ fuel, repeat (m total (Chars p)) k fuel ws caps = k ws caps.
Proof.
  induction ws as [|c ws IH]; intros Hfail fuel.
  - by destruct fuel.
  - destruct fuel as [|fuel]; [done|]. cbn [repeat]. rewrite m_Chars_cons.
    destruct (p c); [|done].
    rewrite (proj2 (Nat.ltb_lt (length ws) _)) by (simpl; lia).
    rewrite IH.
    + by rewrite (Hfail [c] ws).
    + intros a b -> Hne. by apply (Hfail (c :: a) b).
Qed.

Lemma repeat_backtrack p ws1 ws2 caps k fuel :
  Forall (λ c, p c = true) ws1 →
  (∀ a b, ws2 = a ++ b → a ≠ [] → k b caps = None) →
  is_Some (k ws2 caps) →
  length (ws1 ++ ws2) ≤ fuel →
  repeat (m total (Chars p)) k fuel (ws1 ++ ws2) caps = k ws2 caps.
Proof.
  intros H1 Hfail [x Hk]. revert fuel.
  induction H1 as [|c ws1 Hc _ IH]; intros fuel Hfuel.
  - by apply repeat_all_fail.
  - destruct fuel as [|fuel]; [simpl in Hfuel; lia|].
    cbn [repeat app]. rewrite m_Chars_cons, Hc.
    rewrite (proj2 (Nat.ltb_lt _ _)) by (simpl; lia).
    rewrite IH by (simpl in Hfuel; lia). by rewrite Hk.
Qed.

Lemma directive_match_here_blank ws1 ws2 c ends :
  Forall (λ c, is_space c = true) ws1 →
  Forall (λ c, is_space c = true) ws2 →
  is_space c = true →
  is_line_terminator c = false →
  Forall (λ c, is_line_terminator c = true) ends →
  match_here total re_suffix_directive
    (directive_key ++ ws1 ++ str "=" ++ ws2 ++ c :: ends)
  = Some [Some (directive_key ++ ws1 ++ str "=" ++ ws2 ++ [c]); Some [c]].
Proof.
  intros H1 H2 Hc Hnl Hends.
  unfold match_here.
  set (k0 := λ (s' : jstring) (caps : captures), Some (s', caps)).
  change (replicate _ None) with [@None jstring; None].
  set (caps0 := [@None jstring; None]).
  set (whole := directive_key ++ ws1 ++ str "=" ++ ws2 ++ c :: ends).
  unfold re_suffix_directive. rewrite m_Seq. unfold whole at 1. rewrite m_lit.
  set (G := Group 1 (Plus (Chars cs_not_newline))).
  assert (Hstart : ∀ c' s', ends = c' :: s' → cs_not_newline c' = false).
  { intros c' s' ->. apply Forall_cons in Hends as [Hc' _].
    unfold cs_not_newline. by rewrite Hc'. }
  assert (Hgroup : m total G (c :: ends) caps0 k0
                   = Some (ends, <[1 := Some [c]]> caps0)).
  { unfold G, Plus. rewrite m_Group, m_Seq, m_Chars_cons.
    unfold cs_not_newline at 1. rewrite Hnl. cbn [negb].
    rewrite (m_star_greedy cs_not_newline [] ends); [| done | done | done].
    unfold k0. do 4 f_equal. cbn [length].
    replace (S (length ends) - length ends) with 1 by lia. done. }
  assert (Hfail : ∀ a b, c :: ends = a ++ b → a ≠ [] → m total G b caps0 k0 = None).
  { intros a b Hab Hne. destruct a as [|a0 a]; [done|]. injection Hab as _ ->.
    apply Forall_app in Hends as [_ Hb].
    unfold G, Plus. rewrite m_Group, m_Seq. destruct b as [|b0 b]; [done|].
    rewrite m_Chars_cons. apply Forall_cons in Hb as [Hb0 _].
    unfold cs_not_newline. by rewrite Hb0. }
  assert (Hws2 : m total (Seq (Star (Chars cs_space)) G) (ws2 ++ c :: ends) caps0 k0
                 = Some (ends, <[1 := Some [c]]> caps0)).
  { rewrite m_Seq. cbn [m]. fold G.
    rewrite (repeat_backtrack cs_space ws2 (c :: ends)); [done | done | | by rewrite Hgroup | done].
    intros a b Hab Hne. by apply (Hfail a b). }
  rewrite m_Seq.
  rewrite m_star_greedy; [| done | by intros c' s' [= <- <-] | ].
  - change (str "=" ++ ?s) with ("="%char :: s). rewrite m_Seq. unfold Chr at 1.
    rewrite m_Chars_cons, Ascii.eqb_refl. fold G. rewrite Hws2.
    cbn [insert list_insert]. do 3 f_equal.
    assert (Hwhole : whole = (directive_key ++ ws1 ++ str "=" ++ ws2 ++ [c]) ++ ends).
    { unfold whole. rewrite <- !app_assoc. done. }
    rewrite Hwhole, length_app.
    replace (length (directive_key ++ ws1 ++ str "=" ++ ws2 ++ [c]) + length ends
               - length ends)
      with (length (directive_key ++ ws1 ++ str "=" ++ ws2 ++ [c])) by lia.
    by rewrite take_app_length.
  - change (str "=" ++ ?s) with ("="%char :: s). rewrite m_Seq. unfold Chr at 1.
    rewrite m_Chars_cons, Ascii.eqb_refl. fold G. by rewrite Hws2.
Qed.

Lemma match_here_None r s :
  anchor_free r = true → ¬ matches_at r s → match_here total r s = None.
Proof.
  intros Haf Hno. unfold match_here.
  destruct (m total r s _ _) as [[s' caps]|] eqn:E; [|done].
  exfalso. apply Hno.
  assert (H : is_Some (m total r s (replicate (S (ngroups r)) None)
                         (λ s' caps, Some (s', caps)))) by by rewrite E.
  apply (m_decides total r Haf s _ _ (λ _, True)) in H; [|done].
  destruct H as (a & b & ? & ? & _). by exists a, b.
Qed.

Lemma search_skip r pre rest :
  anchor_free r = true →
  no_match_inside r pre rest →
  search total r (pre ++ rest) = search total r rest.
Proof.
  intros Haf. induction pre as [|c pre IH]; intros Hno; [done|].
  cbn [search app].
  rewrite (match_here_None r (c :: pre ++ rest) Haf).
  - apply IH. intros p1 p2 -> Hne. by apply (Hno (c :: p1) p2).
  - by apply (Hno [] (c :: pre)).
Qed.

Lemma search_None r s :
  anchor_free r = true →
  (∀ pre rest, s = pre ++ rest → ¬ matches_at r rest) →
  search total r s = None.
Proof.
  intros Haf Hno. destruct (search total r s) eqn:E; [|done]. exfalso.
  assert (H : is_Some (search total r s)) by by rewrite E.
  apply search_spec in H as (pre & mid & post & -> & Hl); [|done].
  apply (Hno pre (mid ++ post) eq_refl). by exists mid, post.
Qed.

Lemma search_here r s caps :
  match_here total r s = Some caps → search total r s = Some caps.
Proof. intros H. destruct s; cbn [search]; by rewrite H. Qed.

End DirectiveMatch.

Lemma take_drop_while (p : ascii → bool) l :
  Path.take_while p l ++ Path.drop_while p l = l
  ∧ Forall (λ c, p c = true) (Path.take_while p l)
  ∧ (∀ c l', Path.drop_while p l = c :: l' → p c = false).
Proof.
  induction l as [|c l (IH1 & IH2 & IH3)]; [done|].
  simpl. destruct (p c) eqn:Hc.
  - split; [simpl; by rewrite IH1|]. split; [by constructor | done].
  - split; [done|]. split; [constructor|]. by intros c' l' [= <- _].
Qed.

Lemma lang_Plus_Chars p s :
  lang (Plus (Chars p)) s → ∃ c s', s = c :: s' ∧ Forall (λ c, p c = true) (c :: s').
Proof.
  unfold Plus. inversion 1 as [| |? ? s1 s2 H1 H2| | | | |]; subst.
  inversion H1; subst. apply lang_Star_Chars in H2.
  eexists _, _. split; [done|]. by constructor.
Qed.

Lemma lang_re_suffix_directive mid :
  lang re_suffix_directive mid →
  ∃ ws1 ws2 c cap,
    mid = directive_key ++ ws1 ++ str "=" ++ ws2 ++ c :: cap
    ∧ Forall (λ c, is_space c = true) ws1
    ∧ Forall (λ c, is_space c = true) ws2
    ∧ Forall (λ c, is_line_terminator c = false) (c :: cap).
Proof.
  unfold re_suffix_directive.
  inversion 1 as [| |? ? s1 r1 H1 R1| | | | |]; subst.
  apply (proj1 (lang_lit directive_key _)) in H1 as ->.
  inversion R1 as [| |? ? s2 r2 H2 R2| | | | |]; subst.
  apply lang_Star_Chars in H2.
  inversion R2 as [| |? ? s3 r3 H3 R3| | | | |]; subst.
  inversion H3 as [|? c3 Hc3| | | | | |]; subst. apply Ascii.eqb_eq in Hc3 as <-.
  inversion R3 as [| |? ? s4 r4 H4 R4| | | | |]; subst.
  apply lang_Star_Chars in H4.
  inversion R4 as [| | | | | | |? ? ? H5]; subst.
  apply lang_Plus_Chars in H5 as (c & cap & -> & Hcap).
  exists s2, s4, c, cap. repeat split; try done.
  eapply Forall_impl; [exact Hcap|]. intros x Hx. unfold cs_not_newline in Hx.
  by apply negb_true_iff in Hx.
Qed.

Lemma line_terminator_is_space c : is_line_terminator c = true → is_space c = true.
Proof.
  unfold is_line_terminator, is_space. cbv zeta. intros H.
  apply orb_true_iff in H as [H | H]; apply N.eqb_eq in H; by rewrite H.
Qed.

(** The suffix computed by [decryptToTempFile] is the one the
    specification asks for. *)
Lemma directive_suffix_computed plaintext suffix :
  directive_suffix plaintext suffix →
  match exec re_suffix_directive plaintext with
  | Some match_ => trim (default [] (group match_ 1))
  | None => str "_decrypted"
  end = suffix.
Proof.
  intros [pre ws1 ws2 v val post -> Hno H1 H2 Hv Hval Hpost
         | pre ws1 ws2 c ends -> Hno H1 H2 Hc Hnl Hends | Hno]; unfold exec.
  - rewrite search_skip by done.
    by rewrite (search_here _ _ _ _ (directive_match_here _ ws1 ws2 v val post H1 H2 Hv Hval Hpost)).
  - rewrite search_skip by done.
    by rewrite (search_here _ _ _ _ (directive_match_here_blank _ ws1 ws2 c ends H1 H2 Hc Hnl Hends)).
  - by rewrite search_None.
Qed.

(** ** Paths *)

Section PathFacts.
Import Path.

Lemma is_sep_false c : c ≠ SLASH → is_sep c = false.
Proof. intros H. unfold is_sep. by apply Ascii.eqb_neq. Qed.

Lemma not_elem_Forall (x : ascii) (s : jstring) :
  x ∉ s → Forall (λ c, Ascii.eqb c x = false) s.
Proof.
  intros H. apply Forall_forall. intros c Hc. apply Ascii.eqb_neq.
  intros ->. by apply H.
Qed.

Lemma take_while_app (p : ascii → bool) a b :
  Forall (λ c, p c = true) a →
  (∀ c b', b = c :: b' → p c = false) →
  take_while p (a ++ b) = a.
Proof.
  intros Ha Hb. induction Ha as [|c a Hc _ IH]; simpl.
  - destruct b as [|c b']; [done|]. simpl. by rewrite (Hb c b' eq_refl).
  - by rewrite Hc, IH.
Qed.

Lemma take_while_all (p : ascii → bool) a :
  Forall (λ c, p c = true) a → take_while p a = a.
Proof.
  intros Ha. rewrite <- (app_nil_r a) at 1. by apply take_while_app.
Qed.

(** A directory part is empty or ends with a separator. *)
Lemma directory_end absolute segs :
  directory absolute segs = [] ∨ ∃ d, directory absolute segs = d ++ [SLASH].
Proof.
  unfold directory. induction segs as [|seg segs IH] using rev_ind.
  - destruct absolute; [right; by exists [] | by left].
  - right. rewrite map_app, concat_app. simpl. rewrite app_nil_r.
    exists ((if absolute then [SLASH] else []) ++ concat (map (λ seg, seg ++ [SLASH]) segs) ++ seg).
    by rewrite <- !app_assoc.
Qed.

Lemma rev_name_head name :
  name ≠ [] → SLASH ∉ name → ∃ c r, rev name = c :: r ∧ is_sep c = false.
Proof.
  intros Hname Hslash. destruct (rev name) as [|c r] eqn:E.
  - apply (f_equal (@rev ascii)) in E. rewrite rev_involutive in E. done.
  - exists c, r. split; [done|]. apply is_sep_false. intros ->.
    apply Hslash. apply list_elem_of_In, in_rev. rewrite E. by left.
Qed.

Lemma last_component_name dir name :
  dir_and_name dir name → last_component (dir ++ name) = name.
Proof.
  intros (Hdir & Hname & Hslash).
  unfold last_component. rewrite rev_app_distr.
  destruct (rev_name_head name Hname Hslash) as (c & r & Hc & Hsep).
  assert (Hd : drop_while is_sep (rev name ++ rev dir) = rev name ++ rev dir).
  { rewrite Hc. simpl. by rewrite Hsep. }
  rewrite Hd, take_while_app.
  - apply rev_involutive.
  - apply Forall_forall. intros x Hx. apply negb_true_iff, is_sep_false.
    intros ->. apply Hslash. by apply list_elem_of_In, in_rev, list_elem_of_In.
  - intros x b' Hb. destruct Hdir as [-> | [d ->]]; [done|].
    rewrite rev_app_distr in Hb. by injection Hb as <- _.
Qed.

Lemma substring0_dir dir name :
  dir_and_name dir name →
  substring0 (length (dir ++ name) - length (basename (dir ++ name))) (dir ++ name) = dir.
Proof.
  intros H. unfold basename. rewrite (last_component_name dir name H), length_app.
  unfold substring0.
  replace (length dir + length name - length name) with (length dir) by lia.
  apply take_app_length.
Qed.

Lemma extname_name dir name stem ext :
  dir_and_name dir name →
  name_parts name stem ext → extname (dir ++ name) = ext.
Proof.
  intros H Hparts. unfold extname. rewrite (last_component_name dir name H).
  clear H. destruct Hparts as [stem e Hstem _ _ Hdot Hdd | c rest _ _ Hdot].
  - rewrite rev_app_distr. cbn [rev]. rewrite <- app_assoc. cbn [app].
    rewrite take_while_app.
    + rewrite length_rev, length_app. cbn [length].
      rewrite (proj2 (Nat.eqb_neq _ _)) by lia.
      replace (length stem + S (length e) - length e - 1) with (length stem) by lia.
      rewrite (proj2 (Nat.eqb_neq _ _)) by (destruct stem; [done | simpl; lia]).
      rewrite bool_decide_eq_false_2.
      * by rewrite drop_app_length.
      * intros H. apply Hdd. destruct stem as [|a [|b stem]]; [done| |].
        -- by injection H as -> <-.
        -- apply (f_equal length) in H. rewrite length_app in H. simpl in H. lia.
    + apply Forall_forall. intros x Hx. apply negb_true_iff, Ascii.eqb_neq.
      intros ->. apply Hdot. by apply list_elem_of_In, in_rev, list_elem_of_In.
    + intros x b' [= <- _]. done.
  - cbn [rev].
    assert (Hrest : Forall (λ c, negb (is_dot c) = true) (rev rest)).
    { apply Forall_forall. intros x Hx. apply negb_true_iff, Ascii.eqb_neq.
      intros ->. apply Hdot. by apply list_elem_of_In, in_rev, list_elem_of_In. }
    destruct (is_dot c) eqn:Hc.
    + rewrite take_while_app; [| done | by intros x b' [= <- _]; rewrite Hc].
      rewrite length_rev. cbn [length].
      rewrite (proj2 (Nat.eqb_neq _ _)) by lia.
      replace (S (length rest) - length rest - 1) with 0 by lia. done.
    + rewrite take_while_all.
      * rewrite length_app, length_rev. cbn [length].
        by rewrite (proj2 (Nat.eqb_eq _ _)) by lia.
      * apply Forall_app. split; [done|]. constructor; [by rewrite Hc | done].
Qed.

Lemma startsWith_app a b : startsWith (a ++ b) a = true.
Proof. apply startsWith_spec. by exists b. Qed.

Lemma basename_ext_name dir name stem ext :
  dir_and_name dir name →
  name_parts name stem ext → basename_ext (dir ++ name) ext = stem.
Proof.
  intros H Hparts. unfold basename_ext.
  rewrite (last_component_name dir name H). clear H.
  destruct Hparts as [stem e Hstem _ _ Hdot Hdd | c rest _ _ Hdot].
  - assert (Hlen : length (DOT :: e) ≤ length (dir ++ stem ++ DOT :: e)).
    { rewrite !length_app. lia. }
    rewrite (proj2 (Nat.ltb_lt 0 _)) by (simpl; lia).
    rewrite (proj2 (Nat.leb_le _ _)) by done. cbn [andb].
    rewrite bool_decide_eq_false_2.
    2:{ intros H. apply (f_equal length) in H. rewrite !length_app in H.
        destruct stem; [done | simpl in H; lia]. }
    unfold endsWith.
    rewrite rev_app_distr, startsWith_app, length_app.
    rewrite (proj2 (Nat.eqb_neq _ _)) by (destruct stem; [done | simpl; lia]).
    replace (length stem + length (DOT :: e) - length (DOT :: e)) with (length stem) by lia.
    apply take_app_length.
  - cbn [length]. by rewrite Nat.ltb_irrefl.
Qed.


(** Splitting and joining segments. *)

Lemma split_no_sep s : SLASH ∉ s → split s = [s].
Proof.
  induction s as [|c s IH]; intros H; [done|].
  simpl. rewrite is_sep_false by (intros ->; apply H; left).
  rewrite IH; [done|]. intros Hin. apply H. by right.
Qed.

Lemma split_app_sep a b : SLASH ∉ a → split (a ++ SLASH :: b) = a :: split b.
Proof.
  induction a as [|c a IH]; intros H; [done|].
  simpl. rewrite is_sep_false by (intros ->; apply H; left).
  rewrite IH; [done|]. intros Hin. apply H. by right.
Qed.

Lemma split_root s : split (SLASH :: s) = [] :: split s.
Proof. done. Qed.

Lemma normalize_step_empty allowAboveRoot res :
  normalize_step allowAboveRoot res [] = res.
Proof. done. Qed.

Lemma split_segments segs rest :
  Forall segment_ok segs →
  split (concat (map (λ seg, seg ++ [SLASH]) segs) ++ rest) = segs ++ split rest.
Proof.
  induction 1 as [|seg segs (_ & Hs & _) _ IH]; [done|].
  simpl. rewrite <- !app_assoc. cbn [app]. rewrite split_app_sep by done.
  by rewrite IH.
Qed.

Lemma normalize_step_ok allowAboveRoot res seg :
  segment_ok seg → normalize_step allowAboveRoot res seg = seg :: res.
Proof.
  intros (H1 & _ & H2 & H3). unfold normalize_step.
  by rewrite !bool_decide_eq_false_2.
Qed.

Lemma normalize_steps_ok allowAboveRoot res segs :
  Forall segment_ok segs →
  foldl (normalize_step allowAboveRoot) res segs = rev segs ++ res.
Proof.
  intros H. revert res. induction H as [|seg segs Hseg _ IH]; intros res; [done|].
  simpl. rewrite normalize_step_ok by done. rewrite IH.
  by rewrite <- app_assoc.
Qed.

Lemma unsplit_segments segs name :
  unsplit (segs ++ [name]) = concat (map (λ seg, seg ++ [SLASH]) segs) ++ name.
Proof.
  induction segs as [|seg segs IH]; [done|].
  cbn [app map concat]. rewrite <- app_assoc. cbn [app]. rewrite <- IH.
  simpl. destruct (segs ++ [name]) eqn:E; [destruct segs; discriminate|].
  by rewrite <- app_assoc.
Qed.

(** Normalising a path made of a directory part and a plain name gives it
    back; a doubled separator between the two is dropped. *)
Lemma normalize_directory absolute segs (doubled : bool) name :
  Forall segment_ok segs → segment_ok name →
  (doubled = true → directory absolute segs ≠ []) →
  normalize (directory absolute segs ++ (if doubled then [SLASH] else []) ++ name)
  = directory absolute segs ++ name.
Proof.
  intros Hsegs Hname Hdoubled.
  assert (Hn := Hname). destruct Hn as (Hne & Hslash & _ & _).
  set (path := directory absolute segs ++ (if doubled then [SLASH] else []) ++ name).
  assert (Hsplit : ∀ allow,
    normalizeString path allow = concat (map (λ seg, seg ++ [SLASH]) segs) ++ name).
  { intros allow. unfold normalizeString, path, directory.
    rewrite <- app_assoc.
    assert (Hs : split (concat (map (λ seg, seg ++ [SLASH]) segs)
                          ++ (if doubled then [SLASH] else []) ++ name)
                 = segs ++ (if doubled then [[]] else []) ++ [name]).
    { rewrite split_segments by done. f_equal.
      destruct doubled; simpl; by rewrite split_no_sep. }
    assert (Hfold : ∀ res,
      foldl (normalize_step allow) res (segs ++ (if doubled then [[]] else []) ++ [name])
      = name :: rev segs ++ res).
    { intros res. rewrite foldl_app, (normalize_steps_ok allow res segs) by done.
      destruct doubled; simpl; by rewrite normalize_step_ok. }
    destruct absolute; cbn [app]; [rewrite split_root|]; rewrite Hs.
    - cbn [foldl]. rewrite normalize_step_empty.
      rewrite Hfold. cbn [rev]. rewrite app_nil_r, rev_involutive.
      apply unsplit_segments.
    - rewrite Hfold. cbn [rev]. rewrite app_nil_r, rev_involutive.
      apply unsplit_segments. }
  assert (Hlast : ∃ c r, rev path = c :: r ∧ is_sep c = false).
  { unfold path. rewrite !rev_app_distr.
    destruct (rev_name_head name Hne Hslash) as (c & r & -> & Hc). by eexists _, _. }
  destruct Hlast as (cl & rl & Hrev & Hcl).
  unfold normalize. destruct path as [|c0 path'] eqn:Hpath.
  { apply (f_equal length) in Hpath. unfold path in Hpath.
    rewrite !length_app in Hpath. destruct name; [done | simpl in Hpath; lia]. }
  rewrite Hsplit, Hrev, Hcl.
  assert (Habs : is_sep c0 = absolute).
  { unfold path, directory in Hpath. destruct absolute.
    - injection Hpath as <- _. apply Ascii.eqb_refl.
    - cbn [app] in Hpath. destruct segs as [|seg segs'].
      + destruct doubled; [by specialize (Hdoubled eq_refl)|].
        cbn in Hpath. destruct name as [|n0 name']; [done|].
        injection Hpath as <- _. apply is_sep_false. intros ->. apply Hslash. left.
      + apply Forall_cons in Hsegs as [(Hsne & Hss & _) _].
        destruct seg as [|s0 seg']; [done|]. cbn in Hpath.
        injection Hpath as <- _. apply is_sep_false. intros ->. apply Hss. left. }
  rewrite Habs.
  destruct (concat (map (λ seg, seg ++ [SLASH]) segs) ++ name) as [|p0 p'] eqn:Hp.
  { apply (f_equal length) in Hp. rewrite length_app in Hp.
    destruct name; [done | simpl in Hp; lia]. }
  rewrite app_nil_r. unfold directory. rewrite <- Hp. by rewrite <- app_assoc.
Qed.

Lemma join_directory absolute segs name :
  Forall segment_ok segs → segment_ok name →
  join (directory absolute segs) name = directory absolute segs ++ name.
Proof.
  intros Hsegs Hname. unfold join.
  assert (Hne : name ≠ []) by apply Hname.
  pose proof (normalize_directory absolute segs false name Hsegs Hname) as Hplain.
  pose proof (normalize_directory absolute segs true name Hsegs Hname) as Hdoubled.
  destruct (directory absolute segs) as [|d0 d'] eqn:Hd.
  - rewrite filter_cons_False by (intros H; by apply H).
    rewrite filter_cons_True by done. rewrite filter_nil. cbn [unsplit].
    by apply Hplain.
  - rewrite filter_cons_True by done. rewrite filter_cons_True by done.
    rewrite filter_nil. cbn [unsplit]. by apply Hdoubled.
Qed.

End PathFacts.

(** ** Decrypt-to-temp *)

Lemma match_here_Some_inv total r s caps :
  anchor_free r = true → match_here total r s = Some caps → matches_at r s.
Proof.
  intros Haf H. unfold match_here in H.
  destruct (m total r s _ _) as [[s' c]|] eqn:E; [|done].
  assert (Hs : is_Some (m total r s (replicate (S (ngroups r)) None)
                          (λ s' caps, Some (s', caps)))) by by rewrite E.
  apply (m_decides total r Haf s _ _ (λ _, True)) in Hs; [|done].
  destruct Hs as (a & b & ? & ? & _). by exists a, b.
Qed.

Lemma match_here_complete total r s :
  anchor_free r = true → matches_at r s → is_Some (match_here total r s).
Proof.
  intros Haf (a & b & Hs & Hl). unfold match_here.
  assert (H : is_Some (m total r s (replicate (S (ngroups r)) None)
                         (λ s' caps, Some (s', caps)))).
  { apply (m_decides total r Haf s _ _ (λ _, True)); [done|]. by exists a, b. }
  destruct H as [[s' caps] ->]. done.
Qed.

(** The first match found by the search, and where it starts. *)
Lemma search_first total r s caps :
  anchor_free r = true →
  search total r s = Some caps →
  ∃ pre rest, s = pre ++ rest ∧ no_match_inside r pre rest ∧ matches_at r rest.
Proof.
  intros Haf. induction s as [|c s IH]; cbn [search]; intros Hs.
  - destruct (match_here total r []) as [caps'|] eqn:E; [|done].
    exists [], []. split; [done|]. split.
    + intros p1 p2 Hp. by destruct p1, p2.
    + by apply (match_here_Some_inv total r [] caps').
  - destruct (match_here total r (c :: s)) as [caps'|] eqn:E.
    + exists [], (c :: s). split; [done|]. split.
      * intros p1 p2 Hp. by destruct p1, p2.
      * by apply (match_here_Some_inv total r _ caps').
    + destruct (IH Hs) as (pre & rest & -> & Hno & Hm).
      exists (c :: pre), rest. split; [done|]. split; [|done].
      intros p1 p2 Hp Hne. destruct p1 as [|c1 p1].
      * simpl in Hp. subst p2. intros Hmatch.
        apply (match_here_complete total r _ Haf) in Hmatch as [? Hmatch].
        simpl in Hmatch. congruence.
      * injection Hp as -> ->. by apply (Hno p1 p2).
Qed.

(** Every plaintext has a suffix in the sense of the specification. *)
Lemma directive_suffix_total plaintext : ∃ suffix, directive_suffix plaintext suffix.
Proof.
  destruct (search (length plaintext) re_suffix_directive plaintext) as [caps|] eqn:E.
  2:{ exists (str "_decrypted"). apply suffix_default. intros pre rest -> Hm.
      assert (Hs : is_Some (search (length (pre ++ rest)) re_suffix_directive (pre ++ rest))).
      { apply search_spec; [done|]. destruct Hm as (mid & post & -> & Hl).
        by exists pre, mid, post. }
      rewrite E in Hs. by destruct Hs. }
  apply search_first in E as (pre & rest & -> & Hno & (mid & post & -> & Hl)); [|done].
  apply lang_re_suffix_directive in Hl as (ws1 & w2 & c0 & cap & -> & H1 & H2 & Hcap).
  (* all that follows the assignment operator, read again: white space,
     then what is left *)
  set (after := w2 ++ (c0 :: cap) ++ post).
  destruct (take_drop_while is_space after) as (Hsplit & Hws & Hstop).
  set (ws := Path.take_while is_space after) in *.
  assert (Hrest : (directive_key ++ ws1 ++ str "=" ++ w2 ++ c0 :: cap) ++ post
                  = directive_key ++ ws1 ++ str "=" ++ ws ++ Path.drop_while is_space after).
  { rewrite Hsplit. unfold after. by rewrite <- !app_assoc. }
  rewrite Hrest in *.
  destruct (Path.drop_while is_space after) as [|v left] eqn:Hleft.
  - (* white space up to the end of the text *)
    rewrite app_nil_r in Hsplit.
    destruct (take_drop_while is_line_terminator (rev ws)) as (Hsplit' & Hnl & Hstop').
    destruct (Path.drop_while is_line_terminator (rev ws)) as [|c before] eqn:Hdrop.
    + exfalso. rewrite app_nil_r in Hsplit'.
      assert (Hc0 : c0 ∈ rev ws).
      { apply list_elem_of_In. apply (proj1 (in_rev ws c0)). apply list_elem_of_In.
        rewrite Hsplit. unfold after. rewrite !elem_of_app. right. left. left. }
      rewrite <- Hsplit' in Hc0.
      apply Forall_cons in Hcap as [Hc0nl _].
      rewrite Forall_forall in Hnl. specialize (Hnl c0 Hc0). congruence.
    + assert (Hends : Forall (λ c, is_line_terminator c = true)
                        (rev (Path.take_while is_line_terminator (rev ws)))).
      { apply Forall_forall. intros x Hx.
        apply list_elem_of_In in Hx. apply (proj2 (in_rev _ x)) in Hx.
        apply list_elem_of_In in Hx. rewrite Forall_forall in Hnl. by apply Hnl. }
      assert (Hws' : ws = rev before ++ c :: rev (Path.take_while is_line_terminator (rev ws))).
      { rewrite <- (rev_involutive ws), <- Hsplit' at 1.
        rewrite rev_app_distr. cbn [rev]. by rewrite <- app_assoc. }
      pose proof (Hstop' c before eq_refl) as Hc.
      remember (rev (Path.take_while is_line_terminator (rev ws))) as ends eqn:Hends_eq.
      clear Hends_eq Hsplit' Hnl Hstop' Hdrop Hrest.
      rewrite app_nil_r in Hno |- *. rewrite Hws' in Hno, Hws |- *.
      apply Forall_app in Hws as [Hb Hws]. apply Forall_cons in Hws as [Hcs _].
      exists (trim [c]).
      by eapply (suffix_of_blank_directive _ pre ws1 (rev before) c ends).
  - (* a value that starts with a character that is not white space *)
    pose proof (Hstop v left eq_refl) as Hv.
    destruct (take_drop_while (λ c, negb (is_line_terminator c)) left)
      as (Hsplit' & Hval & Hstop').
    exists (trim (v :: Path.take_while (λ c, negb (is_line_terminator c)) left)).
    eapply (suffix_of_directive _ pre ws1 ws v _
              (Path.drop_while (λ c, negb (is_line_terminator c)) left)); try done.
    + by rewrite <- app_comm_cons, Hsplit'.
    + by rewrite <- app_comm_cons, Hsplit'.
    + constructor.
      * destruct (is_line_terminator v) eqn:Hnl; [|done].
        apply line_terminator_is_space in Hnl. congruence.
      * eapply Forall_impl; [exact Hval|]. intros x Hx. by apply negb_true_iff in Hx.
    + destruct (Path.drop_while _ left) as [|x l'] eqn:Hd; [by left|].
      right. exists x, l'. split; [done|].
      specialize (Hstop' x l' eq_refl). by apply negb_false_iff in Hstop'.
Qed.

Lemma no_match_before_sound total r pre rest :
  anchor_free r = true →
  no_match_before total r pre rest = true → no_match_inside r pre rest.
Proof.
  intros Haf. induction pre as [|c pre IH]; intros Hcheck p1 p2 Hsplit Hne.
  - destruct p1, p2; done.
  - cbn [no_match_before] in Hcheck.
    destruct (match_here total r ((c :: pre) ++ rest)) as [caps|] eqn:E; [done|].
    destruct p1 as [|c1 p1].
    + simpl in Hsplit. subst p2. intros Hm.
      apply (match_here_complete total r _ Haf) in Hm as [caps Hm]. congruence.
    + injection Hsplit as -> ->. by apply (IH Hcheck p1 p2).
Qed.

Lemma name_parts_plain name stem ext :
  name_parts name stem ext →
  name = stem ++ ext ∧ name ≠ [] ∧ Path.SLASH ∉ name.
Proof.
  intros [stem' e Hne Hs He _ _ | c rest Hc Hr _].
  - repeat split; [by destruct stem'|].
    rewrite elem_of_app, elem_of_cons. intros [? | [? | ?]]; done.
  - rewrite app_nil_r. repeat split; [done|].
    rewrite elem_of_cons. intros [? | ?]; done.
Qed.

Section DecryptToTemp.
Context {R : Runtime}.

(** The working path and the world after a decryption that prints
    [plaintext]. *)
Lemma decryptToTempFile_returns w originalPath plaintext fs'
    absolute segs name stem ext suffix :
  shell (decrypt_command originalPath) (Path.dirname originalPath) (files w)
    = (fs', ExecOk plaintext) →
  directive_suffix plaintext suffix →
  originalPath = directory absolute segs ++ name →
  Forall segment_ok segs →
  name_parts name stem ext →
  segment_ok (stem ++ suffix ++ ext) →
  decryptToTempFile originalPath w
  = (add_log (Exec (decrypt_command originalPath) (Path.dirname originalPath))
       (set_files (λ _, <[directory absolute segs ++ stem ++ suffix ++ ext := plaintext]> fs') w),
     Returned (directory absolute segs ++ stem ++ suffix ++ ext)).
Proof.
  intros Hshell Hsuffix -> Hsegs Hparts Hnew.
  destruct (name_parts_plain name stem ext Hparts) as (_ & Hne & Hslash).
  assert (Hdn : dir_and_name (directory absolute segs) name).
  { split; [apply directory_end | done]. }
  unfold decryptToTempFile, child_process_exec. run_monad.
  rewrite Hshell. simpl.
  rewrite (directive_suffix_computed plaintext suffix Hsuffix).
  rewrite (extname_name _ _ stem ext Hdn Hparts).
  rewrite (basename_ext_name _ _ stem ext Hdn Hparts).
  rewrite (substring0_dir _ _ Hdn).
  rewrite join_directory by done. done.
Qed.

(** Where the working copy is in the directory of the original.  After a
    decryption that prints [plaintext], with the suffix taken from the
    first directive of the plaintext (its value trimmed) or the default
    "_decrypted" without one: for an original path made of plain segments
    and a new file name that is a plain segment (so the suffix has no path
    separator), the plaintext is written to, and the path returned is, the
    directory of the original followed by its base name, the suffix and
    its extension.  In particular, when the first directive is
    sops_unencrypted_suffix = _clear and the line ends after it, the
    working path of a/b/secret.yaml is a/b/secret_clear.yaml. *)
Theorem decryptToTempFile_working_path :
  (∀ (w : World) (originalPath plaintext : jstring) (fs' : gmap jstring jstring)
     (absolute : bool) (segs : list jstring) (name stem ext suffix : jstring),
     shell (decrypt_command originalPath) (Path.dirname originalPath) (files w)
       = (fs', ExecOk plaintext) →
     directive_suffix plaintext suffix →
     originalPath = directory absolute segs ++ name →
     Forall segment_ok segs →
     name_parts name stem ext →
     segment_ok (stem ++ suffix ++ ext) →
     let tempPath := directory absolute segs ++ stem ++ suffix ++ ext in
     ∃ w', decryptToTempFile originalPath w = (w', Returned tempPath)
           ∧ files w' = <[tempPath := plaintext]> fs')
  ∧ (∀ (w : World) (pre post : jstring) (fs' : gmap jstring jstring),
       let originalPath := str "a/b/secret.yaml" in
       let directive := str "sops_unencrypted_suffix = _clear" in
       shell (decrypt_command originalPath) (Path.dirname originalPath) (files w)
         = (fs', ExecOk (pre ++ directive ++ post)) →
       no_match_inside re_suffix_directive pre (directive ++ post) →
       ends_line post →
       (decryptToTempFile originalPath w).2 = Returned (str "a/b/secret_clear.yaml")).
Proof.
  split.
  - intros w originalPath plaintext fs' absolute segs name stem ext suffix
      Hshell Hsuffix Hpath Hsegs Hparts Hnew tempPath.
    eexists. split.
    + by apply (decryptToTempFile_returns w originalPath plaintext fs'
                  absolute segs name stem ext suffix).
    + done.
  - intros w pre post fs' originalPath directive Hshell Hno Hpost.
    rewrite (decryptToTempFile_returns w originalPath (pre ++ directive ++ post) fs'
               false [str "a"; str "b"] (str "secret.yaml") (str "secret") (str ".yaml")
               (str "_clear")); [done | done | | done | | | ].
    + change (str "_clear") with (trim (str "_clear")).
      apply (suffix_of_directive _ pre (str " ") (str " ") "_"%char (str "clear") post).
      * done.
      * done.
      * by repeat constructor.
      * by repeat constructor.
      * done.
      * by repeat constructor.
      * done.
    + by_computation.
    + apply (name_with_ext (str "secret") (str "yaml")); by_computation.
    + by_computation.
Qed.

End DecryptToTemp.

Lemma decryptToTempFile_working_path_witness :
  (∃ w', decryptToTempFile (R := runtime_decrypting_to plaintext_with_directive)
           secret_yaml one_secret
         = (w', Returned (str "/w/secret_clear.yaml"))
         ∧ files w' = <[str "/w/secret_clear.yaml" := plaintext_with_directive]>
                        (files one_secret))
  ∧ (decryptToTempFile (R := runtime_decrypting_to plaintext_with_directive)
       (str "a/b/secret.yaml") one_secret).2
    = Returned (str "a/b/secret_clear.yaml").
Proof.
  split.
  - apply (proj1 (decryptToTempFile_working_path
                    (R := runtime_decrypting_to plaintext_with_directive))
             one_secret secret_yaml plaintext_with_directive (files one_secret)
             true [str "w"] (str "secret.yaml") (str "secret") (str ".yaml")
             (str "_clear")).
    + reflexivity.
    + change (str "_clear") with (trim (str "_clear")).
      apply (suffix_of_directive _ (str "a: 1" ++ [LF]) (str " ") (str " ")
               "_"%char (str "clear") (LF :: str "b: 2")).
      * reflexivity.
      * apply (no_match_before_sound 0); vm_compute; reflexivity.
      * repeat constructor.
      * repeat constructor.
      * reflexivity.
      * repeat constructor.
      * right. eexists _, _. split; reflexivity.
    + reflexivity.
    + by_computation.
    + apply (name_with_ext (str "secret") (str "yaml")); by_computation.
    + by_computation.
  - apply (proj2 (decryptToTempFile_working_path
                    (R := runtime_decrypting_to plaintext_with_directive))
             one_secret (str "a: 1" ++ [LF]) (LF :: str "b: 2") (files one_secret)).
    + reflexivity.
    + apply (no_match_before_sound 0); vm_compute; reflexivity.
    + right. eexists _, _. split; reflexivity.
Defined.

(** C5, where the code departs from it.  The function is documented to
    create the working copy in the directory of the original, and the
    suffix is never checked.  The decrypted text
    sops_unencrypted_suffix = /../../x holds a directive whose trimmed value
    is /../../x; for the original a/b/secret.yaml the plaintext is written
    to, and the path returned is, a/x.yaml.  This is not the directory of
    the original followed by the base name, the suffix and the extension,
    and it is not a file of the directory of the original. *)
Theorem decryptToTempFile_leaves_directory :
  let originalPath := str "a/b/secret.yaml" in
  let suffix := str "/../../x" in
  directive_suffix plaintext_climbing suffix
  ∧ (∃ w', decryptToTempFile (R := runtime_decrypting_to plaintext_climbing)
             originalPath empty_world
           = (w', Returned (str "a/x.yaml"))
           ∧ files w' !! str "a/x.yaml" = Some plaintext_climbing)
  ∧ str "a/x.yaml" ≠ str "a/b/" ++ str "secret" ++ suffix ++ str ".yaml"
  ∧ Path.dirname (str "a/x.yaml") ≠ Path.dirname originalPath.
Proof.
  intros originalPath suffix. split; [|split; [|split]].
  - change suffix with (trim (str "/../../x")).
    apply (suffix_of_directive _ [] (str " ") (str " ") "/"%char (str "../../x") []).
    + reflexivity.
    + apply (no_match_before_sound 0); vm_compute; reflexivity.
    + repeat constructor.
    + repeat constructor.
    + reflexivity.
    + repeat constructor.
    + by left.
  - eexists. split; [vm_compute; reflexivity|]. vm_compute. reflexivity.
  - discriminate.
  - vm_compute. discriminate.
Qed.

(** ** Reasoning about the handlers *)

Lemma bind_returned {A B} (c : M A) (f : A → M B) w a :
  (c w).2 = Returned a → (c ≫= f) w = f a (c w).1.
Proof.
  unfold mbind, M_bind, bind. destruct (c w) as [w' [a'|e]]; simpl; [|done].
  by intros [= ->].
Qed.

Lemma bind_thrown {A B} (c : M A) (f : A → M B) w e :
  (c w).2 = Thrown e → (c ≫= f) w = ((c w).1, Thrown e).
Proof.
  unfold mbind, M_bind, bind. destruct (c w) as [w' [a'|e']]; simpl; [done|].
  by intros [= ->].
Qed.

Lemma bind_cong_l {A B} (c c' : M A) (f : A → M B) w :
  c w = c' w → (c ≫= f) w = (c' ≫= f) w.
Proof. unfold mbind, M_bind, bind. by intros ->. Qed.

Lemma bind_cong_r {A B} (c : M A) (f g : A → M B) w :
  (∀ a w', c w = (w', Returned a) → f a w' = g a w') →
  (c ≫= f) w = (c ≫= g) w.
Proof.
  unfold mbind, M_bind, bind. intros H.
  destruct (c w) as [w' [a|e]]; [by apply H | done].
Qed.

Lemma try_catch_cong {A} (c c' : M A) h w :
  c w = c' w → try_catch c h w = try_catch c' h w.
Proof. unfold try_catch. by intros ->. Qed.

Section Keeps.
Context {B : Type} (proj : World → B).

Lemma keeps_ret {A} (a : A) : keeps proj (mret a).
Proof. by intros w. Qed.

Lemma keeps_throw {A} e : keeps proj (@throw A e).
Proof. by intros w. Qed.

Lemma keeps_get : keeps proj get.
Proof. by intros w. Qed.

Lemma keeps_lift {A} (o : outcome A) : keeps proj (lift o).
Proof. by intros w. Qed.

Lemma keeps_modify f : (∀ w, proj (f w) = proj w) → keeps proj (modify f).
Proof. intros H w. apply H. Qed.

Lemma keeps_bind {A C} (c : M A) (f : A → M C) :
  keeps proj c → (∀ a, keeps proj (f a)) → keeps proj (c ≫= f).
Proof.
  intros Hc Hf w. unfold mbind, M_bind, bind.
  specialize (Hc w). destruct (c w) as [w' [a|e]]; simpl in *; [|done].
  by rewrite Hf.
Qed.

Lemma keeps_try_catch {A} (c : M A) h :
  keeps proj c → (∀ e, keeps proj (h e)) → keeps proj (try_catch c h).
Proof.
  intros Hc Hh w. unfold try_catch.
  specialize (Hc w). destruct (c w) as [w' [a|e]]; simpl in *; [done|].
  by rewrite Hh.
Qed.

Lemma keeps_try_finally {A} (c : M A) f :
  keeps proj c → keeps proj f → keeps proj (try_finally c f).
Proof.
  intros Hc Hf w. unfold try_finally.
  specialize (Hc w). destruct (c w) as [w' r]; simpl in *.
  specialize (Hf w'). destruct (f w') as [w'' [[]|e]]; simpl in *; congruence.
Qed.

End Keeps.

Lemma returns_ret {A} (a : A) : returns (mret a).
Proof. intros w. by exists a. Qed.

Lemma returns_get : returns get.
Proof. intros w. by exists w. Qed.

Lemma returns_modify f : returns (modify f).
Proof. intros w. by exists tt. Qed.

Lemma returns_bind {A C} (c : M A) (f : A → M C) :
  returns c → (∀ a, returns (f a)) → returns (c ≫= f).
Proof.
  intros Hc Hf w. destruct (Hc w) as [a Ha].
  rewrite (bind_returned c f w a Ha). apply Hf.
Qed.

Lemma returns_try_catch {A} (c : M A) h :
  (∀ e, returns (h e)) → returns (try_catch c h).
Proof.
  intros Hh w. unfold try_catch. destruct (c w) as [w' [a|e]]; [by exists a|].
  apply Hh.
Qed.

(** Running the first step of a sequence. *)
Ltac bind_get :=
  rewrite (bind_returned get _ _ _ eq_refl); cbn beta;
  change ((get ?w).1) with w.

Ltac bind_modify :=
  rewrite (bind_returned (modify _) _ _ tt eq_refl); cbn beta;
  change ((modify ?f ?w).1) with (f w); cbn beta.

(** Steps of a proof that a computation keeps a part of the world. *)
Ltac keeps_step :=
  first
    [ apply keeps_ret | apply keeps_throw | apply keeps_get | apply keeps_lift
    | apply keeps_modify; intros ?; reflexivity
    | apply keeps_bind; [|intros ?]
    | apply keeps_try_catch; [|intros ?]
    | apply keeps_try_finally
    | match goal with
      | |- keeps _ (match ?x with _ => _ end) => destruct x
      | |- keeps _ (if ?x then _ else _) => destruct x
      end ].

Ltac returns_step :=
  first
    [ apply returns_ret | apply returns_get | apply returns_modify
    | apply returns_bind; [|intros ?]
    | apply returns_try_catch; intros ?
    | match goal with
      | |- returns (match ?x with _ => _ end) => destruct x
      | |- returns (if ?x then _ else _) => destruct x
      end ].

Section Frames.
Context {R : Runtime}.

(** The file transforms leave the session object alone. *)
Lemma keeps_this_copyFile src dst : keeps this (copyFile src dst).
Proof. intros w. unfold copyFile. by destruct (files w !! src). Qed.

Lemma keeps_this_rename src dst : keeps this (rename src dst).
Proof. intros w. unfold rename. by destruct (files w !! src). Qed.

Lemma keeps_this_unlink path : keeps this (unlink path).
Proof. intros w. unfold unlink. by destruct (files w !! path). Qed.

Lemma keeps_this_readFile path : keeps this (readFile path).
Proof. intros w. unfold readFile. by destruct (files w !! path). Qed.

Lemma keeps_this_exec cmd cwd : keeps this (child_process_exec cmd cwd).
Proof. intros w. unfold child_process_exec. by destruct (shell cmd cwd (files w)). Qed.

Lemma keeps_this_randomUUID : keeps this randomUUID.
Proof. by intros w. Qed.

Ltac keeps_this :=
  repeat first
    [ apply keeps_this_copyFile | apply keeps_this_rename | apply keeps_this_unlink
    | apply keeps_this_readFile | apply keeps_this_exec | apply keeps_this_randomUUID
    | keeps_step ].

Lemma keeps_this_decryptToTempFile originalPath :
  keeps this (decryptToTempFile originalPath).
Proof. unfold decryptToTempFile, writeFile. keeps_this. Qed.

Lemma keeps_this_encryptAndReplaceOriginal content originalPath :
  keeps this (encryptAndReplaceOriginal content originalPath).
Proof. unfold encryptAndReplaceOriginal, writeFile, console_error. keeps_this. Qed.

Lemma keeps_this_onDidSaveTextDocument document :
  keeps this (onDidSaveTextDocument document).
Proof.
  unfold onDidSaveTextDocument, showInformationMessage, showErrorMessage.
  apply keeps_bind; [keeps_step | intros w].
  destruct (tempToOriginalMap (this w) !! fileName document); [|keeps_step].
  apply keeps_try_catch; [|intros e; keeps_step].
  apply keeps_bind; [apply keeps_this_encryptAndReplaceOriginal | intros ?].
  keeps_step.
Qed.

(** The status bar and the timers are not part of the session view, nor
    of the window. *)
Lemma keeps_session_onDidChangeActiveTextEditor editor :
  keeps session (onDidChangeActiveTextEditor editor).
Proof.
  unfold onDidChangeActiveTextEditor, updateStatusBar, setTimeout, clearTimeout.
  repeat keeps_step.
Qed.

Lemma keeps_window_onDidChangeActiveTextEditor editor :
  keeps window (onDidChangeActiveTextEditor editor).
Proof.
  unfold onDidChangeActiveTextEditor, updateStatusBar, setTimeout, clearTimeout.
  repeat keeps_step.
Qed.

Lemma returns_onDidChangeActiveTextEditor editor :
  returns (onDidChangeActiveTextEditor editor).
Proof.
  unfold onDidChangeActiveTextEditor, updateStatusBar, setTimeout, clearTimeout.
  repeat returns_step.
Qed.

End Frames.

Section SessionEffects.
Context {R : Runtime}.

Lemma focus_editor_spec editor w :
  (focus_editor editor w).2 = Returned tt
  ∧ session (focus_editor editor w).1 = session w
  ∧ window (focus_editor editor w).1 = (visibleTextEditors w, Some editor).
Proof.
  unfold focus_editor. bind_get. bind_modify. bind_modify.
  set (w1 := add_log _ _).
  destruct (returns_onDidChangeActiveTextEditor (Some editor) w1) as [[] Hr].
  rewrite Hr, keeps_session_onDidChangeActiveTextEditor,
    keeps_window_onDidChangeActiveTextEditor. done.
Qed.

Lemma closeActiveEditor_spec on_close editor w :
  activeTextEditor w = Some editor →
  ∃ w', closeActiveEditor on_close w = on_close editor w'
        ∧ closeActiveEditor (λ _, mret tt) w = (w', Returned tt)
        ∧ session w' = session w
        ∧ visibleTextEditors w' = remove_first editor (visibleTextEditors w).
Proof.
  intros Hactive. unfold closeActiveEditor.
  bind_get. bind_get. rewrite Hactive.
  bind_modify. bind_modify. bind_modify. bind_modify.
  set (w1 := add_log _ _).
  destruct (returns_onDidChangeActiveTextEditor
              (head (remove_first editor (visibleTextEditors w))) w1) as [[] Hr].
  rewrite !(bind_returned (onDidChangeActiveTextEditor _) _ w1 tt Hr).
  eexists. split; [reflexivity|]. split; [reflexivity|].
  rewrite keeps_session_onDidChangeActiveTextEditor. split; [done|].
  pose proof (keeps_window_onDidChangeActiveTextEditor
                (head (remove_first editor (visibleTextEditors w))) w1) as Hw.
  by injection Hw as -> _.
Qed.

Lemma closeEditor_visible on_close editor w :
  editor ∈ visibleTextEditors w →
  closeEditor on_close editor w = on_close editor (closing_world editor w)
  ∧ session (closing_world editor w) = session w
  ∧ visibleTextEditors (closing_world editor w)
    = remove_first editor (visibleTextEditors w).
Proof.
  intros Hvis. unfold closing_world, closeEditor.
  bind_get. bind_get.
  rewrite !bool_decide_eq_true_2 by done.
  destruct (focus_editor_spec editor w) as (Hr & Hs & Hw).
  rewrite !(bind_returned (focus_editor editor) _ w tt Hr).
  assert (Hactive : activeTextEditor (focus_editor editor w).1 = Some editor).
  { by injection Hw as _ ->. }
  destruct (closeActiveEditor_spec on_close editor _ Hactive)
    as (w' & -> & -> & Hs' & Hv').
  cbn [fst]. split; [done|]. split; [by rewrite Hs', Hs|].
  rewrite Hv'. by injection Hw as -> _.
Qed.

Lemma closeEditor_hidden on_close editor w :
  editor ∉ visibleTextEditors w → closeEditor on_close editor w = (w, Returned tt).
Proof.
  intros Hvis. unfold closeEditor. bind_get.
  by rewrite bool_decide_eq_false_2.
Qed.

Lemma cleanupTempFile_spec path w :
  cleanupTempFile path w = (set_files (delete path) w, Returned tt).
Proof.
  unfold cleanupTempFile, try_catch, unlink.
  destruct (files w !! path) eqn:E; [done|].
  simpl. f_equal. destruct w. unfold set_files. simpl in *.
  by rewrite delete_id.
Qed.

(** Closing a registered working copy removes its pair and its file. *)
Lemma close_registered fuel t o w :
  tempToOriginalMap (this w) !! t = Some o →
  (onDidCloseTextDocument_ fuel t w).2 = Returned tt
  ∧ session (onDidCloseTextDocument_ fuel t w).1 = without_pair t o (session w)
  ∧ window (onDidCloseTextDocument_ fuel t w).1 = window w.
Proof.
  intros Ht.
  assert (Hunfold : onDidCloseTextDocument_ fuel t w
    = (cleanupTempFile t;;
       modify (set_this (set_tempToOriginalMap (delete t)));;
       modify (set_this (set_originalToTempMap (delete o)))) w).
  { destruct fuel; cbn [onDidCloseTextDocument_]; bind_get; by rewrite Ht. }
  rewrite Hunfold.
  rewrite (bind_returned (cleanupTempFile t) _ w tt) by by rewrite cleanupTempFile_spec.
  rewrite cleanupTempFile_spec. cbn [fst]. bind_modify.
  done.
Qed.

Lemma length_remove_first x l :
  x ∈ l → S (length (remove_first x l)) = length l.
Proof.
  induction l as [|y l IH]; intros Hin; [by apply elem_of_nil in Hin|].
  cbn [remove_first]. destruct (decide (x = y)) as [->|Hne].
  - by rewrite bool_decide_eq_true_2.
  - rewrite bool_decide_eq_false_2 by done. cbn [length]. f_equal. apply IH.
    apply elem_of_cons in Hin as [?|?]; done.
Qed.

Lemma close_unfold fuel p w :
  onDidCloseTextDocument_ fuel p w
  = match tempToOriginalMap (this w) !! p with
    | Some o =>
        (cleanupTempFile p;;
         modify (set_this (set_tempToOriginalMap (delete p)));;
         modify (set_this (set_originalToTempMap (delete o)))) w
    | None =>
        match originalToTempMap (this w) !! p with
        | Some t =>
            if bool_decide (t ∈ visibleTextEditors w) then
              match fuel with
              | 0 => (w, Returned tt)
              | S fuel' => onDidCloseTextDocument_ fuel' t (closing_world t w)
              end
            else (w, Returned tt)
        | None => (w, Returned tt)
        end
    end.
Proof.
  destruct fuel; cbn [onDidCloseTextDocument_]; bind_get;
    (destruct (tempToOriginalMap (this w) !! p); [done|]);
    (destruct (originalToTempMap (this w) !! p) as [t|]; [|done]);
    unfold find_editor;
    (destruct (decide (t ∈ visibleTextEditors w)) as [Hvis|Hvis];
      [rewrite !bool_decide_eq_true_2 by done
      |by rewrite !bool_decide_eq_false_2 by done]).
  - done.
  - by destruct (closeEditor_visible (onDidCloseTextDocument_ fuel) t w Hvis) as (-> & _).
Qed.

(** The fuel given to the close handler is never used up: every level of
    the cascade closes one visible editor. *)
Lemma close_fuel_enough fuel : ∀ p w,
  length (visibleTextEditors w) ≤ fuel →
  onDidCloseTextDocument_ fuel p w
  = onDidCloseTextDocument_ (length (visibleTextEditors w)) p w.
Proof.
  induction fuel as [|fuel IH]; intros p w Hlen.
  - by replace (length (visibleTextEditors w)) with 0 by lia.
  - rewrite (close_unfold (S fuel)), (close_unfold (length _)).
    destruct (tempToOriginalMap (this w) !! p); [done|].
    destruct (originalToTempMap (this w) !! p) as [t|]; [|done].
    destruct (decide (t ∈ visibleTextEditors w)) as [Hvis|Hvis];
      [rewrite !bool_decide_eq_true_2 by done
      |by rewrite !bool_decide_eq_false_2 by done].
    destruct (closeEditor_visible (λ _, mret tt) t w Hvis) as (_ & _ & Hv).
    pose proof (length_remove_first t _ Hvis) as Hl. rewrite <- Hv in Hl.
    rewrite <- Hl. rewrite IH by lia. done.
Qed.

(** The open event of a registered path changes nothing. *)
Lemma onDidOpenTextDocument_registered on_open document w :
  is_Some (tempToOriginalMap (this w) !! fileName document) →
  onDidOpenTextDocument_ on_open document w = (w, Returned tt).
Proof.
  intros Hreg. unfold onDidOpenTextDocument_. bind_get.
  destruct (isCleaningUp (this w)); [done|].
  destruct (negb _); [done|].
  rewrite (bool_decide_eq_true_2 (is_Some (tempToOriginalMap _ !! _))) by done.
  by rewrite orb_true_r.
Qed.

(** The open handler does not depend on how far the open events of
    working copies are followed: the first of them returns at its guards. *)
Lemma onDidOpenTextDocument_unrolled on_open document w :
  onDidOpenTextDocument_ (onDidOpenTextDocument_ on_open) document w
  = onDidOpenTextDocument_ (λ _, mret tt) document w.
Proof.
  unfold onDidOpenTextDocument_ at 1 3. bind_get. bind_get.
  destruct (isCleaningUp (this w)); [done|].
  destruct (negb _); [done|].
  destruct (_ || _); [done|].
  destruct (isSopsEncrypted _); [|done].
  apply try_catch_cong, bind_cong_r. intros newTempPath w1 _.
  bind_modify. bind_modify. bind_modify. bind_modify.
  set (w3 := set_this _ (set_this _ w1)).
  apply bind_cong_l. unfold openTextDocument.
  apply bind_cong_r. intros content w4 Hread.
  pose proof (keeps_this_readFile newTempPath w3) as Hthis.
  rewrite Hread in Hthis. cbn [fst] in Hthis.
  apply bind_cong_l. rewrite onDidOpenTextDocument_registered; [done|].
  rewrite Hthis. unfold w3. cbn. rewrite lookup_insert_eq. by eexists.
Qed.

End SessionEffects.

Lemma lookup_remove_keys (ks : list jstring) (mp : gmap jstring jstring) (x : jstring) :
  remove_keys ks mp !! x = if decide (x ∈ ks) then None else mp !! x.
Proof.
  unfold remove_keys. revert mp. induction ks as [|k ks IH]; intros mp.
  - destruct (decide (x ∈ [])) as [Hin|_]; [by apply elem_of_nil in Hin | done].
  - cbn [foldl]. rewrite IH.
    destruct (decide (x ∈ ks)) as [Hin|Hnin];
      destruct (decide (x ∈ k :: ks)) as [Hin'|Hnin']; try done.
    + exfalso. apply Hnin'. by right.
    + apply elem_of_cons in Hin' as [->|?]; [|done]. apply lookup_delete_eq.
    + apply lookup_delete_ne. intros ->. apply Hnin'. left.
Qed.

Section Cleanup.
Context {R : Runtime}.

Lemma session_eq w w' :
  session w' = session w →
  originalToTempMap (this w') = originalToTempMap (this w)
  ∧ tempToOriginalMap (this w') = tempToOriginalMap (this w)
  ∧ isCleaningUp (this w') = isCleaningUp (this w)
  ∧ files w' = files w.
Proof. unfold session. by intros [= -> -> -> ->]. Qed.

Lemma session_without_pair w w' t o :
  session w' = without_pair t o (session w) →
  originalToTempMap (this w') = delete o (originalToTempMap (this w))
  ∧ tempToOriginalMap (this w') = delete t (tempToOriginalMap (this w))
  ∧ isCleaningUp (this w') = isCleaningUp (this w)
  ∧ files w' = delete t (files w).
Proof. unfold session, without_pair. by intros [= -> -> -> ->]. Qed.

(** One round of the cleanup loop removes the pair and the working file,
    whether an editor shows the working copy or not. *)
Lemma cleanup_round t o rest w :
  tempToOriginalMap (this w) !! t = Some o →
  ∃ w1, cleanup_loop ((t, o) :: rest) w = cleanup_loop rest w1
        ∧ session w1 = without_pair t o (session w).
Proof.
  intros Ht. cbn [cleanup_loop]. bind_get. unfold find_editor.
  destruct (decide (t ∈ visibleTextEditors w)) as [Hvis|Hvis].
  - rewrite bool_decide_eq_true_2 by done.
    destruct (closeEditor_visible deliver_close t w Hvis) as (Hc & Hs & _).
    set (cw := closing_world t w) in *.
    apply session_eq in Hs as Hs'. destruct Hs' as (_ & Ht2o & _ & _).
    assert (Ht' : tempToOriginalMap (this cw) !! t = Some o) by by rewrite Ht2o.
    destruct (close_registered (close_fuel cw) t o cw Ht') as (Hr & Hs2 & _).
    assert (Hd : deliver_close t cw = onDidCloseTextDocument_ (close_fuel cw) t cw).
    { unfold deliver_close. by bind_get. }
    exists (onDidCloseTextDocument_ (close_fuel cw) t cw).1. split.
    + rewrite (bind_returned (closeEditor deliver_close t) _ w tt);
        rewrite Hc, Hd; done.
    + by rewrite Hs2, Hs.
  - rewrite bool_decide_eq_false_2 by done.
    eexists. split.
    + rewrite (bind_returned (_ ;; _) _ w tt).
      * reflexivity.
      * rewrite (bind_returned (cleanupTempFile t) _ w tt)
          by by rewrite cleanupTempFile_spec.
        by bind_modify.
    + rewrite (bind_returned (cleanupTempFile t) _ w tt)
        by by rewrite cleanupTempFile_spec.
      rewrite cleanupTempFile_spec. cbn [fst]. by bind_modify.
Qed.

Lemma cleanup_loop_spec entries :
  NoDup entries.*1 →
  ∀ w,
    (∀ t o, (t, o) ∈ entries → tempToOriginalMap (this w) !! t = Some o) →
    ∃ w', cleanup_loop entries w = (w', Returned tt)
          ∧ originalToTempMap (this w') = remove_keys entries.*2 (originalToTempMap (this w))
          ∧ tempToOriginalMap (this w') = remove_keys entries.*1 (tempToOriginalMap (this w))
          ∧ isCleaningUp (this w') = isCleaningUp (this w)
          ∧ files w' = remove_keys entries.*1 (files w).
Proof.
  induction entries as [|[t o] entries IH]; intros Hnd w Hall.
  - exists w. done.
  - apply NoDup_cons in Hnd as [Hnotin Hnd].
    destruct (cleanup_round t o entries w) as (w1 & -> & Hs); [apply Hall; left|].
    apply session_without_pair in Hs as (H1 & H2 & H3 & H4).
    destruct (IH Hnd w1) as (w' & Hloop & K1 & K2 & K3 & K4).
    { intros t' o' Hin. rewrite H2, lookup_delete_ne.
      - apply Hall. by right.
      - intros ->. apply Hnotin. by apply (list_elem_of_fmap_2 fst) in Hin. }
    exists w'. split; [done|].
    cbn [fmap list_fmap remove_keys foldl fst snd].
    by rewrite K1, K2, K3, K4, H1, H2, H3, H4.
Qed.

(** The entries the cleanup works on. *)
Lemma cleanup_entries (HR : Runtime_ok R) w :
  let entries := filter (λ e, unrelated (activeTextEditor w) e)
                   (Map_entries (tempToOriginalMap (this w))) in
  NoDup entries.*1
  ∧ ∀ t o, (t, o) ∈ entries
           ↔ tempToOriginalMap (this w) !! t = Some o
             ∧ activeTextEditor w ≠ Some t ∧ activeTextEditor w ≠ Some o.
Proof.
  intros entries.
  pose proof (Map_entries_perm R HR (tempToOriginalMap (this w))) as Hperm.
  split.
  - assert (Hnd : NoDup (Map_entries (tempToOriginalMap (this w))).*1).
    { rewrite Hperm. apply NoDup_fst_map_to_list. }
    unfold entries. revert Hnd. generalize (Map_entries (tempToOriginalMap (this w))).
    intros l. induction l as [|[t o] l IH]; intros Hnd; [constructor|].
    apply NoDup_cons in Hnd as [Hnotin Hnd].
    rewrite filter_cons. destruct (decide _); [|by apply IH].
    cbn [fmap list_fmap fst]. apply NoDup_cons. split; [|by apply IH].
    intros Hin. apply Hnotin. apply list_elem_of_fmap in Hin as ([t' o'] & -> & Hin).
    apply list_elem_of_filter in Hin as [_ Hin].
    by apply (list_elem_of_fmap_2 fst) in Hin.
  - intros t o. unfold entries. rewrite list_elem_of_filter, Hperm, elem_of_map_to_list.
    unfold unrelated. rewrite Is_true_true, andb_true_iff, !negb_true_iff,
      !bool_decide_eq_false. tauto.
Qed.

Lemma cleanup_callback_spec (HR : Runtime_ok R) w :
  isCleaningUp (this w) = false →
  let entries := filter (λ e, unrelated (activeTextEditor w) e)
                   (Map_entries (tempToOriginalMap (this w))) in
  ∃ w', cleanup_callback w = (w', Returned tt)
        ∧ originalToTempMap (this w') = remove_keys entries.*2 (originalToTempMap (this w))
        ∧ tempToOriginalMap (this w') = remove_keys entries.*1 (tempToOriginalMap (this w))
        ∧ isCleaningUp (this w') = false
        ∧ files w' = remove_keys entries.*1 (files w).
Proof.
  intros Hidle entries. unfold cleanup_callback. bind_get. rewrite Hidle. bind_modify.
  set (w1 := set_this (set_isCleaningUp true) w).
  destruct (cleanup_entries HR w) as [Hnd Hin]. fold entries in Hnd, Hin.
  destruct (cleanup_loop_spec entries Hnd w1) as (w2 & Hloop & K1 & K2 & K3 & K4).
  { intros t o Hto. by apply Hin in Hto as [? _]. }
  unfold try_finally. bind_get.
  change (activeTextEditor w1) with (activeTextEditor w).
  change (tempToOriginalMap (this w1)) with (tempToOriginalMap (this w)).
  fold entries. rewrite Hloop. cbn [modify].
  eexists. split; [reflexivity|]. cbn. by rewrite K1, K2, K4.
Qed.

End Cleanup.

(** ** The handlers of the session *)

Section OpenWhileCleaning.
Context {R : Runtime}.

(** C10.  While the cleanup is in progress, the open handler returns at
    once, whatever the document is: the world after the event is the world
    before it (the session object, the files, the window, and the record
    of what was run or shown). *)
Theorem onDidOpenTextDocument_while_cleaning (w : World) (document : TextDocument) :
  isCleaningUp (this w) = true →
  onDidOpenTextDocument document w = (w, Returned tt).
Proof.
  intros Hc. unfold onDidOpenTextDocument, onDidOpenTextDocument_. bind_get.
  by rewrite Hc.
Qed.

End OpenWhileCleaning.

Lemma onDidOpenTextDocument_while_cleaning_witness :
  isSopsEncrypted encrypted_text = true
  ∧ originalToTempMap (this cleaning_world) !! secret_yaml = None
  ∧ onDidOpenTextDocument (R := runtime_decrypting_to (str "k: v"))
      (document secret_yaml encrypted_text) cleaning_world
    = (cleaning_world, Returned tt).
Proof.
  split; [by vm_compute|]. split; [done|].
  apply (onDidOpenTextDocument_while_cleaning
           (R := runtime_decrypting_to (str "k: v")) cleaning_world).
  reflexivity.
Defined.

(** C2 fails on the code.  Two originals whose working paths coincide are
    opened one after the other: the first original is still mapped to the
    working path, which is now mapped to the second original. *)
Theorem open_collision_breaks_inverses :
  let w := run (R := runtime_for_two_files) two_secrets colliding_opens in
  reachable (R := runtime_for_two_files) w
  ∧ originalToTempMap (this w) !! x_yaml = Some x_decrypted_yaml
  ∧ tempToOriginalMap (this w) !! x_decrypted_yaml = Some x_dec_yaml
  ∧ ¬ mutual_inverses (this w).
Proof.
  intros w.
  assert (H1 : originalToTempMap (this w) !! x_yaml = Some x_decrypted_yaml)
    by (vm_compute; reflexivity).
  assert (H2 : tempToOriginalMap (this w) !! x_decrypted_yaml = Some x_dec_yaml)
    by (vm_compute; reflexivity).
  assert (H0 : reachable (R := runtime_for_two_files) w).
  { unfold w, run, colliding_opens. cbn [foldl].
    apply reachable_event, reachable_event, reachable_initial. }
  clearbody w.
  split; [exact H0 | split; [exact H1 | split; [exact H2|]]].
  intros Hinv. pose proof (proj1 (Hinv x_yaml x_decrypted_yaml) H1) as H3.
  assert (H4 : Some x_dec_yaml = Some x_yaml) by exact (eq_trans (eq_sym H2) H3).
  discriminate.
Qed.

(** ** Every working path registered is registered from both sides *)

Lemma half_inverse_without_pair c c' t o :
  half_inverse c →
  tempToOriginalMap c !! t = Some o →
  originalToTempMap c' = delete o (originalToTempMap c) →
  tempToOriginalMap c' = delete t (tempToOriginalMap c) →
  half_inverse c'.
Proof.
  intros Hc Ht Ho2t Ht2o t' o'. rewrite Ho2t, Ht2o.
  rewrite lookup_delete_Some. intros [Hne Hto].
  rewrite lookup_delete_Some. split; [|by apply Hc].
  intros <-. apply Hne. apply Hc in Ht, Hto. congruence.
Qed.

Lemma half_inverse_register c c' doc temp :
  half_inverse c →
  originalToTempMap c !! doc = None →
  originalToTempMap c' = <[doc := temp]> (originalToTempMap c) →
  tempToOriginalMap c' = <[temp := doc]> (tempToOriginalMap c) →
  half_inverse c'.
Proof.
  intros Hc Hfree Ho2t Ht2o t o. rewrite Ho2t, Ht2o.
  rewrite lookup_insert_Some. intros [[<- <-] | [Hne Hto]].
  - apply lookup_insert_eq.
  - rewrite lookup_insert_ne; [by apply Hc|].
    intros <-. apply Hc in Hto. congruence.
Qed.

Lemma half_inverse_remove_keys c c' (entries : list (jstring * jstring)) :
  half_inverse c →
  (∀ t o, (t, o) ∈ entries → tempToOriginalMap c !! t = Some o) →
  originalToTempMap c' = remove_keys entries.*2 (originalToTempMap c) →
  tempToOriginalMap c' = remove_keys entries.*1 (tempToOriginalMap c) →
  half_inverse c'.
Proof.
  intros Hc Hin Ho2t Ht2o t o. rewrite Ho2t, Ht2o, !lookup_remove_keys.
  destruct (decide (t ∈ entries.*1)) as [|Hnt]; [done|]. intros Hto.
  rewrite decide_False; [by apply Hc|].
  intros Hino. apply Hnt.
  apply list_elem_of_fmap in Hino as ([t' o'] & Heq & Hino). simpl in Heq. subst o'.
  apply Hin in Hino as Hto'. apply Hc in Hto, Hto'.
  assert (t' = t) as -> by congruence.
  by apply (list_elem_of_fmap_2 fst) in Hino.
Qed.

Section Preserves.
Context {R : Runtime}.

Lemma preserves_keeps_this {A} (c : M A) : keeps this c → preserves c.
Proof. intros Hk w Hw. by rewrite Hk. Qed.

Lemma preserves_keeps_session {A} (c : M A) : keeps session c → preserves c.
Proof.
  intros Hk w Hw t o. destruct (session_eq _ _ (Hk w)) as (-> & -> & _). apply Hw.
Qed.

Lemma preserves_ret {A} (a : A) : preserves (mret a).
Proof. by intros w. Qed.

Lemma preserves_bind {A C} (c : M A) (f : A → M C) :
  preserves c → (∀ a, preserves (f a)) → preserves (c ≫= f).
Proof.
  intros Hc Hf w Hw. unfold mbind, M_bind, bind.
  specialize (Hc w Hw). destruct (c w) as [w' [a|e]]; simpl in *; [|done].
  by apply Hf.
Qed.

Lemma preserves_try_catch {A} (c : M A) h :
  preserves c → (∀ e, preserves (h e)) → preserves (try_catch c h).
Proof.
  intros Hc Hh w Hw. unfold try_catch.
  specialize (Hc w Hw). destruct (c w) as [w' [a|e]]; simpl in *; [done|].
  by apply Hh.
Qed.

Lemma preserves_close fuel : ∀ closedPath, preserves (onDidCloseTextDocument_ fuel closedPath).
Proof.
  induction fuel as [|fuel IH]; intros p w Hw.
  - cbn [onDidCloseTextDocument_]. bind_get.
    destruct (tempToOriginalMap (this w) !! p) as [o|] eqn:Ht.
    + destruct (close_registered 0 p o w Ht) as (_ & Hs & _).
      cbn [onDidCloseTextDocument_] in Hs. revert Hs. bind_get. rewrite Ht. intros Hs.
      apply session_without_pair in Hs as (H1 & H2 & _).
      by apply (half_inverse_without_pair (this w) _ p o).
    + destruct (originalToTempMap (this w) !! p); [|done].
      by destruct (find_editor _ w).
  - cbn [onDidCloseTextDocument_]. bind_get.
    destruct (tempToOriginalMap (this w) !! p) as [o|] eqn:Ht.
    + destruct (close_registered (S fuel) p o w Ht) as (_ & Hs & _).
      cbn [onDidCloseTextDocument_] in Hs. revert Hs. bind_get. rewrite Ht. intros Hs.
      apply session_without_pair in Hs as (H1 & H2 & _).
      by apply (half_inverse_without_pair (this w) _ p o).
    + destruct (originalToTempMap (this w) !! p) as [t|]; [|done].
      unfold find_editor. destruct (decide (t ∈ visibleTextEditors w)) as [Hvis|Hvis].
      * rewrite bool_decide_eq_true_2 by done.
        destruct (closeEditor_visible (onDidCloseTextDocument_ fuel) t w Hvis)
          as (-> & Hs & _).
        apply IH. intros t' o'.
        destruct (session_eq _ _ Hs) as (-> & -> & _). apply Hw.
      * by rewrite bool_decide_eq_false_2.
Qed.

Lemma preserves_cleanup_callback (HR : Runtime_ok R) : preserves cleanup_callback.
Proof.
  intros w Hw. destruct (isCleaningUp (this w)) eqn:Hc.
  - unfold cleanup_callback. bind_get. by rewrite Hc.
  - destruct (cleanup_callback_spec HR w Hc) as (w' & -> & H1 & H2 & _).
    cbn [fst]. eapply (half_inverse_remove_keys (this w)); [done | | done | done].
    intros t o Hin. by apply (cleanup_entries HR w) in Hin as [? _].
Qed.

Lemma keeps_session_showTextDocument path : keeps session (showTextDocument path).
Proof.
  unfold showTextDocument.
  apply keeps_bind; [keeps_step | intros w].
  apply keeps_bind; [keeps_step | intros ?].
  apply keeps_bind; [keeps_step | intros ?].
  apply keeps_session_onDidChangeActiveTextEditor.
Qed.

Lemma preserves_open on_open :
  (∀ d, preserves (on_open d)) →
  ∀ document, preserves (onDidOpenTextDocument_ on_open document).
Proof.
  intros Hon document w Hw. unfold onDidOpenTextDocument_. bind_get.
  destruct (isCleaningUp (this w)); [done|].
  destruct (negb (bool_decide (uri_scheme document = str "file"))); [done|].
  destruct (bool_decide (is_Some (originalToTempMap (this w) !! fileName document)))
    eqn:Hreg; [done|].
  apply bool_decide_eq_false in Hreg. rewrite <- eq_None_not_Some in Hreg.
  destruct (_ || _); [done|].
  destruct (isSopsEncrypted (getText document)); [|done].
  unfold try_catch.
  pose proof (keeps_this_decryptToTempFile (fileName document) w) as Hthis.
  unfold mbind at 1, M_bind at 1, bind at 1.
  destruct (decryptToTempFile (fileName document) w) as [w1 [newTempPath|e]];
    cbn [fst] in Hthis.
  - set (rest := (_ ← modify _; _)).
    assert (Hrest : half_inverse (this (rest w1).1)).
    { unfold rest. bind_modify. bind_modify.
      set (w3 := set_this _ (set_this _ w1)).
      assert (H3 : half_inverse (this w3)).
      { apply (half_inverse_register (this w) _ (fileName document) newTempPath);
          [done | done | |]; unfold w3; cbn; by rewrite Hthis. }
      revert H3. generalize w3. apply preserves_bind.
      - unfold openTextDocument. apply preserves_bind.
        + apply preserves_keeps_this, keeps_this_readFile.
        + intros content. apply preserves_bind; [apply Hon|].
          intros ?. apply preserves_ret.
      - intros tempDoc. apply preserves_keeps_session, keeps_session_showTextDocument. }
    destruct (rest w1) as [w4 [[]|e]]; [done|]. exact Hrest.
  - cbn. by rewrite Hthis.
Qed.

Lemma preserves_handle (HR : Runtime_ok R) ev : preserves (handle ev).
Proof.
  destruct ev as [d|d|d|e|id]; cbn [handle].
  - unfold onDidOpenTextDocument. apply preserves_open. intros d'.
    apply preserves_open. intros ?. apply preserves_ret.
  - apply preserves_keeps_this, keeps_this_onDidSaveTextDocument.
  - unfold onDidCloseTextDocument. intros w. bind_get. apply preserves_close.
  - apply preserves_keeps_session, keeps_session_onDidChangeActiveTextEditor.
  - unfold timer_fired. intros w. bind_get.
    destruct (bool_decide _); [|done].
    revert w. apply preserves_bind.
    + apply preserves_keeps_session. unfold clearTimeout. keeps_step.
    + intros ?. by apply preserves_cleanup_callback.
Qed.

(** In every world a session can reach, a registered working path is
    registered from the side of its original too. *)
Lemma reachable_half_inverse (HR : Runtime_ok R) w :
  reachable w → half_inverse (this w).
Proof.
  induction 1 as [fs folders visible active | w ev _ IH | w w' _ IH Hthis].
  - intros t o. cbn. by rewrite lookup_empty.
  - unfold step. by apply preserves_handle.
  - by rewrite Hthis.
Qed.

End Preserves.

(** ** The cleanup after a change of focus *)

Section FocusCleanup.
Context {R : Runtime} (HR : Runtime_ok R).


End FocusCleanup.

Lemma after_open_tracked :
  tracked (this after_open) secret_yaml secret_decrypted_yaml
  ∧ activeTextEditor after_open = Some secret_decrypted_yaml
  ∧ files after_open !! secret_decrypted_yaml = Some (str "k: v").
Proof. repeat split; vm_compute; reflexivity. Qed.


Example cleanup_removes_the_pair :
  let w' := step (R := runtime_decrypting_to (str "k: v")) focus_elsewhere (TimerFired 0) in
  originalToTempMap (this w') = ∅ ∧ tempToOriginalMap (this w') = ∅
  ∧ files w' !! secret_decrypted_yaml = None
  ∧ files w' !! secret_yaml = Some (str "k: ENC[AES256_GCM,data:Zm9v]").
Proof. repeat split; vm_compute; reflexivity. Qed.

Example cleanup_keeps_the_focused_pair :
  let w' := step (R := runtime_decrypting_to (str "k: v")) after_open (TimerFired 0) in
  tracked (this w') secret_yaml secret_decrypted_yaml
  ∧ files w' !! secret_decrypted_yaml = Some (str "k: v").
Proof. repeat split; vm_compute; reflexivity. Qed.

(* ===================================================================== *)
(** * Further properties of sopsHandler.ts *)
(* ===================================================================== *)

(** ** The heuristic *)

(** X1.  The heuristic answers true exactly when, letter case apart, the
    content holds "sops" together with an encrypted-value marker (enc[ or
    the quoted key enc and a colon), or the block marker (sops: and a line
    feed), or the quoted marker (the quoted key sops, a colon, white space
    and an opening brace).  The two metadata markers need no further
    occurrence of "sops": they contain one. *)
Theorem isSopsEncrypted_exactly (content : jstring) :
  isSopsEncrypted content = true
  ↔ (occurs_in_ci (str "sops") content
     ∧ (occurs_in_ci (str "enc[") content ∨ occurs_in_ci quoted_enc_key content))
    ∨ occurs_in_ci sops_block content
    ∨ quoted_metadata_marker (toLowerCase content).
Proof.
  rewrite isSopsEncrypted_spec. split.
  - intros [Hs [H | [H | [H | H]]]]; auto.
  - assert (Hblock : occurs_in_ci sops_block content → occurs_in_ci (str "sops") content).
    { rewrite !occurs_in_ci_lower.
      apply (occurs_in_weaken [] (str "sops") (str ":" ++ [LF])). }
    assert (Hjson : quoted_metadata_marker (toLowerCase content)
                    → occurs_in_ci (str "sops") content).
    { rewrite occurs_in_ci_lower. intros (pre & ws & post & -> & _).
      exists (pre ++ [DQUOTE]), (DQUOTE :: str ":" ++ ws ++ str "{" ++ post).
      unfold quoted_sops_key. by rewrite <- !app_assoc. }
    intros [[Hs H] | [H | H]]; [tauto | split; auto | split; auto].
Qed.

Lemma occurs_in_ci_extend t pre c post :
  occurs_in_ci t c → occurs_in_ci t (pre ++ c ++ post).
Proof.
  intros (a & mid & b & -> & Hm). exists (pre ++ a), mid, (b ++ post).
  by rewrite <- !app_assoc.
Qed.

(** X2.  Text added in front of a content or after it never hides what
    the heuristic has found: a content that is taken for encrypted is
    still taken for encrypted inside any longer content. *)
Theorem isSopsEncrypted_extends (pre content post : jstring) :
  isSopsEncrypted content = true → isSopsEncrypted (pre ++ content ++ post) = true.
Proof.
  rewrite !isSopsEncrypted_spec. intros [Hs H]. split; [by apply occurs_in_ci_extend|].
  destruct H as [H | [H | [H | H]]]; auto using occurs_in_ci_extend.
  right. right. right. destruct H as (a & ws & b & Heq & Hws).
  exists (toLowerCase pre ++ a), ws, (b ++ toLowerCase post). split; [|done].
  unfold toLowerCase in *. rewrite !map_app, Heq. by rewrite <- !app_assoc.
Qed.

Lemma isSopsEncrypted_extends_witness :
  isSopsEncrypted ((str "# production secrets" ++ [LF]) ++ encrypted_text ++ [LF]) = true.
Proof.
  apply (isSopsEncrypted_extends (str "# production secrets" ++ [LF]) encrypted_text [LF]).
  vm_compute. reflexivity.
Defined.

(** ** Decrypt-to-temp *)

Section DecryptToTempEdges.
Context {R : Runtime}.

(** X3.  When the tool fails, decrypt-to-temp throws an error that carries
    what the tool wrote to its standard error, or the message of the
    failure when it wrote nothing; no working file is written: the files
    are as the tool left them. *)
Theorem decryptToTempFile_tool_fails (w : World) (originalPath : jstring)
    (fs' : gmap jstring jstring) (err_message stderr : jstring) :
  shell (decrypt_command originalPath) (Path.dirname originalPath) (files w)
    = (fs', ExecFailed err_message stderr) →
  decryptToTempFile originalPath w
  = (add_log (Exec (decrypt_command originalPath) (Path.dirname originalPath))
       (set_files (λ _, fs') w),
     Thrown (new_Error (or_else stderr err_message))).
Proof.
  intros Hshell. unfold decryptToTempFile, child_process_exec. run_monad.
  by rewrite Hshell.
Qed.

Lemma name_parts_whole name stem ext : name_parts name stem ext → name = stem ++ ext.
Proof. destruct 1; [done | by rewrite app_nil_r]. Qed.

(** X4.  A directive whose value is blank gives the empty suffix, and then
    the working path is the path of the original: for a path made of plain
    segments, decrypt-to-temp writes the plaintext over the encrypted file
    and returns the path of that file. *)
Theorem decryptToTempFile_blank_suffix (w : World) (originalPath plaintext : jstring)
    (fs' : gmap jstring jstring) (absolute : bool) (segs : list jstring)
    (name stem ext : jstring) :
  shell (decrypt_command originalPath) (Path.dirname originalPath) (files w)
    = (fs', ExecOk plaintext) →
  directive_suffix plaintext [] →
  originalPath = directory absolute segs ++ name →
  Forall segment_ok segs →
  name_parts name stem ext →
  segment_ok name →
  ∃ w', decryptToTempFile originalPath w = (w', Returned originalPath)
        ∧ files w' = <[originalPath := plaintext]> fs'.
Proof.
  intros Hshell Hsuffix Hpath Hsegs Hparts Hname.
  pose proof (name_parts_whole _ _ _ Hparts) as Hwhole.
  rewrite (decryptToTempFile_returns w originalPath plaintext fs' absolute segs
             name stem ext [] Hshell Hsuffix Hpath Hsegs Hparts)
    by (cbn [app]; by rewrite <- Hwhole).
  cbn [app]. rewrite <- Hwhole, <- Hpath. eexists. split; [reflexivity | done].
Qed.

End DecryptToTempEdges.

Lemma decryptToTempFile_tool_fails_witness :
  decryptToTempFile (R := runtime_without_sops) secret_yaml one_secret
  = (add_log (Exec (decrypt_command secret_yaml) (Path.dirname secret_yaml))
       (set_files (λ _, files one_secret) one_secret),
     Thrown (new_Error (or_else (str "/bin/sh: 1: sops: not found")
                          (str "Command failed: " ++ decrypt_command secret_yaml)))).
Proof.
  apply (decryptToTempFile_tool_fails (R := runtime_without_sops) one_secret secret_yaml).
  reflexivity.
Defined.

Lemma decryptToTempFile_blank_suffix_witness :
  ∃ w', decryptToTempFile (R := runtime_decrypting_to plaintext_blank)
          secret_yaml one_secret
        = (w', Returned secret_yaml)
        ∧ files w' = <[secret_yaml := plaintext_blank]> (files one_secret).
Proof.
  apply (decryptToTempFile_blank_suffix (R := runtime_decrypting_to plaintext_blank)
           one_secret secret_yaml plaintext_blank (files one_secret)
           true [str "w"] (str "secret.yaml") (str "secret") (str ".yaml")).
  - reflexivity.
  - change [] with (trim (str " ")).
    apply (suffix_of_blank_directive _ (str "k: v" ++ [LF]) (str " ") [] " "%char []).
    + reflexivity.
    + apply (no_match_before_sound 0); vm_compute; reflexivity.
    + repeat constructor.
    + constructor.
    + reflexivity.
    + reflexivity.
    + constructor.
  - reflexivity.
  - by_computation.
  - apply (name_with_ext (str "secret") (str "yaml")); by_computation.
  - by_computation.
Defined.

(** ** Encrypt-and-replace *)

Section EncryptAndReplaceEdges.
Context {R : Runtime}.

(** X5.  When the backup copy succeeds, the tool succeeds and leaves the
    backup where it is, encrypt-and-replace returns normally: the backup is
    removed, every other file is as the tool left it, and the original
    holds what the tool made of the new content. *)
Theorem encryptAndReplaceOriginal_succeeds (w : World) (content originalPath : jstring)
    (original : jstring) (fs' : gmap jstring jstring) (stdout : jstring) :
  let backup := backup_path originalPath (uuid_source (nextUUID w)) in
  files w !! originalPath = Some original →
  shell (encrypt_command originalPath) (Path.dirname originalPath)
    (<[originalPath := content]> (<[backup := original]> (files w)))
    = (fs', ExecOk stdout) →
  is_Some (fs' !! backup) →
  ∃ w', encryptAndReplaceOriginal content originalPath w = (w', Returned tt)
        ∧ files w' = delete backup fs'
        ∧ files w' !! originalPath = fs' !! originalPath.
Proof.
  intros backup Horig Hshell [b Hb].
  unfold encryptAndReplaceOriginal, randomUUID, child_process_exec, copyFile, unlink.
  run_monad. fold backup. rewrite Horig. simpl. rewrite Hshell. simpl. rewrite Hb. simpl.
  eexists. split; [reflexivity|]. split; [done|].
  apply lookup_delete_ne, backup_path_ne.
Qed.

(** X6.  Whatever happens (the original is missing, the tool fails, the
    backup is lost, or all goes well), no file is left under the backup
    name when encrypt-and-replace ends. *)
Theorem encryptAndReplaceOriginal_leaves_no_backup
    (w : World) (content originalPath : jstring) :
  files (encryptAndReplaceOriginal content originalPath w).1
    !! backup_path originalPath (uuid_source (nextUUID w)) = None.
Proof.
  pose proof (backup_path_ne originalPath (uuid_source (nextUUID w))) as Hne.
  unfold encryptAndReplaceOriginal, randomUUID, child_process_exec, copyFile, unlink, rename.
  run_monad. set (backup := backup_path _ _) in *.
  destruct (files w !! originalPath) as [c0|] eqn:Horig; simpl.
  - destruct (shell _ _ _) as [fs' [stdout|err_message stderr]]; simpl.
    + destruct (fs' !! backup) eqn:Hb; simpl; [apply lookup_delete_eq|].
      rewrite Hb. simpl. done.
    + destruct (fs' !! backup) eqn:Hb; simpl; [|done].
      rewrite lookup_insert_ne by done. apply lookup_delete_eq.
  - destruct (files w !! backup) eqn:Hb; simpl; [|done].
    rewrite lookup_insert_ne by done. apply lookup_delete_eq.
Qed.

(** X7.  Encrypt-and-replace reports every failure: when it returns
    normally, the original was there to be copied, the tool has succeeded
    on the new content, and the files are the ones the tool left, without
    the backup. *)
Theorem encryptAndReplaceOriginal_returns_only_encrypted
    (w w' : World) (content originalPath : jstring) :
  let backup := backup_path originalPath (uuid_source (nextUUID w)) in
  encryptAndReplaceOriginal content originalPath w = (w', Returned tt) →
  ∃ original fs' stdout,
    files w !! originalPath = Some original
    ∧ shell (encrypt_command originalPath) (Path.dirname originalPath)
        (<[originalPath := content]> (<[backup := original]> (files w)))
      = (fs', ExecOk stdout)
    ∧ files w' = delete backup fs'.
Proof.
  intros backup.
  unfold encryptAndReplaceOriginal, randomUUID, child_process_exec, copyFile, unlink, rename.
  run_monad. fold backup.
  destruct (files w !! originalPath) as [c0|] eqn:Horig; simpl.
  - destruct (shell _ _ _) as [fs' [stdout|err_message stderr]] eqn:Hshell; simpl.
    + destruct (fs' !! backup) eqn:Hb; simpl.
      * intros [= <-]. by exists c0, fs', stdout.
      * rewrite Hb. simpl. done.
    + by destruct (fs' !! backup).
  - by destruct (files w !! backup).
Qed.

(** X8.  When the tool fails and the backup is no longer there, the
    restoration fails too: the error thrown is the critical one, which
    names the file and the failure of the rename, it is printed on the
    console, and the files are left as the tool left them. *)
Theorem encryptAndReplaceOriginal_backup_lost (w : World) (content originalPath : jstring)
    (original : jstring) (fs' : gmap jstring jstring) (err_message stderr : jstring) :
  let backup := backup_path originalPath (uuid_source (nextUUID w)) in
  let critical :=
    critical_message originalPath (ENOENT (str "rename") backup (Some originalPath)) in
  files w !! originalPath = Some original →
  shell (encrypt_command originalPath) (Path.dirname originalPath)
    (<[originalPath := content]> (<[backup := original]> (files w)))
    = (fs', ExecFailed err_message stderr) →
  fs' !! backup = None →
  ∃ w', encryptAndReplaceOriginal content originalPath w
          = (w', Thrown (new_Error critical))
        ∧ files w' = fs'
        ∧ ConsoleError (str "[SOPS CRITICAL] " ++ critical) ∈ log w'.
Proof.
  intros backup critical Horig Hshell Hb.
  unfold encryptAndReplaceOriginal, randomUUID, child_process_exec, copyFile, unlink, rename.
  run_monad. fold backup. rewrite Horig. simpl. rewrite Hshell. simpl. rewrite Hb. simpl.
  eexists. split; [reflexivity|]. split; [done|].
  simpl. rewrite !elem_of_app. right. apply list_elem_of_singleton. done.
Qed.

End EncryptAndReplaceEdges.

Lemma encryptAndReplaceOriginal_succeeds_witness :
  let backup := backup_path secret_yaml (example_uuid 0) in
  let written :=
    <[secret_yaml := str "k: v"]>
      (<[backup := str "k: ENC[AES256_GCM,data:Zm9v]"]> (files one_secret)) in
  ∃ w', encryptAndReplaceOriginal (R := runtime_decrypting_to []) (str "k: v")
          secret_yaml one_secret
        = (w', Returned tt)
        ∧ files w' = delete backup written
        ∧ files w' !! secret_yaml = written !! secret_yaml.
Proof.
  apply (encryptAndReplaceOriginal_succeeds (R := runtime_decrypting_to [])
           one_secret (str "k: v") secret_yaml (str "k: ENC[AES256_GCM,data:Zm9v]")
           _ []).
  - reflexivity.
  - reflexivity.
  - vm_compute. by eexists.
Defined.

Lemma encryptAndReplaceOriginal_returns_only_encrypted_witness :
  let backup := backup_path secret_yaml (example_uuid 0) in
  let w' := (encryptAndReplaceOriginal (R := runtime_decrypting_to []) (str "k: v")
               secret_yaml one_secret).1 in
  ∃ original fs' stdout,
    files one_secret !! secret_yaml = Some original
    ∧ shell (Runtime := runtime_decrypting_to [])
        (encrypt_command secret_yaml) (Path.dirname secret_yaml)
        (<[secret_yaml := str "k: v"]> (<[backup := original]> (files one_secret)))
      = (fs', ExecOk stdout)
    ∧ files w' = delete backup fs'.
Proof.
  apply (encryptAndReplaceOriginal_returns_only_encrypted (R := runtime_decrypting_to [])
           one_secret _ (str "k: v") secret_yaml).
  vm_compute. reflexivity.
Defined.

Lemma encryptAndReplaceOriginal_backup_lost_witness :
  let backup := backup_path secret_yaml (example_uuid 0) in
  let critical :=
    critical_message secret_yaml (ENOENT (str "rename") backup (Some secret_yaml)) in
  ∃ w', encryptAndReplaceOriginal (R := runtime_wiping) (str "k: v") secret_yaml one_secret
          = (w', Thrown (new_Error critical))
        ∧ files w' = ∅
        ∧ ConsoleError (str "[SOPS CRITICAL] " ++ critical) ∈ log w'.
Proof.
  apply (encryptAndReplaceOriginal_backup_lost (R := runtime_wiping)
           one_secret (str "k: v") secret_yaml (str "k: ENC[AES256_GCM,data:Zm9v]") ∅
           (str "Command failed: " ++ encrypt_command secret_yaml)
           (str "sops: interrupted")).
  - reflexivity.
  - reflexivity.
  - reflexivity.
Defined.

(** ** The rule lookup *)

Lemma commands_app l1 l2 : commands (l1 ++ l2) = commands l1 ++ commands l2.
Proof. apply omap_app. Qed.

Section RuleLookupEdges.
Context {R : Runtime}.

Lemma for_each_rule_sublist filePath rules : ∀ acc result,
  for_each_rule filePath rules acc = Returned result →
  ∃ kept, result = acc ++ kept ∧ sublist kept rules.
Proof.
  induction rules as [|r rules IH]; intros acc result; cbn [for_each_rule].
  - intros [= <-]. exists []. by rewrite app_nil_r.
  - destruct (get_prop r (str "path_regex")) as [path_regex|e]; [|done].
    assert (Hpush : for_each_rule filePath rules (acc ++ [r]) = Returned result →
                    ∃ kept, result = acc ++ kept ∧ sublist kept (r :: rules)).
    { intros H. apply IH in H as (kept & -> & Hsub).
      exists (r :: kept). rewrite <- app_assoc. split; [done | by constructor]. }
    destruct (negb (truthy path_regex)); [done|].
    destruct (toString path_regex) as [pattern|e]; [|done].
    destruct (RegExp_new pattern) as [re|]; [|done].
    destruct (RegExp_test re filePath); [done|].
    intros H. apply IH in H as (kept & -> & Hsub).
    exists kept. split; [done | by constructor].
Qed.

(** The lookup leaves the world as it is, but for the error it may print. *)
Lemma getApplicableCreationRules_world filePath w :
  ∃ w1 rules,
    getApplicableCreationRules filePath w = (w1, Returned rules)
    ∧ (w1 = w ∨ ∃ text, w1 = add_log (ConsoleError text) w).
Proof.
  unfold getApplicableCreationRules, first_workspace_folder, readFile. run_monad.
  destruct (workspaceFolders w) as [[|folder ?]|]; simpl;
    try (eexists _, _; split; [reflexivity | right; by eexists]);
    (destruct (files w !! _) as [configFile|]; simpl;
      [|eexists _, _; split; [reflexivity | right; by eexists]]);
    (destruct (yaml_load configFile) as [config|e]; simpl;
      [|eexists _, _; split; [reflexivity | right; by eexists]]);
    (destruct (get_prop config _) as [cr|e]; simpl;
      [|eexists _, _; split; [reflexivity | right; by eexists]]);
    (destruct (truthy cr); simpl; [|eexists _, _; split; [reflexivity | by left]]);
    (destruct (iterate cr) as [candidates|e]; simpl;
      [|eexists _, _; split; [reflexivity | right; by eexists]]);
    (destruct (for_each_rule filePath candidates []) as [result|e]; simpl;
      eexists _, _; (split; [reflexivity|]); [by left | right; by eexists]).
Qed.

(** X9.  The lookup never throws and changes nothing: whatever the
    workspace, the configuration file and the rules are, it returns a list,
    and the files, the session object and the window are as before; it
    runs no command. *)
Theorem getApplicableCreationRules_read_only (filePath : jstring) (w : World) :
  ∃ w' rules,
    getApplicableCreationRules filePath w = (w', Returned rules)
    ∧ files w' = files w ∧ this w' = this w
    ∧ window w' = window w ∧ commands (log w') = commands (log w).
Proof.
  destruct (getApplicableCreationRules_world filePath w) as (w1 & rules & Hrun & Hw1).
  exists w1, rules. split; [done|].
  destruct Hw1 as [-> | [text ->]]; [done|].
  cbn. by rewrite commands_app, app_nil_r.
Qed.

(** X10.  Without a configuration that can be read (no folder in the
    workspace, no file, or a file that does not parse), the lookup returns
    the empty list and prints one error on the console. *)
Theorem getApplicableCreationRules_without_config (filePath : jstring) (w : World) :
  (∀ config, ¬ config_loaded w config) →
  ∃ w' text,
    getApplicableCreationRules filePath w = (w', Returned [])
    ∧ log w' = log w ++ [ConsoleError text].
Proof.
  intros Hnone.
  unfold getApplicableCreationRules, first_workspace_folder, readFile.
  run_monad.
  assert (Hload : ∀ p configFile config,
            config_path w = Some p → files w !! p = Some configFile →
            yaml_load configFile = Returned config → False).
  { intros p configFile config H1 H2 H3. apply (Hnone config). by exists p, configFile. }
  unfold config_path in Hload.
  destruct (workspaceFolders w) as [[|folder ?]|]; simpl;
    try (by eexists _, _);
    (destruct (files w !! _) as [configFile|] eqn:Hfile; simpl; [|by eexists _, _]);
    (destruct (yaml_load configFile) as [config|e] eqn:Hyaml; simpl; [|by eexists _, _]);
    exfalso; by eapply Hload.
Qed.

(** X11.  The lookup invents no rule and keeps the order: whatever the
    rules are (readable or not), the list returned is made of rules of the
    configuration, in the order of the configuration. *)
Theorem getApplicableCreationRules_sublist (filePath : jstring) (w : World)
    (config : value) (rules : list value) :
  config_loaded w config →
  get_prop config (str "creation_rules") = Returned (VArray rules) →
  ∃ w' result,
    getApplicableCreationRules filePath w = (w', Returned result)
    ∧ sublist result rules.
Proof.
  intros Hloaded Hrules.
  rewrite (getApplicableCreationRules_loaded w config filePath Hloaded), Hrules.
  cbn [truthy negb iterate].
  destruct (for_each_rule filePath rules []) as [result|e] eqn:Hloop.
  - apply for_each_rule_sublist in Hloop as (kept & -> & Hsub). by eexists _, _.
  - eexists _, _. split; [reflexivity|]. apply sublist_nil_l.
Qed.

(** X12.  A configuration that is a mapping without creation rules (no
    such key, a null, or an empty sequence) gives the empty list and
    nothing is printed; an empty configuration file, which parses to
    [undefined], gives the empty list with an error on the console. *)
Theorem getApplicableCreationRules_no_rules (filePath : jstring) (w : World) :
  (∀ props creation_rules,
     config_loaded w (VObject props) →
     assoc (str "creation_rules") props = creation_rules →
     creation_rules = None ∨ creation_rules = Some VNull
     ∨ creation_rules = Some (VArray []) →
     getApplicableCreationRules filePath w = (w, Returned []))
  ∧ (config_loaded w VUndefined →
     ∃ w' text,
       getApplicableCreationRules filePath w = (w', Returned [])
       ∧ log w' = log w ++ [ConsoleError text]).
Proof.
  split.
  - intros props cr Hloaded Hcr Hcases.
    rewrite (getApplicableCreationRules_loaded w _ filePath Hloaded).
    cbn [get_prop]. rewrite Hcr.
    by destruct Hcases as [-> | [-> | ->]].
  - intros Hloaded.
    rewrite (getApplicableCreationRules_loaded w _ filePath Hloaded).
    cbn [get_prop]. by eexists _, _.
Qed.

End RuleLookupEdges.

(** ** The texts of values *)

Lemma map_outcome_cons {A B} (f : A → outcome B) x l :
  map_outcome f (x :: l)
  = match f x with
    | Thrown e => Thrown e
    | Returned y =>
        match map_outcome f l with
        | Thrown e => Thrown e
        | Returned ys => Returned (y :: ys)
        end
    end.
Proof. reflexivity. Qed.

Lemma map_outcome_returns {A B} (f : A → outcome B) l :
  (∃ ys, map_outcome f l = Returned ys) ↔ Forall (λ x, ∃ y, f x = Returned y) l.
Proof.
  induction l as [|x l IH].
  - split; [constructor | by eexists].
  - rewrite map_outcome_cons, Forall_cons, <- IH. split.
    + intros [ys H]. destruct (f x) as [y|e]; [|done].
      destruct (map_outcome f l) as [ys'|e]; [|done]. split; by eexists.
    + intros [[y ->] [ys ->]]. by eexists.
Qed.

Lemma toString_VArray items :
  toString (VArray items)
  = match map_outcome (λ x, match x with
                            | VUndefined | VNull => Returned []
                            | _ => toString x
                            end) items with
    | Thrown e => Thrown e
    | Returned parts => Returned (join_with (str ",") parts)
    end.
Proof. reflexivity. Qed.

(** [String] prints the printable values, and no other. *)
Lemma toString_printable :
  ∀ v, (∃ text, toString v = Returned text) ↔ printable v = true.
Proof.
  fix IH 1. intros v. destruct v as [| |b|n|s|items|props].
  1-5: split; [done | intros _; try destruct b; by eexists].
  - rewrite toString_VArray. cbn [printable].
    assert (Hitems : (∃ parts, map_outcome (λ x, match x with
                            | VUndefined | VNull => Returned []
                            | _ => toString x
                            end) items = Returned parts)
                     ↔ forallb printable items = true).
    { rewrite map_outcome_returns. clear -IH.
      induction items as [|x items IHitems]; [by split|].
      rewrite Forall_cons. cbn [forallb]. rewrite andb_true_iff, <- IHitems, <- (IH x).
      assert (Hx : (∃ y, match x with
                         | VUndefined | VNull => Returned []
                         | _ => toString x
                         end = Returned y)
                   ↔ ∃ text, toString x = Returned text).
      { destruct x; try reflexivity; split; intros _; by eexists. }
      by rewrite Hx. }
    rewrite <- Hitems. destruct (map_outcome _ items) as [parts|e].
    + split; by eexists.
    + split; by intros [? ?].
  - cbn [toString printable]. destruct (bool_decide _); simpl.
    + split; [by intros [? ?] | done].
    + split; [done | by eexists].
Qed.

Lemma falsy_printable v : truthy v = false → printable v = true.
Proof. by destruct v. Qed.

Lemma add_option_returns cmd flag v :
  printable v = true → ∃ cmd', add_option cmd flag v = Returned cmd'.
Proof.
  intros Hv. unfold add_option. destruct (truthy v); [|by eexists].
  apply toString_printable in Hv as [text ->]. by eexists.
Qed.

Lemma add_option_throws cmd flag v :
  printable v = false → ∃ e, add_option cmd flag v = Thrown e.
Proof.
  intros Hv. unfold add_option. destruct (truthy v) eqn:Ht.
  - destruct (toString v) as [text|e] eqn:Hs; [|by eexists].
    assert (printable v = true) by (apply toString_printable; by eexists). congruence.
  - apply falsy_printable in Ht. congruence.
Qed.

(** ** The best-effort cleanup *)

Section EncryptFileEdges.
Context {R : Runtime}.

(** X13.  The cleanup of a working file never throws, whether the file is
    there or not; afterwards the file is not there, every other file is as
    it was, and nothing else has changed. *)
Theorem cleanupTempFile_best_effort (tempPath : jstring) (w : World) :
  ∃ w', cleanupTempFile tempPath w = (w', Returned tt)
        ∧ files w' !! tempPath = None
        ∧ (∀ p, p ≠ tempPath → files w' !! p = files w !! p)
        ∧ this w' = this w ∧ window w' = window w ∧ log w' = log w.
Proof.
  rewrite cleanupTempFile_spec. eexists. split; [reflexivity|]. cbn.
  split; [apply lookup_delete_eq|]. split; [|done].
  intros p Hne. by apply lookup_delete_ne.
Qed.

(** ** The encryption of a plaintext file *)

(** X14.  The command line of the encryption: for a rule with a PGP key
    and an age key, both options are given, PGP first, before the file in
    place; for a rule with neither key (whatever other keys it has), no key
    option is given at all.  The command runs in the directory of the
    file. *)
Theorem encryptFile_command (filePath : jstring) (w : World) :
  (∀ props pgp age,
     assoc (str "pgp") props = Some (VString pgp) → pgp ≠ [] →
     assoc (str "age") props = Some (VString age) → age ≠ [] →
     commands (log (encryptFile filePath (VObject props) w).1)
     = commands (log w)
         ++ [(str "sops --encrypt --pgp " ++ pgp ++ str " --age " ++ age
                ++ in_place filePath,
              Path.dirname filePath)])
  ∧ (∀ props,
       assoc (str "pgp") props = None → assoc (str "age") props = None →
       commands (log (encryptFile filePath (VObject props) w).1)
       = commands (log w)
           ++ [(str "sops --encrypt" ++ in_place filePath, Path.dirname filePath)]).
Proof.
  split.
  - intros props pgp age Hpgp Hp Hage Ha.
    unfold encryptFile, child_process_exec, add_option. run_monad.
    rewrite Hpgp, Hage. simpl.
    rewrite !bool_decide_eq_false_2 by done. simpl.
    destruct (shell _ _ _) as [fs' [stdout|err_message stderr]]; simpl;
      rewrite !commands_app; simpl; rewrite ?app_nil_r;
      by rewrite <- !app_assoc.
  - intros props Hpgp Hage.
    unfold encryptFile, child_process_exec, add_option. run_monad.
    rewrite Hpgp, Hage. simpl.
    destruct (shell _ _ _) as [fs' [stdout|err_message stderr]]; simpl;
      rewrite !commands_app; simpl; by rewrite ?app_nil_r.
Qed.

(** X15.  The encryption of a file runs one command and reports its
    failure.  For a rule that is a value, with keys pgp and age that can be
    printed, it runs one command in the directory of the file: it returns
    when the tool succeeds, and when the tool fails it prints the standard
    error and throws an error that carries it (or the message of the
    failure when it is empty); the files are as the tool left them, nothing
    is restored.  For any other rule ([undefined], [null], or a key pgp or
    age whose value is, or holds, a mapping with a key [toString]) it
    throws before running anything, the world unchanged. *)
Theorem encryptFile_outcome (filePath : jstring) (creation_rule : value) (w : World) :
  (defined creation_rule → keys_printable creation_rule →
   ∃ cmd fs' out,
     shell cmd (Path.dirname filePath) (files w) = (fs', out)
     ∧ let w1 := add_log (Exec cmd (Path.dirname filePath)) (set_files (λ _, fs') w) in
       encryptFile filePath creation_rule w
       = match out with
         | ExecOk _ => (w1, Returned tt)
         | ExecFailed err_message stderr =>
             (add_log (ConsoleError (str "[SOPS ERROR] Encryption failed. Stderr: "
                                        ++ stderr)) w1,
              Thrown (new_Error (or_else stderr err_message)))
         end)
  ∧ (¬ (defined creation_rule ∧ keys_printable creation_rule) →
     ∃ e, encryptFile filePath creation_rule w = (w, Thrown e)).
Proof.
  assert (Hget : defined creation_rule →
                 ∀ key, ∃ v, get_prop creation_rule key = Returned v).
  { intros [Hu Hn] key. destruct creation_rule; try done; by eexists. }
  split.
  - intros Hdef Hkeys.
    destruct (Hget Hdef (str "pgp")) as [pgp Hpgp], (Hget Hdef (str "age")) as [age Hage].
    destruct (add_option_returns (str "sops --encrypt") (str " --pgp ") pgp) as [cmd1 H1].
    { apply (Hkeys (str "pgp")); auto. }
    destruct (add_option_returns cmd1 (str " --age ") age) as [cmd2 H2].
    { apply (Hkeys (str "age")); auto. }
    unfold encryptFile, child_process_exec. run_monad.
    rewrite Hpgp. simpl. rewrite H1. simpl. rewrite Hage. simpl. rewrite H2. simpl.
    destruct (shell _ _ _) as [fs' [stdout|err_message stderr]] eqn:Hshell; simpl;
      eexists _, _, _; (split; [exact Hshell|]); done.
  - intros Hnot.
    destruct creation_rule as [| |b|n|s|items|props] eqn:Hrule;
      try (unfold encryptFile; run_monad; by eexists);
      try (exfalso; apply Hnot; split; [by split|]; by intros key v _ [= <-]).
    rewrite <- Hrule in *.
    assert (Hdef : defined creation_rule) by (by rewrite Hrule).
    destruct (Hget Hdef (str "pgp")) as [pgp Hpgp], (Hget Hdef (str "age")) as [age Hage].
    destruct (printable pgp) eqn:Hp.
    + destruct (printable age) eqn:Ha.
      * exfalso. apply Hnot. split; [done|]. intros key v [-> | ->] Hv; congruence.
      * destruct (add_option_returns (str "sops --encrypt") (str " --pgp ") pgp Hp)
          as [cmd1 H1].
        destruct (add_option_throws cmd1 (str " --age ") age Ha) as [e H2].
        unfold encryptFile. run_monad.
        rewrite Hpgp. simpl. rewrite H1. simpl. rewrite Hage. simpl. rewrite H2.
        by eexists.
    + destruct (add_option_throws (str "sops --encrypt") (str " --pgp ") pgp Hp)
        as [e H1].
      unfold encryptFile. run_monad. rewrite Hpgp. simpl. rewrite H1. by eexists.
Qed.

End EncryptFileEdges.

Lemma getApplicableCreationRules_without_config_witness :
  ∃ w' text,
    getApplicableCreationRules (R := runtime_without_sops) secret_yaml empty_world
    = (w', Returned [])
    ∧ log w' = log empty_world ++ [ConsoleError text].
Proof.
  apply (getApplicableCreationRules_without_config (R := runtime_without_sops)
           secret_yaml empty_world).
  intros config (p & configFile & _ & Hfile & _).
  cbn in Hfile. by rewrite lookup_empty in Hfile.
Defined.

Lemma getApplicableCreationRules_sublist_witness :
  ∃ w' result,
    getApplicableCreationRules
      (R := runtime_with_config (config_of [broken_rule; fallback_rule]))
      (str "/w/foo.json") configured_world
    = (w', Returned result)
    ∧ sublist result [broken_rule; fallback_rule].
Proof.
  apply (getApplicableCreationRules_sublist
           (R := runtime_with_config (config_of [broken_rule; fallback_rule]))
           (str "/w/foo.json") configured_world
           (config_of [broken_rule; fallback_rule])).
  - exists (str "/w/.sops.yaml"), (str "creation_rules: ...").
    repeat split; vm_compute; reflexivity.
  - reflexivity.
Defined.

Lemma getApplicableCreationRules_no_rules_witness :
  getApplicableCreationRules
    (R := runtime_with_config (VObject [(str "stores", VNull)]))
    (str "/w/foo.json") configured_world
  = (configured_world, Returned [])
  ∧ ∃ w' text,
      getApplicableCreationRules (R := runtime_with_config VUndefined)
        (str "/w/foo.json") configured_world
      = (w', Returned [])
      ∧ log w' = log configured_world ++ [ConsoleError text].
Proof.
  split.
  - apply (proj1 (getApplicableCreationRules_no_rules
                    (R := runtime_with_config (VObject [(str "stores", VNull)]))
                    (str "/w/foo.json") configured_world)
             [(str "stores", VNull)] None).
    + exists (str "/w/.sops.yaml"), (str "creation_rules: ...").
      repeat split; vm_compute; reflexivity.
    + reflexivity.
    + by left.
  - apply (proj2 (getApplicableCreationRules_no_rules
                    (R := runtime_with_config VUndefined)
                    (str "/w/foo.json") configured_world)).
    exists (str "/w/.sops.yaml"), (str "creation_rules: ...").
    repeat split; vm_compute; reflexivity.
Defined.

Lemma encryptFile_command_witness :
  commands (log (encryptFile (R := runtime_without_sops) db_yaml pgp_age_rule
                   plain_world).1)
  = commands (log plain_world)
      ++ [(str "sops --encrypt --pgp " ++ str "FBC7B9E2A4F9289AC0C1D4843D16CEE4A27381B4"
             ++ str " --age "
             ++ str "age1yt3tfqlfrwdwx0z0ynwplcr6qxcxfaqycuprpmy89nr83ltx74tqdpszlw"
             ++ in_place db_yaml,
           Path.dirname db_yaml)]
  ∧ commands (log (encryptFile (R := runtime_without_sops) db_yaml kms_rule
                     plain_world).1)
    = commands (log plain_world)
        ++ [(str "sops --encrypt" ++ in_place db_yaml, Path.dirname db_yaml)].
Proof.
  split.
  - apply (proj1 (encryptFile_command (R := runtime_without_sops) db_yaml plain_world)).
    + reflexivity.
    + discriminate.
    + reflexivity.
    + discriminate.
  - apply (proj2 (encryptFile_command (R := runtime_without_sops) db_yaml plain_world));
      reflexivity.
Defined.

Lemma encryptFile_outcome_witness :
  (∃ cmd fs' out,
     shell (Runtime := runtime_without_sops) cmd (Path.dirname db_yaml) (files plain_world)
     = (fs', out)
     ∧ let w1 := add_log (Exec cmd (Path.dirname db_yaml))
                   (set_files (λ _, fs') plain_world) in
       encryptFile (R := runtime_without_sops) db_yaml fallback_rule plain_world
       = match out with
         | ExecOk _ => (w1, Returned tt)
         | ExecFailed err_message stderr =>
             (add_log (ConsoleError (str "[SOPS ERROR] Encryption failed. Stderr: "
                                        ++ stderr)) w1,
              Thrown (new_Error (or_else stderr err_message)))
         end)
  ∧ ∃ e, encryptFile (R := runtime_without_sops) db_yaml unprintable_rule plain_world
         = (plain_world, Thrown e).
Proof.
  split.
  - apply (proj1 (encryptFile_outcome (R := runtime_without_sops) db_yaml fallback_rule
                    plain_world)).
    + by split.
    + by intros key v [-> | ->] [= <-].
  - apply (proj2 (encryptFile_outcome (R := runtime_without_sops) db_yaml unprintable_rule
                    plain_world)).
    intros [_ Hkeys].
    by specialize (Hkeys (str "pgp") _ (or_introl eq_refl) eq_refl).
Defined.

(* ===================================================================== *)
(** * Further properties of SopsContext.ts *)
(* ===================================================================== *)

(** ** Handlers that return *)

Lemma returns_try_finally {A} (c : M A) f :
  returns c → returns f → returns (try_finally c f).
Proof.
  intros Hc Hf w. unfold try_finally. destruct (Hc w) as [a Ha].
  destruct (c w) as [w' r]. simpl in Ha. subst r.
  destruct (Hf w') as [[] Hu]. destruct (f w') as [w'' r]. simpl in Hu. subst r.
  by exists a.
Qed.

Section Returns.
Context {R : Runtime}.

Lemma returns_cleanupTempFile p : returns (cleanupTempFile p).
Proof. intros w. rewrite cleanupTempFile_spec. by exists tt. Qed.

Lemma returns_focus_editor e : returns (focus_editor e).
Proof.
  unfold focus_editor.
  do 3 (apply returns_bind; [returns_step | intros ?]).
  apply returns_onDidChangeActiveTextEditor.
Qed.

Lemma returns_closeActiveEditor on_close :
  (∀ p, returns (on_close p)) → returns (closeActiveEditor on_close).
Proof.
  intros Hon. unfold closeActiveEditor.
  apply returns_bind; [returns_step | intros w].
  destruct (activeTextEditor w); [|apply returns_ret].
  do 2 (apply returns_bind; [returns_step | intros ?]).
  apply returns_bind; [apply returns_onDidChangeActiveTextEditor | intros ?].
  apply Hon.
Qed.

Lemma returns_closeEditor on_close e :
  (∀ p, returns (on_close p)) → returns (closeEditor on_close e).
Proof.
  intros Hon. unfold closeEditor.
  apply returns_bind; [returns_step | intros w].
  destruct (bool_decide _); [|apply returns_ret].
  apply returns_bind; [apply returns_focus_editor | intros ?].
  by apply returns_closeActiveEditor.
Qed.

Lemma returns_unregister t o :
  returns (cleanupTempFile t;;
           modify (set_this (set_tempToOriginalMap (delete t)));;
           modify (set_this (set_originalToTempMap (delete o)))).
Proof.
  apply returns_bind; [apply returns_cleanupTempFile | intros ?].
  apply returns_bind; [returns_step | intros ?]. returns_step.
Qed.

Lemma returns_close fuel : ∀ p, returns (onDidCloseTextDocument_ fuel p).
Proof.
  induction fuel as [|fuel IH]; intros p; cbn [onDidCloseTextDocument_];
    (apply returns_bind; [returns_step | intros w]);
    (destruct (tempToOriginalMap (this w) !! p); [apply returns_unregister|]);
    (destruct (originalToTempMap (this w) !! p); [|apply returns_ret]);
    (destruct (find_editor _ w); [|apply returns_ret]).
  - apply returns_ret.
  - by apply returns_closeEditor.
Qed.

Lemma returns_deliver_close p : returns (deliver_close p).
Proof.
  unfold deliver_close.
  apply returns_bind; [apply returns_get | intros w; apply returns_close].
Qed.

Lemma returns_cleanup_loop entries : returns (cleanup_loop entries).
Proof.
  induction entries as [|[t o] entries IH]; cbn [cleanup_loop]; [apply returns_ret|].
  apply returns_bind; [returns_step | intros w].
  apply returns_bind; [|intros ?; apply IH].
  destruct (find_editor t w).
  - apply returns_closeEditor, returns_deliver_close.
  - apply returns_unregister.
Qed.

Lemma returns_cleanup_callback : returns cleanup_callback.
Proof.
  unfold cleanup_callback.
  apply returns_bind; [returns_step | intros w].
  destruct (isCleaningUp (this w)); [apply returns_ret|].
  apply returns_bind; [returns_step | intros ?].
  apply returns_try_finally; [|returns_step].
  apply returns_bind; [returns_step | intros ?]. apply returns_cleanup_loop.
Qed.

Lemma returns_handle ev : returns (handle ev).
Proof.
  destruct ev as [d|d|d|e|id]; cbn [handle].
  - unfold onDidOpenTextDocument, onDidOpenTextDocument_, showErrorMessage.
    apply returns_bind; [returns_step | intros w].
    destruct (isCleaningUp (this w)); [apply returns_ret|].
    destruct (negb _); [apply returns_ret|].
    destruct (_ || _); [apply returns_ret|].
    destruct (isSopsEncrypted _); [|apply returns_ret].
    apply returns_try_catch. intros ?. returns_step.
  - unfold onDidSaveTextDocument, showErrorMessage.
    apply returns_bind; [returns_step | intros w].
    destruct (_ !! _); [|apply returns_ret].
    apply returns_try_catch. intros ?. returns_step.
  - unfold onDidCloseTextDocument.
    apply returns_bind; [apply returns_get | intros w; apply returns_close].
  - apply returns_onDidChangeActiveTextEditor.
  - unfold timer_fired, clearTimeout.
    apply returns_bind; [returns_step | intros w].
    destruct (bool_decide _); [|apply returns_ret].
    apply returns_bind; [returns_step | intros ?]. apply returns_cleanup_callback.
Qed.

(** X25.  No handler of the session throws: whatever the event and the
    world are (the tool fails, files are missing, editors are gone), the
    handler of an open, save, close or focus event and the cleanup of a
    timer return normally; failures end as messages. *)
Theorem no_handler_throws (ev : event) (w : World) :
  ∃ w', handle ev w = (w', Returned tt).
Proof.
  destruct (returns_handle ev w) as [[] H]. destruct (handle ev w) as [w' r].
  simpl in H. subst r. by exists w'.
Qed.

End Returns.

(** ** Properties that every handler keeps *)

Section InvariantRules.
Context (I : World → Prop).

Lemma invariant_ret {A} (a : A) : invariant I (mret a).
Proof. by intros w. Qed.

Lemma invariant_throw {A} e : invariant I (@throw A e).
Proof. by intros w. Qed.

Lemma invariant_get : invariant I get.
Proof. by intros w. Qed.

Lemma invariant_lift {A} (o : outcome A) : invariant I (lift o).
Proof. by intros w. Qed.

Lemma invariant_modify f : (∀ w, I w → I (f w)) → invariant I (modify f).
Proof. intros H w. apply H. Qed.

Lemma invariant_bind {A C} (c : M A) (f : A → M C) :
  invariant I c → (∀ a, invariant I (f a)) → invariant I (c ≫= f).
Proof.
  intros Hc Hf w Hw. unfold mbind, M_bind, bind.
  specialize (Hc w Hw). destruct (c w) as [w' [a|e]]; simpl in *; [|done].
  by apply Hf.
Qed.

Lemma invariant_try_catch {A} (c : M A) h :
  invariant I c → (∀ e, invariant I (h e)) → invariant I (try_catch c h).
Proof.
  intros Hc Hh w Hw. unfold try_catch.
  specialize (Hc w Hw). destruct (c w) as [w' [a|e]]; simpl in *; [done|].
  by apply Hh.
Qed.

Lemma invariant_try_finally {A} (c : M A) f :
  invariant I c → invariant I f → invariant I (try_finally c f).
Proof.
  intros Hc Hf w Hw. unfold try_finally.
  specialize (Hc w Hw). destruct (c w) as [w' r]; simpl in *.
  specialize (Hf w' Hc). by destruct (f w') as [w'' [[]|e]].
Qed.

End InvariantRules.

(** One step of a proof that a computation keeps a property, chosen by the
    shape of the computation. *)
Ltac invariant_step :=
  lazymatch goal with
  | |- invariant _ (mret _) => apply invariant_ret
  | |- invariant _ (throw _) => apply invariant_throw
  | |- invariant _ get => apply invariant_get
  | |- invariant _ (lift _) => apply invariant_lift
  | |- invariant _ (_ ≫= _) => apply invariant_bind; [|intros ?]
  | |- invariant _ (try_catch _ _) => apply invariant_try_catch; [|intros ?]
  | |- invariant _ (try_finally _ _) => apply invariant_try_finally
  | |- invariant _ (match ?x with _ => _ end) => destruct x
  end.

Section StableInvariants.
Context {R : Runtime} (I : World → Prop) (HI : stable I).
Hypothesis Hfocus : ∀ editor, invariant I (onDidChangeActiveTextEditor editor).

(** A computation that leaves the session object and the timers alone
    keeps a stable property. *)
Lemma invariant_frame {A} (c : M A) :
  keeps this c → keeps timers c → invariant I c.
Proof. intros H1 H2 w Hw. by apply (stable_frame I HI w). Qed.

Lemma invariant_set_files f : invariant I (modify (set_files f)).
Proof. by apply invariant_frame. Qed.

Lemma invariant_add_log e : invariant I (modify (add_log e)).
Proof. by apply invariant_frame. Qed.

Lemma invariant_set_window visible active :
  invariant I (modify (set_window visible active)).
Proof. by apply invariant_frame. Qed.

Lemma invariant_copyFile src dst : invariant I (copyFile src dst).
Proof. apply invariant_frame; intros w; unfold copyFile; by destruct (files w !! src). Qed.

Lemma invariant_rename src dst : invariant I (rename src dst).
Proof. apply invariant_frame; intros w; unfold rename; by destruct (files w !! src). Qed.

Lemma invariant_unlink path : invariant I (unlink path).
Proof. apply invariant_frame; intros w; unfold unlink; by destruct (files w !! path). Qed.

Lemma invariant_readFile path : invariant I (readFile path).
Proof. apply invariant_frame; intros w; unfold readFile; by destruct (files w !! path). Qed.

Lemma invariant_exec cmd cwd : invariant I (child_process_exec cmd cwd).
Proof.
  apply invariant_frame; intros w; unfold child_process_exec;
    by destruct (shell cmd cwd (files w)).
Qed.

Lemma invariant_randomUUID : invariant I randomUUID.
Proof. by apply invariant_frame. Qed.

Ltac invariant_steps :=
  repeat first
    [ apply invariant_set_files | apply invariant_add_log
    | apply invariant_copyFile | apply invariant_rename | apply invariant_unlink
    | apply invariant_readFile | apply invariant_exec | apply invariant_randomUUID
    | invariant_step ].

Lemma invariant_decryptToTempFile originalPath :
  invariant I (decryptToTempFile originalPath).
Proof. unfold decryptToTempFile, writeFile. invariant_steps. Qed.

Lemma invariant_encryptAndReplaceOriginal content originalPath :
  invariant I (encryptAndReplaceOriginal content originalPath).
Proof. unfold encryptAndReplaceOriginal, writeFile, console_error. invariant_steps. Qed.

Lemma invariant_cleanupTempFile path : invariant I (cleanupTempFile path).
Proof. unfold cleanupTempFile. invariant_steps. Qed.

Lemma invariant_onDidSaveTextDocument document :
  invariant I (onDidSaveTextDocument document).
Proof.
  unfold onDidSaveTextDocument, showInformationMessage, showErrorMessage.
  apply invariant_bind; [apply invariant_get | intros w].
  destruct (_ !! _); [|apply invariant_ret].
  apply invariant_try_catch; [|intros ?; apply invariant_add_log].
  apply invariant_bind; [apply invariant_encryptAndReplaceOriginal | intros ?].
  apply invariant_add_log.
Qed.

Lemma invariant_focus_editor editor : invariant I (focus_editor editor).
Proof.
  unfold focus_editor.
  apply invariant_bind; [apply invariant_get | intros w].
  apply invariant_bind; [apply invariant_set_window | intros ?].
  apply invariant_bind; [apply invariant_add_log | intros ?].
  apply Hfocus.
Qed.

Lemma invariant_closeEditor on_close editor :
  (∀ p, invariant I (on_close p)) → invariant I (closeEditor on_close editor).
Proof.
  intros Hon. unfold closeEditor.
  apply invariant_bind; [apply invariant_get | intros w].
  destruct (bool_decide _); [|apply invariant_ret].
  apply invariant_bind; [apply invariant_focus_editor | intros ?].
  unfold closeActiveEditor.
  apply invariant_bind; [apply invariant_get | intros w'].
  destruct (activeTextEditor w'); [|apply invariant_ret].
  apply invariant_bind; [apply invariant_set_window | intros ?].
  apply invariant_bind; [apply invariant_add_log | intros ?].
  apply invariant_bind; [apply Hfocus | intros ?].
  apply Hon.
Qed.

Lemma invariant_unregister t o :
  invariant I (cleanupTempFile t;;
               modify (set_this (set_tempToOriginalMap (delete t)));;
               modify (set_this (set_originalToTempMap (delete o)))).
Proof.
  apply invariant_bind; [apply invariant_cleanupTempFile | intros ?].
  apply invariant_bind; [|intros ?]; apply invariant_modify, HI.
Qed.

Lemma invariant_close fuel : ∀ p, invariant I (onDidCloseTextDocument_ fuel p).
Proof.
  induction fuel as [|fuel IH]; intros p; cbn [onDidCloseTextDocument_];
    (apply invariant_bind; [apply invariant_get | intros w]);
    (destruct (tempToOriginalMap (this w) !! p); [apply invariant_unregister|]);
    (destruct (originalToTempMap (this w) !! p); [|apply invariant_ret]);
    (destruct (find_editor _ w); [|apply invariant_ret]).
  - apply invariant_ret.
  - by apply invariant_closeEditor.
Qed.

Lemma invariant_deliver_close p : invariant I (deliver_close p).
Proof.
  unfold deliver_close.
  apply invariant_bind; [apply invariant_get | intros w; apply invariant_close].
Qed.

Lemma invariant_cleanup_loop entries : invariant I (cleanup_loop entries).
Proof.
  induction entries as [|[t o] entries IH]; cbn [cleanup_loop]; [apply invariant_ret|].
  apply invariant_bind; [apply invariant_get | intros w].
  apply invariant_bind; [|intros ?; apply IH].
  destruct (find_editor t w).
  - apply invariant_closeEditor, invariant_deliver_close.
  - apply invariant_unregister.
Qed.

Lemma invariant_showTextDocument path : invariant I (showTextDocument path).
Proof.
  unfold showTextDocument.
  apply invariant_bind; [apply invariant_get | intros w].
  apply invariant_bind; [apply invariant_set_window | intros ?].
  apply invariant_bind; [apply invariant_add_log | intros ?].
  apply Hfocus.
Qed.

Lemma invariant_open on_open :
  (∀ d, invariant I (on_open d)) →
  ∀ document, invariant I (onDidOpenTextDocument_ on_open document).
Proof.
  intros Hon document. unfold onDidOpenTextDocument_, showErrorMessage.
  apply invariant_bind; [apply invariant_get | intros w].
  destruct (isCleaningUp (this w)); [apply invariant_ret|].
  destruct (negb _); [apply invariant_ret|].
  destruct (_ || _); [apply invariant_ret|].
  destruct (isSopsEncrypted _); [|apply invariant_ret].
  apply invariant_try_catch; [|intros ?; apply invariant_add_log].
  apply invariant_bind; [apply invariant_decryptToTempFile | intros newTempPath].
  apply invariant_bind; [apply invariant_modify, HI | intros ?].
  apply invariant_bind; [apply invariant_modify, HI | intros ?].
  apply invariant_bind; [|intros ?; apply invariant_showTextDocument].
  unfold openTextDocument.
  apply invariant_bind; [apply invariant_readFile | intros ?].
  apply invariant_bind; [apply Hon | intros ?; apply invariant_ret].
Qed.

Lemma invariant_onDidOpenTextDocument document :
  invariant I (onDidOpenTextDocument document).
Proof.
  unfold onDidOpenTextDocument. apply invariant_open. intros d.
  apply invariant_open. intros ?. apply invariant_ret.
Qed.

Lemma invariant_onDidCloseTextDocument document :
  invariant I (onDidCloseTextDocument document).
Proof.
  unfold onDidCloseTextDocument.
  apply invariant_bind; [apply invariant_get | intros w; apply invariant_close].
Qed.

End StableInvariants.


Lemma stable_one_timer : stable one_timer.
Proof.
  split; [|done|done]. intros w w' Hthis Htimers Hw id. rewrite Hthis, Htimers. apply Hw.
Qed.

Section SessionInvariants.
Context {R : Runtime}.


(** What a change of focus does to the timers. *)
Lemma onDidChangeActiveTextEditor_timers editor w :
  let w' := (onDidChangeActiveTextEditor editor w).1 in
  timers w'
  = match cleanupTimeout (this w) with
    | Some pending => timers w ∖ {[pending]}
    | None => timers w
    end ∪ {[nextTimer w]}
  ∧ cleanupTimeout (this w') = Some (nextTimer w)
  ∧ nextTimer w' = S (nextTimer w).
Proof.
  unfold onDidChangeActiveTextEditor, updateStatusBar, setTimeout, clearTimeout.
  run_monad. by destruct (cleanupTimeout (this w)).
Qed.

Lemma timers_after_focus editor w :
  one_timer w → timers (onDidChangeActiveTextEditor editor w).1 = {[nextTimer w]}.
Proof.
  intros Hw. destruct (onDidChangeActiveTextEditor_timers editor w) as (-> & _).
  apply set_eq. intros id. specialize (Hw id).
  destruct (cleanupTimeout (this w)) as [pending|].
  - rewrite elem_of_union, elem_of_difference, !elem_of_singleton. split; [|by right].
    intros [[Hin Hne] | ?]; [|done]. apply Hw in Hin. congruence.
  - rewrite elem_of_union, elem_of_singleton. split; [|by right].
    intros [Hin | ?]; [|done]. by apply Hw in Hin.
Qed.

Lemma one_timer_onDidChangeActiveTextEditor editor :
  invariant one_timer (onDidChangeActiveTextEditor editor).
Proof.
  intros w Hw id. rewrite (timers_after_focus editor w Hw), elem_of_singleton.
  intros ->. by destruct (onDidChangeActiveTextEditor_timers editor w) as (_ & -> & _).
Qed.


Lemma one_timer_cleanup_callback : invariant one_timer cleanup_callback.
Proof.
  assert (Hflag : ∀ b, invariant one_timer (modify (set_this (set_isCleaningUp b)))).
  { intros b. by apply invariant_modify. }
  unfold cleanup_callback.
  apply invariant_bind; [apply invariant_get | intros w].
  destruct (isCleaningUp (this w)); [apply invariant_ret|].
  apply invariant_bind; [apply Hflag | intros ?].
  apply invariant_try_finally; [|apply Hflag].
  apply invariant_bind; [apply invariant_get | intros ?].
  apply (invariant_cleanup_loop one_timer stable_one_timer),
    one_timer_onDidChangeActiveTextEditor.
Qed.

Lemma one_timer_handle ev : invariant one_timer (handle ev).
Proof.
  destruct ev as [d|d|d|e|id]; cbn [handle].
  - apply (invariant_onDidOpenTextDocument one_timer stable_one_timer),
      one_timer_onDidChangeActiveTextEditor.
  - apply (invariant_onDidSaveTextDocument one_timer stable_one_timer).
  - apply (invariant_onDidCloseTextDocument one_timer stable_one_timer),
      one_timer_onDidChangeActiveTextEditor.
  - apply one_timer_onDidChangeActiveTextEditor.
  - unfold timer_fired, clearTimeout.
    apply invariant_bind; [apply invariant_get | intros w].
    destruct (bool_decide _); [|apply invariant_ret].
    apply invariant_bind; [|intros ?; apply one_timer_cleanup_callback].
    apply invariant_modify. intros w' Hw' id'. cbn.
    rewrite elem_of_difference. intros [Hin _]. by apply Hw'.
Qed.

Lemma one_timer_run evs : ∀ w, one_timer w → one_timer (run w evs).
Proof.
  induction evs as [|ev evs IH]; intros w Hw; [done|].
  cbn [run foldl]. apply IH. by apply one_timer_handle.
Qed.


(** X24.  The cleanup is debounced: after any sequence of events since the
    activation, at most one cleanup timer is pending; and a change of focus
    leaves exactly one pending, the one it has just armed, the earlier one
    being cancelled. *)
Theorem one_cleanup_pending (fs : gmap jstring jstring) (folders : option (list jstring))
    (visible : list jstring) (active : option jstring) (evs : list event) :
  let w := run (initial_world fs folders visible active) evs in
  (∀ id1 id2, id1 ∈ timers w → id2 ∈ timers w → id1 = id2)
  ∧ (∀ editor, timers (step w (FocusChange editor)) = {[nextTimer w]}).
Proof.
  intros w.
  assert (Hw : one_timer w).
  { apply one_timer_run. intros id Hin. cbn in Hin. by apply not_elem_of_empty in Hin. }
  split.
  - intros id1 id2 H1 H2. apply Hw in H1, H2. congruence.
  - intros editor. by apply timers_after_focus.
Qed.

End SessionInvariants.

(** ** What the handlers do *)

Section Handlers.
Context {R : Runtime}.

Lemma showTextDocument_spec path w :
  ∃ w', showTextDocument path w = (w', Returned tt)
        ∧ session w' = session w
        ∧ window w'
          = (path :: match activeTextEditor w with
                     | Some old => remove_first old (visibleTextEditors w)
                     | None => visibleTextEditors w
                     end,
             Some path).
Proof.
  unfold showTextDocument. bind_get. bind_modify. bind_modify.
  set (w1 := add_log _ _).
  destruct (returns_onDidChangeActiveTextEditor (Some path) w1) as [[] Hr].
  pose proof (keeps_session_onDidChangeActiveTextEditor (Some path) w1) as Hs.
  pose proof (keeps_window_onDidChangeActiveTextEditor (Some path) w1) as Hw.
  destruct (onDidChangeActiveTextEditor (Some path) w1) as [w' r]. simpl in *. subst r.
  by exists w'.
Qed.

Lemma decryptToTempFile_written originalPath w w1 tempPath :
  decryptToTempFile originalPath w = (w1, Returned tempPath) →
  is_Some (files w1 !! tempPath) ∧ this w1 = this w ∧ window w1 = window w.
Proof.
  unfold decryptToTempFile, child_process_exec. run_monad.
  destruct (shell _ _ _) as [fs' [stdout|err_message stderr]]; simpl; [|done].
  intros [= <- <-]. cbn. split; [|done]. rewrite lookup_insert_eq. by eexists.
Qed.

Lemma openTextDocument_spec path content w :
  files w !! path = Some content →
  openTextDocument (λ _, mret tt) path w
  = (w, Returned {| fileName := path; uri_scheme := str "file";
                    isClosed := false; getText := content |}).
Proof. intros H. unfold openTextDocument, readFile. run_monad. by rewrite H. Qed.

(** The whole effect of an open event that decrypts. *)
Lemma onDidOpenTextDocument_success w document w1 tempPath :
  isCleaningUp (this w) = false →
  uri_scheme document = str "file" →
  isClosed document = false →
  originalToTempMap (this w) !! fileName document = None →
  tempToOriginalMap (this w) !! fileName document = None →
  isSopsEncrypted (getText document) = true →
  decryptToTempFile (fileName document) w = (w1, Returned tempPath) →
  ∃ w', onDidOpenTextDocument document w = (w', Returned tt)
    ∧ originalToTempMap (this w')
      = <[fileName document := tempPath]> (originalToTempMap (this w))
    ∧ tempToOriginalMap (this w')
      = <[tempPath := fileName document]> (tempToOriginalMap (this w))
    ∧ isCleaningUp (this w') = false
    ∧ files w' = files w1
    ∧ window w'
      = (tempPath :: match activeTextEditor w with
                     | Some old => remove_first old (visibleTextEditors w)
                     | None => visibleTextEditors w
                     end,
         Some tempPath).
Proof.
  intros Hidle Hscheme Hclosed Ho2t Ht2o Henc Hdec.
  destruct (decryptToTempFile_written _ _ _ _ Hdec) as ([content Hfile] & Hthis & Hwin).
  unfold onDidOpenTextDocument. rewrite onDidOpenTextDocument_unrolled.
  unfold onDidOpenTextDocument_. bind_get.
  rewrite Hidle, Hscheme, Ho2t, Ht2o, Hclosed, Henc.
  rewrite bool_decide_eq_true_2 by done.
  rewrite !bool_decide_eq_false_2 by (by intros [? ?]).
  cbn [negb orb]. unfold try_catch.
  rewrite (bind_returned (decryptToTempFile _) _ w tempPath) by by rewrite Hdec.
  rewrite Hdec. cbn [fst]. bind_modify. bind_modify.
  set (w3 := set_this _ (set_this _ w1)).
  assert (Hread : files w3 !! tempPath = Some content) by done.
  rewrite (bind_returned (openTextDocument _ _) _ w3 _
             (f_equal snd (openTextDocument_spec tempPath content w3 Hread))).
  rewrite (openTextDocument_spec tempPath content w3 Hread). cbn [fst fileName].
  destruct (showTextDocument_spec tempPath w3) as (w' & -> & Hs & Hw).
  exists w'. split; [done|].
  destruct (session_eq _ _ Hs) as (-> & -> & -> & ->).
  unfold w3. cbn. rewrite Hthis, Hidle.
  repeat split; try done.
  rewrite Hw. cbn. by injection Hwin as -> ->.
Qed.

(** X16.  The open event of an encrypted file that is not yet part of the
    session, when the decryption gives a working path: the handler returns,
    the original and the working path are registered as a pair from both
    sides, every other registration is kept, the files are those the
    decryption left, and the working copy is shown in a visible editor
    that has the focus. *)
Theorem onDidOpenTextDocument_registers (w w1 : World) (document : TextDocument)
    (tempPath : jstring) :
  isCleaningUp (this w) = false →
  uri_scheme document = str "file" →
  isClosed document = false →
  originalToTempMap (this w) !! fileName document = None →
  tempToOriginalMap (this w) !! fileName document = None →
  isSopsEncrypted (getText document) = true →
  decryptToTempFile (fileName document) w = (w1, Returned tempPath) →
  ∃ w', onDidOpenTextDocument document w = (w', Returned tt)
    ∧ tracked (this w') (fileName document) tempPath
    ∧ (∀ o, o ≠ fileName document →
            originalToTempMap (this w') !! o = originalToTempMap (this w) !! o)
    ∧ (∀ t, t ≠ tempPath →
            tempToOriginalMap (this w') !! t = tempToOriginalMap (this w) !! t)
    ∧ files w' = files w1
    ∧ activeTextEditor w' = Some tempPath
    ∧ tempPath ∈ visibleTextEditors w'.
Proof.
  intros Hidle Hscheme Hclosed Ho2t Ht2o Henc Hdec.
  destruct (onDidOpenTextDocument_success w document w1 tempPath)
    as (w' & Hrun & H1 & H2 & _ & Hfiles & Hwin); try done.
  exists w'. split; [done|]. unfold tracked. rewrite H1, H2.
  split; [split; apply lookup_insert_eq|].
  split; [intros o Hne; by apply lookup_insert_ne|].
  split; [intros t Hne; by apply lookup_insert_ne|].
  split; [done|]. injection Hwin as -> ->. split; [done | left].
Qed.

(** X17.  When the decryption of an opened file fails, the handler returns
    normally: the failure is shown as an error message that carries the
    message of the error, nothing is registered, and no editor is opened. *)
Theorem onDidOpenTextDocument_decryption_fails (w w1 : World) (document : TextDocument)
    (error : js_error) :
  isCleaningUp (this w) = false →
  uri_scheme document = str "file" →
  isClosed document = false →
  originalToTempMap (this w) !! fileName document = None →
  tempToOriginalMap (this w) !! fileName document = None →
  isSopsEncrypted (getText document) = true →
  decryptToTempFile (fileName document) w = (w1, Thrown error) →
  onDidOpenTextDocument document w
  = (add_log (ShowErrorMessage (str "SOPS decryption failed: " ++ message error)) w1,
     Returned tt)
  ∧ this w1 = this w ∧ window w1 = window w.
Proof.
  intros Hidle Hscheme Hclosed Ho2t Ht2o Henc Hdec. split.
  - unfold onDidOpenTextDocument. rewrite onDidOpenTextDocument_unrolled.
    unfold onDidOpenTextDocument_. bind_get.
    rewrite Hidle, Hscheme, Ho2t, Ht2o, Hclosed, Henc.
    rewrite bool_decide_eq_true_2 by done.
    rewrite !bool_decide_eq_false_2 by (by intros [? ?]).
    cbn [negb orb]. unfold try_catch.
    rewrite (bind_thrown (decryptToTempFile _) _ w error) by by rewrite Hdec.
    by rewrite Hdec.
  - revert Hdec. unfold decryptToTempFile, child_process_exec. run_monad.
    destruct (shell _ _ _) as [fs' [stdout|err_message stderr]]; simpl; [done|].
    by intros [= <- _].
Qed.

(** X20.  The close event of a registered working copy: the handler
    returns, the working path and its original leave the two mappings, the
    working file is deleted, and the window is as it was. *)
Theorem onDidCloseTextDocument_working_copy (w : World) (document : TextDocument)
    (originalPath : jstring) :
  tempToOriginalMap (this w) !! fileName document = Some originalPath →
  ∃ w', onDidCloseTextDocument document w = (w', Returned tt)
    ∧ tempToOriginalMap (this w') = delete (fileName document) (tempToOriginalMap (this w))
    ∧ originalToTempMap (this w') = delete originalPath (originalToTempMap (this w))
    ∧ files w' = delete (fileName document) (files w)
    ∧ window w' = window w.
Proof.
  intros Ht. unfold onDidCloseTextDocument. bind_get.
  destruct (close_registered (close_fuel w) _ _ w Ht) as (Hr & Hs & Hw).
  destruct (onDidCloseTextDocument_ _ _ w) as [w' r]. simpl in *. subst r.
  apply session_without_pair in Hs as (H1 & H2 & _ & H4).
  by exists w'.
Qed.

(** What a change of focus does to the status bar. *)
Lemma onDidChangeActiveTextEditor_statusBar editor w :
  statusBarItem (this (onDidChangeActiveTextEditor editor w).1)
  = statusBarItem (this (updateStatusBar editor w).1).
Proof.
  unfold onDidChangeActiveTextEditor, updateStatusBar, setTimeout, clearTimeout.
  run_monad. by destruct (cleanupTimeout (this w)).
Qed.

(** X23.  The status bar follows the focus.  On a registered working copy
    it shows the open lock and names the original in its tooltip; on the
    original of a pair it shows the closed lock; and it is visible exactly
    when the focused editor shows a file with a name that is registered,
    as a working copy or as an original. *)
Theorem status_bar_follows_focus (editor : option jstring) (w : World) :
  let sb := statusBarItem (this (onDidChangeActiveTextEditor editor w).1) in
  (∀ p o, editor = Some p → p ≠ [] →
          tempToOriginalMap (this w) !! p = Some o →
          sb = {| text := str "$(unlock) SOPS (Decrypted)";
                  tooltip := str "Decrypted file. Original: " ++ o;
                  shown := true |})
  ∧ (∀ p t, editor = Some p → p ≠ [] →
            tempToOriginalMap (this w) !! p = None →
            originalToTempMap (this w) !! p = Some t →
            sb = {| text := str "$(lock) SOPS";
                    tooltip := str "Encrypted file. Decrypted version is already open.";
                    shown := true |})
  ∧ (shown sb = true
     ↔ ∃ p, editor = Some p ∧ p ≠ []
            ∧ (is_Some (tempToOriginalMap (this w) !! p)
               ∨ is_Some (originalToTempMap (this w) !! p))).
Proof.
  intros sb. unfold sb. rewrite onDidChangeActiveTextEditor_statusBar.
  unfold updateStatusBar. run_monad. split; [|split].
  - intros p o -> Hp Ht. rewrite bool_decide_eq_false_2 by done. simpl. by rewrite Ht.
  - intros p t -> Hp Ht Ho. rewrite bool_decide_eq_false_2 by done. simpl.
    by rewrite Ht, Ho.
  - destruct editor as [p|]; simpl.
    + destruct (decide (p = [])) as [->|Hp].
      * simpl. split; [done|]. by intros (p & [= <-] & Hne & _).
      * rewrite bool_decide_eq_false_2 by done. simpl.
        destruct (tempToOriginalMap (this w) !! p) as [o|] eqn:Ht; simpl.
        -- split; [|done]. intros _. exists p. rewrite Ht. eauto.
        -- destruct (originalToTempMap (this w) !! p) as [t|] eqn:Ho; simpl.
           ++ split; [|done]. intros _. exists p. rewrite Ho. eauto.
           ++ split; [done|]. intros (p' & [= <-] & _ & [[? H] | [? H]]); congruence.
    + split; [done|]. by intros (p & [=] & _).
Qed.

(** X19.  A save of a working copy while the tool fails: the handler
    returns normally, the original holds again what it held before the
    save, no backup is left, the session object is untouched, and the last
    thing shown is the error message with what the tool wrote to its
    standard error (or the message of the failure). *)
Theorem onDidSaveTextDocument_tool_fails (w : World) (document : TextDocument)
    (originalPath original : jstring) (fs' : gmap jstring jstring)
    (err_message stderr : jstring) :
  let backup := backup_path originalPath (uuid_source (nextUUID w)) in
  tempToOriginalMap (this w) !! fileName document = Some originalPath →
  files w !! originalPath = Some original →
  shell (encrypt_command originalPath) (Path.dirname originalPath)
    (<[originalPath := getText document]> (<[backup := original]> (files w)))
    = (fs', ExecFailed err_message stderr) →
  fs' !! backup = Some original →
  ∃ w', onDidSaveTextDocument document w = (w', Returned tt)
    ∧ files w' !! originalPath = Some original
    ∧ files w' !! backup = None
    ∧ last (log w')
      = Some (ShowErrorMessage (str "Failed to re-encrypt " ++ originalPath ++ str ": "
                                  ++ or_else stderr err_message))
    ∧ this w' = this w.
Proof.
  intros backup Ht Horig Hshell Hb.
  pose proof (backup_path_ne originalPath (uuid_source (nextUUID w))) as Hne.
  unfold onDidSaveTextDocument. bind_get. rewrite Ht.
  unfold encryptAndReplaceOriginal, randomUUID, child_process_exec, copyFile, rename.
  run_monad. fold backup. rewrite Horig. simpl. rewrite Hshell. simpl. rewrite Hb. simpl.
  eexists. split; [reflexivity|]. simpl.
  rewrite lookup_insert_eq, lookup_insert_ne, lookup_delete_eq by done.
  repeat split. by rewrite last_snoc.
Qed.

(** X18.  A save of a working copy while the tool succeeds and leaves the
    backup in place: the handler returns, the text of the document has been
    handed to the tool under the path of the original, the files are those
    the tool left without the backup, the session object is untouched, and
    the last thing shown is the message of success. *)
Theorem onDidSaveTextDocument_encrypts (w : World) (document : TextDocument)
    (originalPath original : jstring) (fs' : gmap jstring jstring) (stdout : jstring) :
  let backup := backup_path originalPath (uuid_source (nextUUID w)) in
  tempToOriginalMap (this w) !! fileName document = Some originalPath →
  files w !! originalPath = Some original →
  shell (encrypt_command originalPath) (Path.dirname originalPath)
    (<[originalPath := getText document]> (<[backup := original]> (files w)))
    = (fs', ExecOk stdout) →
  is_Some (fs' !! backup) →
  ∃ w', onDidSaveTextDocument document w = (w', Returned tt)
    ∧ files w' = delete backup fs'
    ∧ last (log w')
      = Some (ShowInformationMessage (str "Successfully re-encrypted " ++ originalPath))
    ∧ this w' = this w.
Proof.
  intros backup Ht Horig Hshell [b Hb].
  unfold onDidSaveTextDocument. bind_get. rewrite Ht.
  unfold encryptAndReplaceOriginal, randomUUID, child_process_exec, copyFile, unlink.
  run_monad. fold backup. rewrite Horig. simpl. rewrite Hshell. simpl. rewrite Hb. simpl.
  eexists. split; [reflexivity|]. simpl. repeat split. by rewrite last_snoc.
Qed.

(** X22.  Opening and closing is a round trip for the session: when an
    encrypted file is opened, decrypted to a working path that is not
    registered yet, and the working copy is closed again, the two mappings
    are what they were before the file was opened, and the working file is
    gone. *)
Theorem open_then_close_restores (w w1 : World) (document closed : TextDocument)
    (tempPath : jstring) :
  isCleaningUp (this w) = false →
  uri_scheme document = str "file" →
  isClosed document = false →
  originalToTempMap (this w) !! fileName document = None →
  tempToOriginalMap (this w) !! fileName document = None →
  isSopsEncrypted (getText document) = true →
  decryptToTempFile (fileName document) w = (w1, Returned tempPath) →
  tempToOriginalMap (this w) !! tempPath = None →
  fileName closed = tempPath →
  let w'' := run w [Open document; Close closed] in
  originalToTempMap (this w'') = originalToTempMap (this w)
  ∧ tempToOriginalMap (this w'') = tempToOriginalMap (this w)
  ∧ files w'' = delete tempPath (files w1).
Proof.
  intros Hidle Hscheme Hclosed Ho2t Ht2o Henc Hdec Hfree Hname w''.
  destruct (onDidOpenTextDocument_success w document w1 tempPath)
    as (w' & Hrun & H1 & H2 & _ & Hfiles & _); try done.
  assert (Hw : w'' = (onDidCloseTextDocument_ (close_fuel w') (fileName closed) w').1).
  { unfold w'', run. cbn [foldl]. unfold step. cbn [handle]. rewrite Hrun. cbn [fst].
    unfold onDidCloseTextDocument. by bind_get. }
  rewrite Hw. clear Hw w''.
  assert (Ht : tempToOriginalMap (this w') !! fileName closed = Some (fileName document)).
  { rewrite H2, Hname. apply lookup_insert_eq. }
  destruct (close_registered (close_fuel w') _ _ w' Ht) as (_ & Hs & _).
  apply session_without_pair in Hs as (-> & -> & _ & ->).
  rewrite H1, H2, Hfiles, Hname.
  by rewrite !delete_insert_id.
Qed.

End Handlers.



(** X27.  In every world a session can reach, a registered working path
    belongs to a tracked pair (its original is registered with it from the
    other side), and no other working path is registered for the same
    original. *)
Theorem registered_working_copy_is_tracked {R : Runtime} (HR : Runtime_ok R)
    (w : World) (tempPath originalPath : jstring) :
  reachable w →
  tempToOriginalMap (this w) !! tempPath = Some originalPath →
  tracked (this w) originalPath tempPath
  ∧ ∀ t, tempToOriginalMap (this w) !! t = Some originalPath → t = tempPath.
Proof.
  intros Hreach Ht. pose proof (reachable_half_inverse HR w Hreach) as Hhalf.
  split; [split; [by apply Hhalf | done]|].
  intros t Ht'. apply Hhalf in Ht, Ht'. congruence.
Qed.

Lemma onDidOpenTextDocument_registers_witness :
  let w1 := (decryptToTempFile (R := runtime_decrypting_to (str "k: v"))
               (fileName original_copy) one_secret).1 in
  ∃ w', onDidOpenTextDocument (R := runtime_decrypting_to (str "k: v"))
          original_copy one_secret
        = (w', Returned tt)
    ∧ tracked (this w') (fileName original_copy) secret_decrypted_yaml
    ∧ (∀ o, o ≠ fileName original_copy →
            originalToTempMap (this w') !! o = originalToTempMap (this one_secret) !! o)
    ∧ (∀ t, t ≠ secret_decrypted_yaml →
            tempToOriginalMap (this w') !! t = tempToOriginalMap (this one_secret) !! t)
    ∧ files w' = files w1
    ∧ activeTextEditor w' = Some secret_decrypted_yaml
    ∧ secret_decrypted_yaml ∈ visibleTextEditors w'.
Proof.
  apply (onDidOpenTextDocument_registers (R := runtime_decrypting_to (str "k: v"))
           one_secret _ original_copy secret_decrypted_yaml);
    vm_compute; reflexivity.
Defined.

Lemma onDidOpenTextDocument_decryption_fails_witness :
  let w1 := (decryptToTempFile (R := runtime_without_sops)
               (fileName original_copy) one_secret).1 in
  let error := new_Error (str "/bin/sh: 1: sops: not found") in
  onDidOpenTextDocument (R := runtime_without_sops) original_copy one_secret
  = (add_log (ShowErrorMessage (str "SOPS decryption failed: " ++ message error)) w1,
     Returned tt)
  ∧ this w1 = this one_secret ∧ window w1 = window one_secret.
Proof.
  apply (onDidOpenTextDocument_decryption_fails (R := runtime_without_sops)
           one_secret _ original_copy (new_Error (str "/bin/sh: 1: sops: not found")));
    vm_compute; reflexivity.
Defined.

Lemma onDidCloseTextDocument_working_copy_witness :
  ∃ w', onDidCloseTextDocument working_copy after_open = (w', Returned tt)
    ∧ tempToOriginalMap (this w')
      = delete (fileName working_copy) (tempToOriginalMap (this after_open))
    ∧ originalToTempMap (this w') = delete secret_yaml (originalToTempMap (this after_open))
    ∧ files w' = delete (fileName working_copy) (files after_open)
    ∧ window w' = window after_open.
Proof.
  apply (onDidCloseTextDocument_working_copy after_open working_copy secret_yaml).
  vm_compute. reflexivity.
Defined.


Lemma status_bar_follows_focus_witness :
  statusBarItem
    (this (onDidChangeActiveTextEditor (Some secret_decrypted_yaml) after_open).1)
  = {| text := str "$(unlock) SOPS (Decrypted)";
       tooltip := str "Decrypted file. Original: " ++ secret_yaml;
       shown := true |}.
Proof.
  apply (proj1 (status_bar_follows_focus (Some secret_decrypted_yaml) after_open)
           secret_decrypted_yaml secret_yaml).
  - reflexivity.
  - discriminate.
  - vm_compute. reflexivity.
Defined.

Lemma after_open_registered :
  tempToOriginalMap (this after_open) !! fileName working_copy = Some secret_yaml
  ∧ files after_open !! secret_yaml = Some (str "k: ENC[AES256_GCM,data:Zm9v]").
Proof. split; vm_compute; reflexivity. Qed.

Lemma onDidSaveTextDocument_tool_fails_witness :
  let backup := backup_path secret_yaml
                  (uuid_source (Runtime := runtime_without_sops) (nextUUID after_open)) in
  ∃ w', onDidSaveTextDocument (R := runtime_without_sops) working_copy after_open
        = (w', Returned tt)
    ∧ files w' !! secret_yaml = Some (str "k: ENC[AES256_GCM,data:Zm9v]")
    ∧ files w' !! backup = None
    ∧ last (log w')
      = Some (ShowErrorMessage
                (str "Failed to re-encrypt " ++ secret_yaml ++ str ": "
                   ++ or_else (str "/bin/sh: 1: sops: not found")
                        (str "Command failed: " ++ encrypt_command secret_yaml)))
    ∧ this w' = this after_open.
Proof.
  apply (onDidSaveTextDocument_tool_fails (R := runtime_without_sops)
           after_open working_copy secret_yaml (str "k: ENC[AES256_GCM,data:Zm9v]")
           (<[secret_yaml := getText working_copy]>
              (<[backup_path secret_yaml
                   (uuid_source (Runtime := runtime_without_sops) (nextUUID after_open))
                 := str "k: ENC[AES256_GCM,data:Zm9v]"]> (files after_open)))
           (str "Command failed: " ++ encrypt_command secret_yaml)
           (str "/bin/sh: 1: sops: not found")
           (proj1 after_open_registered) (proj2 after_open_registered)).
  - reflexivity.
  - vm_compute. reflexivity.
Defined.

Lemma onDidSaveTextDocument_encrypts_witness :
  let backup := backup_path secret_yaml
                  (uuid_source (Runtime := runtime_decrypting_to []) (nextUUID after_open)) in
  let written :=
    <[secret_yaml := getText working_copy]>
      (<[backup := str "k: ENC[AES256_GCM,data:Zm9v]"]> (files after_open)) in
  ∃ w', onDidSaveTextDocument (R := runtime_decrypting_to []) working_copy after_open
        = (w', Returned tt)
    ∧ files w' = delete backup written
    ∧ last (log w')
      = Some (ShowInformationMessage (str "Successfully re-encrypted " ++ secret_yaml))
    ∧ this w' = this after_open.
Proof.
  apply (onDidSaveTextDocument_encrypts (R := runtime_decrypting_to [])
           after_open working_copy secret_yaml (str "k: ENC[AES256_GCM,data:Zm9v]")
           (<[secret_yaml := getText working_copy]>
              (<[backup_path secret_yaml
                   (uuid_source (Runtime := runtime_decrypting_to []) (nextUUID after_open))
                 := str "k: ENC[AES256_GCM,data:Zm9v]"]> (files after_open)))
           []
           (proj1 after_open_registered) (proj2 after_open_registered)).
  - reflexivity.
  - vm_compute. by eexists.
Defined.

Lemma open_then_close_restores_witness :
  let w1 := (decryptToTempFile (R := runtime_decrypting_to (str "k: v"))
               (fileName original_copy) one_secret).1 in
  let w'' := run (R := runtime_decrypting_to (str "k: v")) one_secret
               [Open original_copy; Close working_copy] in
  originalToTempMap (this w'') = originalToTempMap (this one_secret)
  ∧ tempToOriginalMap (this w'') = tempToOriginalMap (this one_secret)
  ∧ files w'' = delete secret_decrypted_yaml (files w1).
Proof.
  apply (open_then_close_restores (R := runtime_decrypting_to (str "k: v"))
           one_secret _ original_copy working_copy secret_decrypted_yaml);
    vm_compute; reflexivity.
Defined.

Lemma registered_working_copy_is_tracked_witness :
  tracked (this after_open) secret_yaml secret_decrypted_yaml
  ∧ ∀ t, tempToOriginalMap (this after_open) !! t = Some secret_yaml
         → t = secret_decrypted_yaml.
Proof.
  apply (registered_working_copy_is_tracked
           (R := runtime_decrypting_to (str "k: v")) (fragment_runtime_ok _ _ _)
           after_open).
  - unfold after_open, run. cbn [foldl]. apply reachable_event, reachable_initial.
  - vm_compute. reflexivity.
Defined.

(** ** The encrypt-file command *)

Lemma get_prop_defined v key : defined v ↔ ∃ x, get_prop v key = Returned x.
Proof.
  unfold defined. destruct v; simpl; split; try (intros [? ?]; done); try by eexists.
  all: intros _; split; done.
Qed.

(** An entry is made for the rules whose values can be printed, and for
    no other. *)
Lemma quick_pick_item_returns r :
  defined r →
  (∃ item, quick_pick_item r = Returned item) ↔ printable_rule r.
Proof.
  intros Hr.
  destruct (proj1 (get_prop_defined r (str "path_regex")) Hr) as [path_regex Hget].
  assert (Hkeys : Object_keys r = Returned (own_properties r).*1).
  { destruct Hr as [? ?]. by destruct r. }
  unfold quick_pick_item, printable_rule. rewrite Hkeys, Hget.
  assert (Hlabel : (∃ parts, map_outcome (key_and_value r)
                               (filter (λ k, k ≠ str "path_regex") (own_properties r).*1)
                             = Returned parts)
                   ↔ ∀ k, k ∈ (own_properties r).*1 → k ≠ str "path_regex" →
                          printable (get_own r k) = true).
  { rewrite map_outcome_returns, Forall_forall. split.
    - intros H k Hk Hne. apply toString_printable.
      destruct (H k) as [y Hy]; [by apply list_elem_of_filter|].
      unfold key_and_value in Hy. destruct (toString (get_own r k)); [by eexists | done].
    - intros H k [Hne Hk]%list_elem_of_filter. unfold key_and_value.
      destruct (proj2 (toString_printable (get_own r k)) (H k Hk Hne)) as [text ->].
      by eexists. }
  rewrite <- Hlabel.
  destruct (map_outcome _ _) as [parts|e].
  - destruct (truthy path_regex) eqn:Ht.
    + destruct (toString path_regex) as [text|e] eqn:Hs.
      * split; [|by eexists]. intros _. split; [by eexists|].
        intros ? [= <-]. apply toString_printable. by eexists.
      * split; [by intros [? ?]|]. intros [_ H].
        assert (∃ text, toString path_regex = Returned text) as [? ?]
          by (apply toString_printable; by apply H).
        congruence.
    + split; [|by eexists]. intros _. split; [by eexists|].
      intros ? [= <-]. by apply falsy_printable.
  - split; [by intros [? ?] | by intros [[? ?] _]].
Qed.

Lemma quick_pick_item_rule r item : quick_pick_item r = Returned item → rule item = r.
Proof.
  unfold quick_pick_item. destruct (Object_keys r); [|done].
  destruct (map_outcome _ _); [|done]. destruct (get_prop r _) as [pr|]; [|done].
  destruct (truthy pr); [destruct (toString pr); [|done]|]; by intros [= <-].
Qed.

Lemma quick_pick_items_rules rules items :
  map_outcome quick_pick_item rules = Returned items → rule <$> items = rules.
Proof.
  revert items. induction rules as [|r rules IH]; intros items.
  - by intros [= <-].
  - rewrite map_outcome_cons. destruct (quick_pick_item r) as [item|] eqn:Hr; [|done].
    destruct (map_outcome quick_pick_item rules) as [items'|]; [|done].
    intros [= <-]. cbn. by rewrite (quick_pick_item_rule r item Hr), (IH items').
Qed.

Lemma quick_pick_items_returns rules :
  Forall defined rules →
  (∃ items, map_outcome quick_pick_item rules = Returned items)
  ↔ Forall printable_rule rules.
Proof.
  intros Hdef. rewrite map_outcome_returns, !Forall_forall.
  rewrite Forall_forall in Hdef. split.
  - intros H r Hr. apply quick_pick_item_returns; auto.
  - intros H r Hr. apply quick_pick_item_returns; auto.
Qed.

Section EncryptCommandFacts.
Context {R : Runtime} (bytes_toString : jstring → jstring).

Lemma for_each_rule_defined filePath rules : ∀ acc result,
  for_each_rule filePath rules acc = Returned result →
  Forall defined acc → Forall defined result.
Proof.
  induction rules as [|r rules IH]; intros acc result; cbn [for_each_rule].
  - by intros [= <-].
  - destruct (get_prop r (str "path_regex")) as [path_regex|e] eqn:Hget; [|done].
    assert (Hr : defined r) by (apply (get_prop_defined r (str "path_regex")); eauto).
    assert (Hpush : Forall defined acc → Forall defined (acc ++ [r])).
    { intros Hacc. apply Forall_app. split; [done | by constructor]. }
    destruct (negb (truthy path_regex)); [intros H Hacc; eapply IH; eauto|].
    destruct (toString path_regex) as [pattern|e]; [|done].
    destruct (RegExp_new pattern) as [re|]; [|done].
    destruct (RegExp_test re filePath); intros H Hacc; eapply IH; eauto.
Qed.

(** The lookup returns values only. *)
Lemma getApplicableCreationRules_defined filePath w w1 rules :
  getApplicableCreationRules filePath w = (w1, Returned rules) → Forall defined rules.
Proof.
  unfold getApplicableCreationRules, first_workspace_folder, readFile. run_monad.
  destruct (workspaceFolders w) as [[|folder ?]|]; simpl;
    try (intros [= _ <-]; constructor);
    (destruct (files w !! _) as [configFile|]; simpl; [|intros [= _ <-]; constructor]);
    (destruct (yaml_load configFile) as [config|e]; simpl; [|intros [= _ <-]; constructor]);
    (destruct (get_prop config _) as [cr|e]; simpl; [|intros [= _ <-]; constructor]);
    (destruct (truthy cr); simpl; [|intros [= _ <-]; constructor]);
    (destruct (iterate cr) as [candidates|e]; simpl; [|intros [= _ <-]; constructor]);
    (destruct (for_each_rule filePath candidates []) as [result|e] eqn:Hloop; simpl;
      [|intros [= _ <-]; constructor]);
    intros [= _ <-]; by apply (for_each_rule_defined _ _ _ _ Hloop).
Qed.

Lemma workspace_fs_readFile_found path content w :
  files w !! path = Some content → workspace_fs_readFile path w = (w, Returned content).
Proof. intros H. unfold workspace_fs_readFile. by rewrite H. Qed.

(** X28.  The command refuses to start: without a file given and without
    an active editor it only shows an error; on a file that the heuristic
    takes for encrypted it only shows that the file is encrypted already.
    In both cases nothing else changes and no command is run. *)
Theorem onEncryptFile_refuses (pick : option nat) (w : World) :
  (activeTextEditor w = None →
   onEncryptFile bytes_toString None pick w
   = (add_log (ShowErrorMessage (str "No file selected or active editor.")) w,
      Returned tt))
  ∧ (∀ uri filePath content,
       uri = Some filePath ∨ (uri = None ∧ activeTextEditor w = Some filePath) →
       files w !! filePath = Some content →
       isSopsEncrypted (bytes_toString content) = true →
       onEncryptFile bytes_toString uri pick w
       = (add_log (ShowInformationMessage (str "File is already encrypted with SOPS.")) w,
          Returned tt)).
Proof.
  split.
  - intros Hactive. unfold onEncryptFile. bind_get. by rewrite Hactive.
  - intros uri filePath content Huri Hfile Henc. unfold onEncryptFile. bind_get.
    assert (Htarget : match uri with Some u => Some u | None => activeTextEditor w end
                      = Some filePath).
    { by destruct Huri as [-> | [-> ->]]. }
    rewrite Htarget.
    rewrite (bind_returned (workspace_fs_readFile filePath) _ w content)
      by by rewrite (workspace_fs_readFile_found _ content).
    rewrite (workspace_fs_readFile_found _ content) by done. cbn [fst]. by rewrite Henc.
Qed.

Lemma keeps_frame_encrypt_selected filePath selectedRule :
  keeps session_frame (encrypt_selected filePath selectedRule)
  ∧ returns (encrypt_selected filePath selectedRule).
Proof.
  split.
  - unfold encrypt_selected, encryptFile, showInformationMessage, showErrorMessage,
      console_error.
    assert (Hexec : ∀ cmd cwd, keeps session_frame (child_process_exec cmd cwd)).
    { intros cmd cwd w. unfold child_process_exec. by destruct (shell cmd cwd (files w)). }
    apply keeps_try_catch; [|intros ?; by apply keeps_modify].
    apply keeps_bind; [|intros ?; by apply keeps_modify].
    apply keeps_bind; [apply keeps_lift | intros pgp].
    apply keeps_bind; [apply keeps_lift | intros cmd1].
    apply keeps_bind; [apply keeps_lift | intros age].
    apply keeps_bind; [apply keeps_lift | intros cmd2].
    apply keeps_bind; [apply Hexec | intros out].
    destruct out; [apply keeps_ret|].
    apply keeps_bind; [by apply keeps_modify | intros ?]. apply keeps_throw.
  - unfold encrypt_selected, showErrorMessage. apply returns_try_catch. intros ?.
    apply returns_modify.
Qed.

(** The command, once the rules have been looked up. *)
Lemma onEncryptFile_after_lookup w w1 filePath content rules pick :
  files w !! filePath = Some content →
  isSopsEncrypted (bytes_toString content) = false →
  getApplicableCreationRules filePath w = (w1, Returned rules) →
  onEncryptFile bytes_toString (Some filePath) pick w
  = match rules with
    | [] =>
        (add_log (ShowErrorMessage (str "No SOPS creation rule found for "
                                      ++ filePath ++ str ".")) w1,
         Returned tt)
    | [only] => encrypt_selected filePath only w1
    | _ =>
        match map_outcome quick_pick_item rules with
        | Thrown e => (w1, Thrown e)
        | Returned _ =>
            match pick ≫= (rules !!.) with
            | Some picked => encrypt_selected filePath picked w1
            | None => (w1, Returned tt)
            end
        end
    end.
Proof.
  intros Hfile Henc Hrules.
  unfold onEncryptFile. bind_get.
  rewrite (bind_returned (workspace_fs_readFile filePath) _ w content)
    by by rewrite (workspace_fs_readFile_found _ content).
  rewrite (workspace_fs_readFile_found _ content) by done. cbn [fst]. rewrite Henc.
  rewrite (bind_returned (getApplicableCreationRules filePath) _ w rules)
    by by rewrite Hrules.
  rewrite Hrules. cbn [fst].
  destruct rules as [|r1 [|r2 rules]]; [done | done |].
  cbn [length Nat.eqb Nat.ltb Nat.leb].
  unfold lift at 1.
  unfold mbind at 1, M_bind at 1, bind at 1.
  destruct (map_outcome quick_pick_item (r1 :: r2 :: rules)) as [items|e] eqn:Hitems;
    [|done].
  apply quick_pick_items_rules in Hitems.
  destruct pick as [i|]; [|done]. cbn [mbind option_bind].
  rewrite <- Hitems, list_lookup_fmap.
  by destruct (items !! i).
Qed.

Lemma onEncryptFile_uri w filePath pick :
  activeTextEditor w = Some filePath →
  onEncryptFile bytes_toString None pick w
  = onEncryptFile bytes_toString (Some filePath) pick w.
Proof. intros H. unfold onEncryptFile. bind_get. bind_get. by rewrite H. Qed.

(** X29.  Which rule the command encrypts with, for a file that is there
    and not taken for encrypted.  When no rule applies, it shows an error
    that names the file and does no more.  When one rule applies, it
    encrypts with that rule, whatever the answer to a quick pick would
    be.  When several apply and the values of all of them can be printed,
    it encrypts with the rule of the entry the user takes, the entries
    being in the order of the rules, and it does nothing when the user
    leaves the list.  When several apply and a value of one of them cannot
    be printed, the entries cannot be made: the command throws before any
    list is shown, whatever the user would answer. *)
Theorem onEncryptFile_selects (w w1 : World) (filePath content : jstring)
    (rules : list value) :
  files w !! filePath = Some content →
  isSopsEncrypted (bytes_toString content) = false →
  getApplicableCreationRules filePath w = (w1, Returned rules) →
  (rules = [] →
   ∀ pick, onEncryptFile bytes_toString (Some filePath) pick w
           = (add_log (ShowErrorMessage (str "No SOPS creation rule found for "
                                           ++ filePath ++ str ".")) w1,
              Returned tt))
  ∧ (∀ only, rules = [only] →
       ∀ pick, onEncryptFile bytes_toString (Some filePath) pick w
               = encrypt_selected filePath only w1)
  ∧ (1 < length rules → Forall printable_rule rules →
     (∀ i picked, rules !! i = Some picked →
        onEncryptFile bytes_toString (Some filePath) (Some i) w
        = encrypt_selected filePath picked w1)
     ∧ onEncryptFile bytes_toString (Some filePath) None w = (w1, Returned tt))
  ∧ (1 < length rules → ¬ Forall printable_rule rules →
     ∀ pick, ∃ e, onEncryptFile bytes_toString (Some filePath) pick w = (w1, Thrown e)).
Proof.
  intros Hfile Henc Hrules.
  pose proof (λ pick, onEncryptFile_after_lookup w w1 filePath content rules pick
                        Hfile Henc Hrules) as Heq.
  pose proof (quick_pick_items_returns rules
                (getApplicableCreationRules_defined _ _ _ _ Hrules)) as Hitems.
  split; [|split; [|split]].
  - intros -> pick. apply Heq.
  - intros only -> pick. apply Heq.
  - intros Hlen [items Hret]%Hitems.
    destruct rules as [|r1 [|r2 rules]]; [simpl in Hlen; lia.. |].
    split.
    + intros i picked Hi. rewrite Heq, Hret. cbn [mbind option_bind]. by rewrite Hi.
    + by rewrite Heq, Hret.
  - intros Hlen Hnot pick.
    destruct rules as [|r1 [|r2 rules]]; [simpl in Hlen; lia.. |].
    rewrite Heq. destruct (map_outcome quick_pick_item _) as [items|e]; [|by eexists].
    exfalso. apply Hnot, Hitems. by eexists.
Qed.

(** X30.  The command leaves the session alone and throws in two cases
    only.  Whatever it is given, the session object, the window and the
    timers are as before.  When it throws, the file it was to encrypt is
    not there, or several rules apply to it and a value of one of them
    cannot be printed, so that the entries of the quick pick cannot be
    made.  A failure of the encryption itself ends as a message. *)
Theorem onEncryptFile_throws_only (uri : option jstring) (pick : option nat)
    (w : World) :
  session_frame (onEncryptFile bytes_toString uri pick w).1 = session_frame w
  ∧ (∀ error, (onEncryptFile bytes_toString uri pick w).2 = Thrown error →
       ∃ filePath,
         (uri = Some filePath ∨ (uri = None ∧ activeTextEditor w = Some filePath))
         ∧ (files w !! filePath = None
            ∨ ∃ w1 rules,
                getApplicableCreationRules filePath w = (w1, Returned rules)
                ∧ 1 < length rules ∧ ¬ Forall printable_rule rules)).
Proof.
  assert (Hgiven : ∀ filePath,
            session_frame (onEncryptFile bytes_toString (Some filePath) pick w).1
            = session_frame w
            ∧ (∀ error,
                 (onEncryptFile bytes_toString (Some filePath) pick w).2 = Thrown error →
                 files w !! filePath = None
                 ∨ ∃ w1 rules,
                     getApplicableCreationRules filePath w = (w1, Returned rules)
                     ∧ 1 < length rules ∧ ¬ Forall printable_rule rules)).
  { intros filePath. destruct (files w !! filePath) as [content|] eqn:Hfile.
    - destruct (isSopsEncrypted (bytes_toString content)) eqn:Henc.
      + unfold onEncryptFile. bind_get.
        rewrite (bind_returned (workspace_fs_readFile filePath) _ w content)
          by by rewrite (workspace_fs_readFile_found _ content).
        rewrite (workspace_fs_readFile_found _ content) by done. cbn [fst].
        by rewrite Henc.
      + destruct (getApplicableCreationRules_world filePath w)
          as (w1 & rules & Hrules & Hw1).
        assert (Hc1 : session_frame w1 = session_frame w)
          by by destruct Hw1 as [-> | [text ->]].
        pose proof (quick_pick_items_returns rules
                      (getApplicableCreationRules_defined _ _ _ _ Hrules)) as Hitems.
        rewrite (onEncryptFile_after_lookup w w1 filePath content rules pick)
          by done.
        assert (Hsel : ∀ r,
                  session_frame (encrypt_selected filePath r w1).1 = session_frame w
                  ∧ ∀ error, (encrypt_selected filePath r w1).2 ≠ Thrown error).
        { intros r. destruct (keeps_frame_encrypt_selected filePath r) as [Hk Hr].
          split; [by rewrite Hk|]. intros error.
          destruct (Hr w1) as [a Ha]. by rewrite Ha. }
        destruct rules as [|r1 [|r2 rules]].
        * done.
        * destruct (Hsel r1) as [Hk Hr]. split; [done|]. intros error H.
          by apply Hr in H.
        * destruct (map_outcome quick_pick_item _) as [items|e] eqn:Hmap.
          -- destruct (pick ≫= _) as [picked|]; [|done].
             destruct (Hsel picked) as [Hk Hr]. split; [done|]. intros error H.
             by apply Hr in H.
          -- split; [done|]. intros error _. right. exists w1, (r1 :: r2 :: rules).
             split; [done|]. split; [simpl; lia|].
             intros [items Hret]%Hitems. congruence.
    - split.
      + unfold onEncryptFile. bind_get. unfold workspace_fs_readFile.
        unfold mbind, M_bind, bind. by rewrite Hfile.
      + intros error _. by left. }
  destruct uri as [filePath|].
  - destruct (Hgiven filePath) as [Hc Hthrown]. split; [done|].
    intros error H. exists filePath. split; [by left | by apply (Hthrown error)].
  - destruct (activeTextEditor w) as [filePath|] eqn:Hactive.
    + rewrite (onEncryptFile_uri w filePath pick Hactive).
      destruct (Hgiven filePath) as [Hc Hthrown]. split; [done|].
      intros error H. exists filePath. split; [by right | by apply (Hthrown error)].
    + unfold onEncryptFile. bind_get. by rewrite Hactive.
Qed.

End EncryptCommandFacts.

Lemma onEncryptFile_refuses_witness :
  onEncryptFile (R := runtime_without_sops) (λ bytes, bytes) None None empty_world
  = (add_log (ShowErrorMessage (str "No file selected or active editor.")) empty_world,
     Returned tt)
  ∧ onEncryptFile (R := runtime_without_sops) (λ bytes, bytes) (Some x_yaml) None
      two_secrets
    = (add_log (ShowInformationMessage (str "File is already encrypted with SOPS."))
         two_secrets,
       Returned tt).
Proof.
  split.
  - apply (proj1 (onEncryptFile_refuses (R := runtime_without_sops) (λ bytes, bytes)
                    None empty_world)).
    reflexivity.
  - apply (proj2 (onEncryptFile_refuses (R := runtime_without_sops) (λ bytes, bytes)
                    None two_secrets)
             (Some x_yaml) x_yaml encrypted_text).
    + by left.
    + vm_compute. reflexivity.
    + vm_compute. reflexivity.
Defined.

Lemma onEncryptFile_selects_witness :
  (onEncryptFile (R := runtime_with_config (config_of [yaml_rule; fallback_rule]))
     (λ bytes, bytes) (Some db_yaml) (Some 1) plain_world
   = encrypt_selected (R := runtime_with_config (config_of [yaml_rule; fallback_rule]))
       db_yaml fallback_rule plain_world
   ∧ onEncryptFile (R := runtime_with_config (config_of [yaml_rule; fallback_rule]))
       (λ bytes, bytes) (Some db_yaml) None plain_world
     = (plain_world, Returned tt))
  ∧ ∃ e, onEncryptFile
           (R := runtime_with_config (config_of [unprintable_rule; fallback_rule]))
           (λ bytes, bytes) (Some db_yaml) (Some 1) plain_world
         = (plain_world, Thrown e).
Proof.
  split.
  - destruct (proj1 (proj2 (proj2 (onEncryptFile_selects
                (R := runtime_with_config (config_of [yaml_rule; fallback_rule]))
                (λ bytes, bytes) plain_world plain_world db_yaml
                (str "password: hunter2") [yaml_rule; fallback_rule]
                ltac:(vm_compute; reflexivity)
                ltac:(vm_compute; reflexivity)
                ltac:(vm_compute; reflexivity))))
              ltac:(simpl; lia)
              ltac:(apply quick_pick_items_returns;
                    [repeat constructor; done
                    | eexists; vm_compute; reflexivity])) as [Hpick Hcancel].
    split; [exact (Hpick 1 fallback_rule eq_refl) | exact Hcancel].
  - apply (proj2 (proj2 (proj2 (onEncryptFile_selects
                (R := runtime_with_config (config_of [unprintable_rule; fallback_rule]))
                (λ bytes, bytes) plain_world plain_world db_yaml
                (str "password: hunter2") [unprintable_rule; fallback_rule]
                ltac:(vm_compute; reflexivity)
                ltac:(vm_compute; reflexivity)
                ltac:(vm_compute; reflexivity))))).
    + simpl. lia.
    + intros [items Hitems]%quick_pick_items_returns; [|repeat constructor; done].
      vm_compute in Hitems. discriminate.
Defined.

Lemma onEncryptFile_throws_only_witness :
  (∃ filePath,
     (Some secret_yaml = Some filePath
      ∨ (Some secret_yaml = None ∧ activeTextEditor empty_world = Some filePath))
     ∧ (files empty_world !! filePath = None
        ∨ ∃ w1 rules,
            getApplicableCreationRules (R := runtime_without_sops) filePath empty_world
            = (w1, Returned rules)
            ∧ 1 < length rules ∧ ¬ Forall printable_rule rules))
  ∧ ∃ filePath,
      (Some db_yaml = Some filePath
       ∨ (Some db_yaml = None ∧ activeTextEditor plain_world = Some filePath))
      ∧ (files plain_world !! filePath = None
         ∨ ∃ w1 rules,
             getApplicableCreationRules
               (R := runtime_with_config (config_of [unprintable_rule; fallback_rule]))
               filePath plain_world
             = (w1, Returned rules)
             ∧ 1 < length rules ∧ ¬ Forall printable_rule rules).
Proof.
  split.
  - apply (proj2 (onEncryptFile_throws_only (R := runtime_without_sops)
                    (λ bytes, bytes) (Some secret_yaml) None empty_world)
             (JsError (str "EntryNotFound (FileSystemError)")
                (str "Unable to read file " ++ quoted secret_yaml))).
    vm_compute. reflexivity.
  - apply (proj2 (onEncryptFile_throws_only
                    (R := runtime_with_config (config_of [unprintable_rule; fallback_rule]))
                    (λ bytes, bytes) (Some db_yaml) (Some 1) plain_world)
             (TypeError (str "Cannot convert object to primitive value"))).
    vm_compute. reflexivity.
Defined.
